(** * dstat: a shallow embedding of [main.go] and its verified properties

    The program scans a directory tree, accumulates per-extension file counts
    and byte sizes, folds small categories into an "other" bucket, sorts the
    entries and prints them as percentages or as an ASCII bar chart.

    Conventions of the embedding:
    - Go strings are byte strings: [string] (a list of [ascii]).
    - Go [int] and [int64] are 64-bit two's-complement integers: [Z] with the
      wrap-around [wrap64] written at every addition.
    - Go maps are [gmap string Z]; [map[string]struct{}] is [gset string].
      The order in which [range] yields the entries of a map is not fixed by
      the language, so it is a parameter ([RangeOrder]).
    - [float64] is IEEE-754 binary64, taken from the Standard Library's
      executable specification [SpecFloat] at precision 53, emax 1024.
    - The file system and the standard streams are explicit values. *)

From Stdlib Require Import ZArith Lia List Bool Ascii String Sorting.Sorted.
From Stdlib Require Import Floats.SpecFloat DecimalString QArith.
From stdpp Require Import base gmap strings list fin_maps sorting.

Local Open Scope Z_scope.

(** ** Machine integers *)

Definition wrap64 (x : Z) : Z := (x + 2^63) mod 2^64 - 2^63.

Definition in_int64 (x : Z) : Prop := - 2^63 <= x < 2^63.

(** ** Byte strings: the functions of Go's [strings] package that are used *)

Definition str (l : list ascii) : string := string_of_list_ascii l.

(** [strings.HasPrefix] *)
Definition HasPrefix (s p : string) : bool := String.prefix p s.

(** Drop the first [n] bytes. *)
Fixpoint dropBytes (n : nat) (s : string) : string :=
  match n, s with
  | O, _ => s
  | S n', String _ s' => dropBytes n' s'
  | S _, EmptyString => EmptyString
  end.

(** [strings.TrimPrefix] *)
Definition TrimPrefix (s p : string) : string :=
  if HasPrefix s p then dropBytes (String.length p) s else s.

(** [strings.Contains] *)
Fixpoint Contains (s sub : string) : bool :=
  String.prefix sub s ||
  match s with
  | EmptyString => false
  | String _ s' => Contains s' sub
  end.

(** [strings.SplitN(s, sep, 2)] for a one-byte separator that occurs in [s]:
    the text before the first separator and the text after it. *)
Fixpoint cutAt (sep : ascii) (s : string) : string * string :=
  match s with
  | EmptyString => (EmptyString, EmptyString)
  | String c s' =>
      if Ascii.eqb c sep then (EmptyString, s')
      else let '(a, b) := cutAt sep s' in (String c a, b)
  end.

(** [strings.Split(s, sep)] for a one-byte separator: never the empty list. *)
Fixpoint Split (sep : ascii) (s : string) : list string :=
  match s with
  | EmptyString => [EmptyString]
  | String c s' =>
      if Ascii.eqb c sep then EmptyString :: Split sep s'
      else match Split sep s' with
           | [] => [String c EmptyString]
           | w :: ws => String c w :: ws
           end
  end.

(** The UTF-8 encodings of the code points with Unicode's White_Space
    property, which [strings.TrimSpace] removes at both ends. *)
Definition whiteSpace : list (list nat) :=
  ([ [9]; [10]; [11]; [12]; [13]; [32]; [194; 133]; [194; 160];
    [225; 154; 128];
    [226; 128; 128]; [226; 128; 129]; [226; 128; 130]; [226; 128; 131];
    [226; 128; 132]; [226; 128; 133]; [226; 128; 134]; [226; 128; 135];
    [226; 128; 136]; [226; 128; 137]; [226; 128; 138];
    [226; 128; 168]; [226; 128; 169]; [226; 128; 175]; [226; 129; 159];
    [227; 128; 128] ])%nat.

Definition stripOne (bs : list ascii) : option (list ascii) :=
  let try (w : list nat) :=
    let w' := map ascii_of_nat w in
    if decide (take (length w') bs = w') then Some (drop (length w') bs) else None in
  fold_right (fun w acc => match try w with Some r => Some r | None => acc end)
             None whiteSpace.

Fixpoint trimLeft (fuel : nat) (bs : list ascii) : list ascii :=
  match fuel with
  | O => bs
  | S fuel' => match stripOne bs with
               | Some bs' => trimLeft fuel' bs'
               | None => bs
               end
  end.

Definition stripOneRight (bs : list ascii) : option (list ascii) :=
  let try (w : list nat) :=
    let w' := map ascii_of_nat w in
    let k := (length bs - length w')%nat in
    if decide (length w' <= length bs)%nat
    then if decide (drop k bs = w') then Some (take k bs) else None
    else None in
  fold_right (fun w acc => match try w with Some r => Some r | None => acc end)
             None whiteSpace.

Fixpoint trimRight (fuel : nat) (bs : list ascii) : list ascii :=
  match fuel with
  | O => bs
  | S fuel' => match stripOneRight bs with
               | Some bs' => trimRight fuel' bs'
               | None => bs
               end
  end.

(** [strings.TrimSpace]; every step removes at least one byte, so the length
    of the string is enough fuel. *)
Definition TrimSpace (s : string) : string :=
  let bs := list_ascii_of_string s in
  let l := trimLeft (length bs) bs in
  str (trimRight (length l) l).

(** [strconv.ParseInt(s, 10, 64)]: an optional sign, then one or more decimal
    digits, the value within the range of int64; [None] for its error. *)
Definition digitVal (c : ascii) : option Z :=
  let n := Z.of_nat (nat_of_ascii c) in
  if (48 <=? n) && (n <=? 57) then Some (n - 48) else None.

Fixpoint parseDigits (acc : Z) (s : string) : option Z :=
  match s with
  | EmptyString => Some acc
  | String c s' => match digitVal c with
                   | Some d => parseDigits (10 * acc + d) s'
                   | None => None
                   end
  end.

Definition ParseInt (s : string) : option Z :=
  let '(neg, body) :=
    match s with
    | String "+" s' => (false, s')
    | String "-" s' => (true, s')
    | _ => (false, s)
    end in
  match body with
  | EmptyString => None
  | _ => match parseDigits 0 body with
         | Some n => let v := if neg then - n else n in
                     if (- 2^63 <=? v) && (v <? 2^63) then Some v else None
         | None => None
         end
  end.

(** [filepath.Ext]: the suffix that starts at the last dot of the last path
    element, empty when that element has no dot.  The scan runs from the end
    of the string and stops at a path separator. *)
Fixpoint extScan (rev_s : list ascii) (suffix : list ascii) : list ascii :=
  match rev_s with
  | [] => []
  | c :: rest =>
      if Ascii.eqb c "/" then []
      else if Ascii.eqb c "." then c :: suffix
      else extScan rest (c :: suffix)
  end.

Definition Ext (path : string) : string :=
  str (extScan (rev (list_ascii_of_string path)) []).

(** ** Configuration *)

Record Config := mkConfig {
  Dir : string;
  Verbose : bool;
  NoBar : bool;
  ShowSize : bool;
  SizeOnly : bool;
  IncludeHidden : bool;
  Human : bool;
  MinSize : Z;
  MaxSize : Z;
  Exclude : gset string;
  ExcludeDirs : gset string;
  BySize : bool
}.

(** [FileStat]: the aggregate for one extension. *)
Record FileStat := mkFileStat {
  fsExt : string;
  Count : Z;
  Size : Z
}.

Definition setDir (c : Config) (d : string) : Config :=
  mkConfig d (Verbose c) (NoBar c) (ShowSize c) (SizeOnly c) (IncludeHidden c)
           (Human c) (MinSize c) (MaxSize c) (Exclude c) (ExcludeDirs c) (BySize c).
Definition setVerbose (c : Config) : Config :=
  mkConfig (Dir c) true (NoBar c) (ShowSize c) (SizeOnly c) (IncludeHidden c)
           (Human c) (MinSize c) (MaxSize c) (Exclude c) (ExcludeDirs c) (BySize c).
Definition setNoBar (c : Config) : Config :=
  mkConfig (Dir c) (Verbose c) true (ShowSize c) (SizeOnly c) (IncludeHidden c)
           (Human c) (MinSize c) (MaxSize c) (Exclude c) (ExcludeDirs c) (BySize c).
Definition setShowSize (c : Config) : Config :=
  mkConfig (Dir c) (Verbose c) (NoBar c) true (SizeOnly c) (IncludeHidden c)
           (Human c) (MinSize c) (MaxSize c) (Exclude c) (ExcludeDirs c) (BySize c).
Definition setSizeOnly (c : Config) : Config :=
  mkConfig (Dir c) (Verbose c) (NoBar c) (ShowSize c) true (IncludeHidden c)
           (Human c) (MinSize c) (MaxSize c) (Exclude c) (ExcludeDirs c) (BySize c).
Definition setIncludeHidden (c : Config) : Config :=
  mkConfig (Dir c) (Verbose c) (NoBar c) (ShowSize c) (SizeOnly c) true
           (Human c) (MinSize c) (MaxSize c) (Exclude c) (ExcludeDirs c) (BySize c).
Definition setHuman (c : Config) : Config :=
  mkConfig (Dir c) (Verbose c) (NoBar c) (ShowSize c) (SizeOnly c) (IncludeHidden c)
           true (MinSize c) (MaxSize c) (Exclude c) (ExcludeDirs c) (BySize c).
Definition setMinSize (c : Config) (n : Z) : Config :=
  mkConfig (Dir c) (Verbose c) (NoBar c) (ShowSize c) (SizeOnly c) (IncludeHidden c)
           (Human c) n (MaxSize c) (Exclude c) (ExcludeDirs c) (BySize c).
Definition setMaxSize (c : Config) (n : Z) : Config :=
  mkConfig (Dir c) (Verbose c) (NoBar c) (ShowSize c) (SizeOnly c) (IncludeHidden c)
           (Human c) (MinSize c) n (Exclude c) (ExcludeDirs c) (BySize c).
Definition setExclude (c : Config) (s : gset string) : Config :=
  mkConfig (Dir c) (Verbose c) (NoBar c) (ShowSize c) (SizeOnly c) (IncludeHidden c)
           (Human c) (MinSize c) (MaxSize c) s (ExcludeDirs c) (BySize c).
Definition setExcludeDirs (c : Config) (s : gset string) : Config :=
  mkConfig (Dir c) (Verbose c) (NoBar c) (ShowSize c) (SizeOnly c) (IncludeHidden c)
           (Human c) (MinSize c) (MaxSize c) (Exclude c) s (BySize c).
Definition setBySize (c : Config) : Config :=
  mkConfig (Dir c) (Verbose c) (NoBar c) (ShowSize c) (SizeOnly c) (IncludeHidden c)
           (Human c) (MinSize c) (MaxSize c) (Exclude c) (ExcludeDirs c) true.

(** The configuration [parseArgs] starts from. *)
Definition defaultConfig : Config :=
  mkConfig "." false false false false false false 0 0 ∅ ∅ false.

(** ** parseArgs *)

(** The errors [parseArgs] builds with [fmt.Errorf]. *)
Inductive argError :=
| MissingValue (flag : string)
| InvalidValue (flag : string) (given : string).

(** The three ways [parseArgs] returns: a configuration, [(nil, nil)] after
    printing the help text, or an error. *)
Inductive parsed :=
| PConfig (c : Config)
| PHelp
| PError (e : argError).

Definition addExcludes (c : Config) (val : string) : Config :=
  setExclude c
    (fold_left (fun acc ext => {[ TrimPrefix (TrimSpace ext) "." ]} ∪ acc)
               (Split "," val) (Exclude c)).

Definition addExcludeDirs (c : Config) (val : string) : Config :=
  setExcludeDirs c
    (fold_left (fun acc dir => {[ TrimSpace dir ]} ∪ acc)
               (Split "," val) (ExcludeDirs c)).

(** The flags that the second [switch] of [parseArgs] names. *)
Definition knownFlags : list string :=
  [ "--verbose"; "--nobar"; "--size"; "--sizeonly"; "--include-hidden";
    "--human"; "--minsize"; "--maxsize"; "--exclude"; "--excludedir";
    "--bysize"; "--help" ]%string.

Definition isKnownFlag (arg : string) : bool :=
  existsb (String.eqb arg) knownFlags.

(** The flags that take a value. *)
Definition valueFlags : list string :=
  [ "--exclude"; "--excludedir"; "--minsize"; "--maxsize" ]%string.

Definition isValueFlag (key : string) : bool :=
  existsb (String.eqb key) valueFlags.

(** The loop [for i := 1; i < len(args); i++] over the tokens that remain;
    a flag that takes a value consumes the token after it. *)
Fixpoint parseLoop (cfg : Config) (rest : list string) : parsed :=
  match rest with
  | [] => PConfig cfg
  | arg :: rest' =>
      if Contains arg "=" then
        let '(key, val) := cutAt "=" arg in
        if String.eqb key "--exclude" then parseLoop (addExcludes cfg val) rest'
        else if String.eqb key "--excludedir" then parseLoop (addExcludeDirs cfg val) rest'
        else if String.eqb key "--minsize" then
          match ParseInt val with
          | Some n => parseLoop (setMinSize cfg n) rest'
          | None => PError (InvalidValue "--minsize" val)
          end
        else if String.eqb key "--maxsize" then
          match ParseInt val with
          | Some n => parseLoop (setMaxSize cfg n) rest'
          | None => PError (InvalidValue "--maxsize" val)
          end
        else parseLoop cfg rest'
      else if String.eqb arg "--verbose" then parseLoop (setVerbose cfg) rest'
      else if String.eqb arg "--nobar" then parseLoop (setNoBar cfg) rest'
      else if String.eqb arg "--size" then parseLoop (setShowSize cfg) rest'
      else if String.eqb arg "--sizeonly" then parseLoop (setSizeOnly cfg) rest'
      else if String.eqb arg "--include-hidden" then parseLoop (setIncludeHidden cfg) rest'
      else if String.eqb arg "--human" then parseLoop (setHuman cfg) rest'
      else if String.eqb arg "--minsize" then
        match rest' with
        | [] => PError (MissingValue "--minsize")
        | v :: rest'' =>
            match ParseInt v with
            | Some n => parseLoop (setMinSize cfg n) rest''
            | None => PError (InvalidValue "--minsize" v)
            end
        end
      else if String.eqb arg "--maxsize" then
        match rest' with
        | [] => PError (MissingValue "--maxsize")
        | v :: rest'' =>
            match ParseInt v with
            | Some n => parseLoop (setMaxSize cfg n) rest''
            | None => PError (InvalidValue "--maxsize" v)
            end
        end
      else if String.eqb arg "--exclude" then
        match rest' with
        | [] => PError (MissingValue "--exclude")
        | v :: rest'' => parseLoop (addExcludes cfg v) rest''
        end
      else if String.eqb arg "--excludedir" then
        match rest' with
        | [] => PError (MissingValue "--excludedir")
        | v :: rest'' => parseLoop (addExcludeDirs cfg v) rest''
        end
      else if String.eqb arg "--bysize" then parseLoop (setBySize cfg) rest'
      else if String.eqb arg "--help" then PHelp
      else parseLoop (setDir cfg arg) rest'
  end.

(** [parseArgs(os.Args)]: the loop starts after the program name. *)
Definition parseArgs (args : list string) : parsed :=
  parseLoop defaultConfig (tail args).

(** ** float64

    IEEE-754 binary64 with round-to-nearest-even, as [SpecFloat] defines it.
    Every operation is rounded on its own (no fused multiply-add), which is
    what the Go compiler emits for amd64 at its default level. *)

Definition float64 : Set := spec_float.

(** [float64(n)] for an integer [n]. *)
Definition f64_of_int (n : Z) : float64 := binary_normalize 53 1024 n 0 false.

Definition f64_div : float64 -> float64 -> float64 := SFdiv 53 1024.
Definition f64_mul : float64 -> float64 -> float64 := SFmul 53 1024.
Definition f64_add : float64 -> float64 -> float64 := SFadd 53 1024.

Definition f64_zero : float64 := S754_zero false.

(** The constants [0.01], [0.5] and [100] of the source, as float64. *)
Definition f64_0_01 : float64 := S754_finite false 5764607523034235 (-59).
Definition f64_0_5 : float64 := S754_finite false 4503599627370496 (-53).
Definition f64_100 : float64 := f64_of_int 100.

(** [int(x)] for a float64 [x]: truncation toward zero.  For a value outside
    int64 (and for NaN) Go leaves the result to the implementation; amd64
    yields the smallest int64. *)
Definition int_of_f64 (x : float64) : Z :=
  match x with
  | S754_zero _ => 0
  | S754_finite s m e =>
      let a := if 0 <=? e then Zpos m * 2 ^ e else Zpos m / 2 ^ (- e) in
      let v := if s then - a else a in
      if (- 2^63 <=? v) && (v <? 2^63) then v else - 2^63
  | _ => - 2^63
  end.

(** ** Formatting ([fmt]) *)

(** [%d] *)
Definition showZ (n : Z) : string := NilZero.string_of_int (Z.to_int n).

Definition digitChar (d : Z) : ascii := ascii_of_nat (48 + Z.to_nat d).

(** The last [k] decimal digits of [n], most significant first. *)
Fixpoint fixedDigits (k : nat) (n : Z) : string :=
  match k with
  | O => EmptyString
  | S k' => fixedDigits k' (n / 10) +:+ String (digitChar (n mod 10)) EmptyString
  end.

(** [N / D] rounded to the nearest integer, a tie to the even one
    ([0 <= N], [0 < D]). *)
Definition rne (N D : Z) : Z :=
  let q := N / D in
  let r := N mod D in
  if (D <? 2 * r) || ((2 * r =? D) && Z.odd q) then q + 1 else q.

(** The integer [x * 10^prec], correctly rounded, for a finite [x] given by
    its mantissa and exponent. *)
Definition scaledDecimal (prec : nat) (m : positive) (e : Z) : Z :=
  if 0 <=? e then Zpos m * 2 ^ e * 10 ^ Z.of_nat prec
  else rne (Zpos m * 10 ^ Z.of_nat prec) (2 ^ (- e)).

(** [%.<prec>f]: the exact binary value rounded to [prec] decimals, as
    [strconv.FormatFloat(x, 'f', prec, 64)] prints it. *)
Definition fmtFixed (prec : nat) (x : float64) : string :=
  let frac (n : Z) :=
    match prec with
    | O => EmptyString
    | _ => "." +:+ fixedDigits prec n
    end in
  match x with
  | S754_nan => "NaN"
  | S754_infinity s => if s then "-Inf" else "+Inf"
  | S754_zero s => (if s then "-" else "") +:+ "0" +:+ frac 0
  | S754_finite s m e =>
      let n := scaledDecimal prec m e in
      (if s then "-" else "") +:+ showZ (n / 10 ^ Z.of_nat prec) +:+ frac n
  end.

Fixpoint spaces (n : nat) : string :=
  match n with
  | O => EmptyString
  | S n' => String " " (spaces n')
  end.

(** The size in bytes of the UTF-8 sequence that starts with [c], followed
    by [rest]; an invalid or cut-off sequence counts one byte, as in
    [utf8.RuneCountInString]. *)
Definition runeSize (c : Z) (rest : list Z) : nat :=
  let cont (b : Z) := (128 <=? b) && (b <=? 191) in
  let check (size : nat) (lo hi : Z) :=
    match size, rest with
    | 2%nat, b1 :: _ => if (lo <=? b1) && (b1 <=? hi) then 2%nat else 1%nat
    | 3%nat, b1 :: b2 :: _ =>
        if (lo <=? b1) && (b1 <=? hi) && cont b2 then 3%nat else 1%nat
    | 4%nat, b1 :: b2 :: b3 :: _ =>
        if (lo <=? b1) && (b1 <=? hi) && cont b2 && cont b3 then 4%nat else 1%nat
    | _, _ => 1%nat
    end in
  if c <? 194 then 1%nat
  else if c <=? 223 then check 2%nat 128 191
  else if c =? 224 then check 3%nat 160 191
  else if c =? 237 then check 3%nat 128 159
  else if c <=? 239 then check 3%nat 128 191
  else if c =? 240 then check 4%nat 144 191
  else if c <=? 243 then check 4%nat 128 191
  else if c =? 244 then check 4%nat 128 143
  else 1%nat.

Fixpoint runeCountBytes (fuel : nat) (bs : list Z) : nat :=
  match fuel, bs with
  | S fuel', c :: rest => S (runeCountBytes fuel' (drop (runeSize c rest - 1) rest))
  | _, _ => O
  end.

(** [utf8.RuneCountInString] *)
Definition runeCount (s : string) : nat :=
  let bs := map (fun c => Z.of_nat (nat_of_ascii c)) (list_ascii_of_string s) in
  runeCountBytes (length bs) bs.

(** [%<w>s] and [%-<w>s]: padding counts runes. *)
Definition padLeft (w : nat) (s : string) : string := spaces (w - runeCount s) +:+ s.
Definition padRight (w : nat) (s : string) : string := s +:+ spaces (w - runeCount s).

(** [strings.Repeat]: it panics on a negative count ([None]). *)
Definition Repeat (s : string) (n : Z) : option string :=
  if n <? 0 then None
  else Some (Nat.iter (Z.to_nat n) (String.append s) EmptyString).

(** ** humanReadableSize *)

Definition KB : Z := 1024.
Definition MB : Z := 1024 * KB.
Definition GB : Z := 1024 * MB.
Definition TB : Z := 1024 * GB.

Definition humanReadableSize (bytes : Z) : string :=
  if TB <=? bytes then fmtFixed 2 (f64_div (f64_of_int bytes) (f64_of_int TB)) +:+ " TB"
  else if GB <=? bytes then fmtFixed 2 (f64_div (f64_of_int bytes) (f64_of_int GB)) +:+ " GB"
  else if MB <=? bytes then fmtFixed 2 (f64_div (f64_of_int bytes) (f64_of_int MB)) +:+ " MB"
  else if KB <=? bytes then fmtFixed 2 (f64_div (f64_of_int bytes) (f64_of_int KB)) +:+ " KB"
  else showZ bytes +:+ " B".

(** ** safeDivF *)

Definition safeDivF (a b : float64) : float64 :=
  if SFeqb b f64_zero then f64_zero else f64_div a b.

(** ** The file system, as [filepath.WalkDir] sees it *)

Inductive oserror := ErrNotExist | ErrPermission | ErrIO.

(** What [d.Info()] returns for a directory entry. *)
Inductive infoResult :=
| InfoOk (size : Z)
| InfoErr (e : oserror).

(** A node of the tree: a non-directory entry with the result of its
    [Info()], or a directory with the entries [os.ReadDir] returns for it
    (sorted by file name) and the error [os.ReadDir] reports beside them. *)
#[local] Unset Elimination Schemes.
Inductive fsnode :=
| File (name : string) (info : infoResult)
| Folder (name : string) (entries : list fsnode) (rderr : option oserror).
#[local] Set Elimination Schemes.

Definition nodeName (d : fsnode) : string :=
  match d with
  | File n _ => n
  | Folder n _ _ => n
  end.

(** [os.Lstat] of a root path. *)
Inductive lstatResult :=
| LstatOk (d : fsnode)
| LstatErr (e : oserror).

Definition FileSystem : Type := string -> lstatResult.

(** A path is kept as the list of its elements, the root first:
    [filepath.Join] and its cleaning of the joined text are not modelled. *)
Definition path : Type := list string.

(** What a [fs.WalkDirFunc] returns. *)
Inductive walkres :=
| WNil
| WSkipDir
| WSkipAll
| WErr (e : oserror).

(** The loop over the entries of a directory in [filepath.walkDir]. *)
Fixpoint walkList {St : Type} (walk : path -> fsnode -> St -> St * walkres)
    (p : path) (ds : list fsnode) (s : St) : St * walkres :=
  match ds with
  | [] => (s, WNil)
  | d1 :: ds' =>
      let '(s', r) := walk (p ++ [nodeName d1]) d1 s in
      match r with
      | WNil => walkList walk p ds' s'
      | WSkipDir => (s', WNil)
      | _ => (s', r)
      end
  end.

(** [filepath.walkDir]: the function is called on the node; for a directory
    that is not skipped it is called again when [os.ReadDir] reports an
    error, and then the entries are walked in order. *)
Fixpoint walkNode {St : Type}
    (fn : path -> option fsnode -> option oserror -> St -> St * walkres)
    (p : path) (d : fsnode) (st : St) {struct d} : St * walkres :=
  let '(st1, r1) := fn p (Some d) None st in
  match d with
  | File _ _ => (st1, r1)
  | Folder _ entries rderr =>
      match r1 with
      | WNil =>
          let '(st2, r2) :=
            match rderr with
            | Some e => fn p (Some d) (Some e) st1
            | None => (st1, WNil)
            end in
          match r2 with
          | WNil => walkList (walkNode fn) p entries st2
          | WSkipDir => (st2, WNil)
          | _ => (st2, r2)
          end
      | WSkipDir => (st1, WNil)
      | _ => (st1, r1)
      end
  end.

(** [filepath.WalkDir]: when [os.Lstat] of the root fails the function is
    called once, with a nil entry and that error. *)
Definition WalkDir {St : Type} (fs : FileSystem) (root : string)
    (fn : path -> option fsnode -> option oserror -> St -> St * walkres)
    (st : St) : St * option oserror :=
  let '(st', r) :=
    match fs root with
    | LstatErr e => fn [root] None (Some e) st
    | LstatOk d => walkNode fn [root] d st
    end in
  match r with
  | WErr e => (st', Some e)
  | _ => (st', None)
  end.

(** ** walkDir *)

(** A line on the error stream. *)
Inductive logLine :=
| LogSkipping (p : path) (e : oserror)
| LogWalkError (e : oserror)
| LogArgError (e : argError)
| LogPanic.

(** The variables the closure of [walkDir] updates, and what it has written
    to the error stream. *)
Record walkState := mkWalkState {
  counts : gmap string Z;
  sizeCounts : gmap string Z;
  total : Z;
  totalBytes : Z;
  warnings : list logLine
}.

Definition initState : walkState := mkWalkState ∅ ∅ 0 0 [].

Definition logSkip (st : walkState) (p : path) (e : oserror) : walkState :=
  mkWalkState (counts st) (sizeCounts st) (total st) (totalBytes st)
              (warnings st ++ [LogSkipping p e]).

(** The extension key of a file name. *)
Definition extKey (name : string) : string :=
  let ext := Ext name in
  if String.eqb ext "" then "[noext]" else TrimPrefix ext ".".

(** The four updates at the end of the closure. *)
Definition account (st : walkState) (ext : string) (size : Z) : walkState :=
  mkWalkState
    (<[ ext := wrap64 (default 0 (counts st !! ext) + 1) ]> (counts st))
    (<[ ext := wrap64 (default 0 (sizeCounts st !! ext) + size) ]> (sizeCounts st))
    (wrap64 (total st + 1))
    (wrap64 (totalBytes st + size))
    (warnings st).

(** The closure passed to [filepath.WalkDir]. *)
Definition visit (cfg : Config) (p : path) (d : option fsnode)
    (err : option oserror) (st : walkState) : walkState * walkres :=
  match err with
  | Some e => (logSkip st p e, WNil)
  | None =>
      match d with
      | None => (st, WNil) (* WalkDir passes a nil entry only with an error *)
      | Some (Folder name _ _) =>
          if decide (name ∈ ExcludeDirs cfg) then (st, WSkipDir) else (st, WNil)
      | Some (File name info) =>
          if negb (IncludeHidden cfg) && HasPrefix name "." then (st, WNil)
          else
            match info with
            | InfoErr e => (logSkip st p e, WNil)
            | InfoOk size =>
                if ((0 <? MinSize cfg) && (size <? MinSize cfg))
                   || ((0 <? MaxSize cfg) && (MaxSize cfg <? size))
                then (st, WNil)
                else
                  let ext := extKey name in
                  if decide (ext ∈ Exclude cfg) then (st, WNil)
                  else (account st ext size, WNil)
            end
      end
  end.

Definition walkDir (cfg : Config) (fs : FileSystem) : walkState * option oserror :=
  WalkDir fs (Dir cfg) (visit cfg) initState.

(** ** aggregateStats *)

(** The order in which [for k, v := range m] yields the entries of a map:
    some enumeration of the entries, not fixed by the language. *)
Record RangeOrder := mkRangeOrder {
  rangeOf : gmap string Z -> list (string * Z);
  rangeOf_perm : forall m, rangeOf m ≡ₚ map_to_list m
}.

(** What [sort.Slice] requires of its [less]. *)
Definition strictWeak {A : Type} (less : A -> A -> bool) : Prop :=
  (forall a, less a a = false) /\
  (forall a b c, less a b = true -> less b c = true -> less a c = true) /\
  (forall a b c, less a b = false -> less b c = false -> less a c = false).

(** [sort.Slice]: it reorders the slice so that no element is [less] than
    one before it; it is not stable, and nothing more is promised. *)
Record SliceSorter := mkSliceSorter {
  sortSlice : (FileStat -> FileStat -> bool) -> list FileStat -> list FileStat;
  sortSlice_perm : forall less l, sortSlice less l ≡ₚ l;
  sortSlice_sorted : forall less l, strictWeak less ->
    StronglySorted (fun a b => less b a = false) (sortSlice less l)
}.

(** Whether a category is folded into the catch-all bucket. *)
Definition collapsed (verbose : bool) (v tot : Z) : bool :=
  negb verbose
  && SFltb (safeDivF (f64_of_int v) (f64_of_int tot)) f64_0_01.

(** One of the two [range] loops: the entries kept and the sum folded. *)
Definition aggLoop (verbose : bool) (tot : Z) (mk : string -> Z -> FileStat)
    (kvs : list (string * Z)) : list FileStat * Z :=
  fold_left
    (fun (acc : list FileStat * Z) (kv : string * Z) =>
       if collapsed verbose (snd kv) tot
       then (fst acc, wrap64 (snd acc + snd kv))
       else (fst acc ++ [mk (fst kv) (snd kv)], snd acc))
    kvs ([], 0).

Definition bySizeEntry (k : string) (v : Z) : FileStat := mkFileStat k 0 v.
Definition byCountEntry (k : string) (v : Z) : FileStat := mkFileStat k v 0.

Definition aggregateStats (R : RangeOrder) (S : SliceSorter) (cfg : Config)
    (counts sizeCounts : gmap string Z) (total totalBytes : Z) : list FileStat :=
  if BySize cfg then
    let '(stats, other) :=
      aggLoop (Verbose cfg) totalBytes bySizeEntry (rangeOf R sizeCounts) in
    let stats := if 0 <? other then stats ++ [bySizeEntry "other" other] else stats in
    sortSlice S (fun a b => Size b <? Size a) stats
  else
    let '(stats, other) :=
      aggLoop (Verbose cfg) total byCountEntry (rangeOf R counts) in
    let stats := if 0 <? other then stats ++ [byCountEntry "other" other] else stats in
    sortSlice S (fun a b => Count b <? Count a) stats.

(** ** printStats *)

Definition barWidth : Z := 40.

(** The bytes of the string literal that fills a cell of the bar. *)
Definition barCell : string :=
  str (map ascii_of_nat [195; 162; 226; 128; 147; 203; 134]%nat).

(** The share of an entry in the chosen metric, times 100. *)
Definition rawPercent (cfg : Config) (s : FileStat) (total totalBytes : Z) : float64 :=
  if BySize cfg
  then f64_mul (safeDivF (f64_of_int (Size s)) (f64_of_int totalBytes)) f64_100
  else f64_mul (safeDivF (f64_of_int (Count s)) (f64_of_int total)) f64_100.

(** [float64(int(percent + 0.5))] *)
Definition humanRound (percent : float64) : float64 :=
  f64_of_int (int_of_f64 (f64_add percent f64_0_5)).

(** The value of [percent] when the line is printed. *)
Definition entryPercent (cfg : Config) (s : FileStat) (total totalBytes : Z) : float64 :=
  let percent := rawPercent cfg s total totalBytes in
  if Human cfg then humanRound percent else percent.

Definition barLenOf (percent : float64) : Z :=
  int_of_f64 (f64_mul (f64_div percent f64_100) (f64_of_int barWidth)).

(** The line printed for one entry, without its newline; [None] when
    [strings.Repeat] panics. *)
Definition entryLine (cfg : Config) (s : FileStat) (total totalBytes : Z) : option string :=
  let percent := entryPercent cfg s total totalBytes in
  if NoBar cfg then
    Some (padRight 10 (fsExt s) +:+ " " +:+ padLeft 5 (fmtFixed 0 percent) +:+ "%")
  else
    let barLen := barLenOf percent in
    match Repeat barCell barLen, Repeat "-" (barWidth - barLen) with
    | Some filled, Some rest =>
        Some (padRight 10 (fsExt s) +:+ " |" +:+ filled +:+ rest +:+ "| "
              +:+ padLeft 5 (fmtFixed 2 percent) +:+ "%")
    | _, _ => None
    end.

(** The loop of [printStats]: the lines printed, and whether it ran to its
    end ([false]: a panic stopped it). *)
Fixpoint printEntries (cfg : Config) (stats : list FileStat) (total totalBytes : Z)
  : list string * bool :=
  match stats with
  | [] => ([], true)
  | s :: rest =>
      match entryLine cfg s total totalBytes with
      | None => ([], false)
      | Some line =>
          let '(ls, ok) := printEntries cfg rest total totalBytes in
          (line :: ls, ok)
      end
  end.

Definition printStats (cfg : Config) (stats : list FileStat) (total totalBytes : Z)
  : list string * bool :=
  let header := if NoBar cfg then [] else ["File type breakdown:"%string] in
  let '(ls, ok) := printEntries cfg stats total totalBytes in
  (header ++ ls, ok).

(** ** main *)

Definition helpString : string :=
"
Usage: file-stats [options] [directory]

Options:
    --verbose           Show all file types, including those <1%.
    --nobar             Suppress bar chart output, print percentages only.
    --size              Print total directory size.
    --sizeonly          Only print directory size and exit.
    --include-hidden    Include hidden files in stats.
    --human             Round percentages to whole numbers.
    --minsize <bytes>   Only include files >= this size.
    --maxsize <bytes>   Only include files <= this size.
    --exclude <exts>    Comma-separated list of extensions to exclude.
    --excludedir <dirs> Comma-separated list of directory names to exclude.
    --bysize            Sort results by file size instead of count.
    --help              Show this help.
".

(** What a run leaves behind: the lines on standard output, the lines on
    the error stream, and the exit status. *)
Record outcome := mkOutcome {
  stdout : list string;
  stderr : list logLine;
  exitCode : Z
}.

Definition noMatchMessage : string := "No files matched criteria.".

Definition sizeLine (cfg : Config) (totalBytes : Z) : list string :=
  if ShowSize cfg then ["Directory size: " +:+ humanReadableSize totalBytes] else [].

(** [main] from the call of [walkDir] on. *)
Definition runConfig (R : RangeOrder) (S : SliceSorter) (cfg : Config)
    (fs : FileSystem) : outcome :=
  let '(st, err) := walkDir cfg fs in
  match err with
  | Some e => mkOutcome [] (warnings st ++ [LogWalkError e]) 1
  | None =>
      if SizeOnly cfg then
        mkOutcome [humanReadableSize (totalBytes st)] (warnings st) 0
      else if (total st =? 0) && (totalBytes st =? 0) then
        mkOutcome (sizeLine cfg (totalBytes st) ++ [noMatchMessage]) (warnings st) 0
      else
        let stats := aggregateStats R S cfg (counts st) (sizeCounts st)
                                    (total st) (totalBytes st) in
        let '(ls, ok) := printStats cfg stats (total st) (totalBytes st) in
        if ok then mkOutcome (sizeLine cfg (totalBytes st) ++ ls) (warnings st) 0
        else mkOutcome (sizeLine cfg (totalBytes st) ++ ls) (warnings st ++ [LogPanic]) 2
  end.

Definition main (R : RangeOrder) (S : SliceSorter) (args : list string)
    (fs : FileSystem) : outcome :=
  match parseArgs args with
  | PError e => mkOutcome [] [LogArgError e] 1
  | PHelp => mkOutcome [helpString] [] 0
  | PConfig cfg => runConfig R S cfg fs
  end.

(** The list of entries a scan hands to [printStats]. *)
Definition scanStats (R : RangeOrder) (S : SliceSorter) (cfg : Config)
    (fs : FileSystem) : list FileStat :=
  let st := fst (walkDir cfg fs) in
  aggregateStats R S cfg (counts st) (sizeCounts st) (total st) (totalBytes st).

(** ** Specification-level notions used in the statements *)

(** The filter policy in closed form. *)
Definition shouldDescend (cfg : Config) (name : string) : bool :=
  negb (bool_decide (name ∈ ExcludeDirs cfg)).

Definition shouldCount (cfg : Config) (name : string) (size : Z) : bool :=
  negb (negb (IncludeHidden cfg) && HasPrefix name ".")
  && negb (((0 <? MinSize cfg) && (size <? MinSize cfg))
           || ((0 <? MaxSize cfg) && (MaxSize cfg <? size)))
  && negb (bool_decide (extKey name ∈ Exclude cfg)).

(** The files of a tree that match the filter criteria, in walk order, each
    with its extension key and size. *)
Fixpoint countedFiles (cfg : Config) (d : fsnode) : list (string * Z) :=
  match d with
  | File name (InfoOk size) =>
      if shouldCount cfg name size then [(extKey name, size)] else []
  | File _ (InfoErr _) => []
  | Folder name entries _ =>
      if shouldDescend cfg name then flat_map (countedFiles cfg) entries else []
  end.

(** The accumulators after the files of a list have been accounted. *)
Definition tally (st : walkState) (l : list (string * Z)) : walkState :=
  fold_left (fun s kv => account s (fst kv) (snd kv)) l st.

Definition sumZ (l : list Z) : Z := fold_right Z.add 0 l.

(** The sum of the values of an accumulator map. *)
Definition mapTotal (m : gmap string Z) : Z := sumZ (map snd (map_to_list m)).

(** The metric the entries are ordered by. *)
Definition metric (cfg : Config) (s : FileStat) : Z :=
  if BySize cfg then Size s else Count s.

(** The accumulator and the grand total that [aggregateStats] reads in the
    mode the configuration selects. *)
Definition chosenMap (cfg : Config) (counts sizeCounts : gmap string Z) : gmap string Z :=
  if BySize cfg then sizeCounts else counts.
Definition chosenTotal (cfg : Config) (total totalBytes : Z) : Z :=
  if BySize cfg then totalBytes else total.
Definition chosenEntry (cfg : Config) : string -> Z -> FileStat :=
  if BySize cfg then bySizeEntry else byCountEntry.

(** The insertion sort that [sort.Slice] runs on a slice of at most twelve
    elements: each element in turn moves left past the elements it is [less]
    than.  The sorted prefix is kept reversed. *)
Fixpoint sinkLeft {A : Type} (less : A -> A -> bool) (x : A) (rev_prefix : list A) : list A :=
  match rev_prefix with
  | [] => [x]
  | y :: ys => if less x y then y :: sinkLeft less x ys else x :: y :: ys
  end.

Definition insertionSort {A : Type} (less : A -> A -> bool) (l : list A) : list A :=
  rev (fold_left (fun rp x => sinkLeft less x rp) l []).

(** * Proofs *)

(** ** Sorting *)

Lemma StronglySorted_rev {A : Type} (R : A -> A -> Prop) (l : list A) :
  StronglySorted R l -> StronglySorted (fun a b => R b a) (rev l).
Proof.
  induction 1 as [|x xs Hxs IH Hx]; simpl; [constructor|].
  apply StronglySorted_app_2; [|done|repeat constructor].
  intros a b Ha Hb. apply list_elem_of_singleton in Hb as ->.
  apply list_elem_of_In, in_rev, list_elem_of_In in Ha.
  rewrite Forall_forall in Hx. by apply Hx.
Qed.

Section InsertionSort.
Context {A : Type} (less : A -> A -> bool).

Lemma sinkLeft_perm (x : A) (rp : list A) : sinkLeft less x rp ≡ₚ x :: rp.
Proof.
  induction rp as [|y ys IH]; simpl; [done|].
  destruct (less x y); [|done].
  rewrite IH. apply Permutation_swap.
Qed.

Lemma insertionSort_perm (l : list A) : insertionSort less l ≡ₚ l.
Proof.
  unfold insertionSort.
  assert (H : forall rp, fold_left (fun rp x => sinkLeft less x rp) l rp ≡ₚ rev l ++ rp).
  { induction l as [|x xs IH]; intros rp; simpl; [done|].
    rewrite IH, sinkLeft_perm. simpl. by rewrite <- app_assoc. }
  rewrite <- (Permutation_rev (fold_left _ l [])), H, app_nil_r.
  symmetry. apply Permutation_rev.
Qed.

Hypothesis Hsw : strictWeak less.

Lemma less_asym (a b : A) : less a b = true -> less b a = false.
Proof.
  destruct Hsw as (Hirr & Htr & _). intros Hab.
  destruct (less b a) eqn:Hba; [|done].
  by rewrite <- (Hirr a), (Htr a b a).
Qed.

Lemma sinkLeft_sorted (x : A) (rp : list A) :
  StronglySorted (fun a b => less a b = false) rp ->
  StronglySorted (fun a b => less a b = false) (sinkLeft less x rp).
Proof.
  destruct Hsw as (Hirr & Htr & Hneg).
  induction rp as [|y ys IH]; simpl; intros Hs.
  - repeat constructor.
  - apply StronglySorted_inv in Hs as [Hys Hy].
    destruct (less x y) eqn:Hxy.
    + constructor; [by apply IH|].
      rewrite sinkLeft_perm. constructor; [by apply less_asym|done].
    + constructor; [by constructor|].
      constructor; [done|].
      eapply Forall_impl; [exact Hy|]. intros z Hz. by eapply Hneg.
Qed.

Lemma insertionSort_sorted (l : list A) :
  StronglySorted (fun a b => less b a = false) (insertionSort less l).
Proof.
  unfold insertionSort.
  assert (H : forall rp, StronglySorted (fun a b => less a b = false) rp ->
              StronglySorted (fun a b => less a b = false)
                (fold_left (fun rp x => sinkLeft less x rp) l rp)).
  { induction l as [|x xs IH]; intros rp Hrp; simpl; [done|].
    by apply IH, sinkLeft_sorted. }
  apply (StronglySorted_rev (fun a b => less a b = false)), H. constructor.
Qed.

End InsertionSort.

(** The insertion sort satisfies the contract of [sort.Slice]. *)
Definition insertionSorter : SliceSorter :=
  mkSliceSorter insertionSort insertionSort_perm
    (fun less l H => insertionSort_sorted less H l).

(** Two enumerations of a map: the one of [map_to_list], and its reverse. *)
Definition forwardOrder : RangeOrder :=
  mkRangeOrder map_to_list (fun m => reflexivity (map_to_list m)).

Lemma reverse_map_to_list_perm (m : gmap string Z) :
  reverse (map_to_list m) ≡ₚ map_to_list m.
Proof. apply reverse_Permutation. Qed.

Definition backwardOrder : RangeOrder :=
  mkRangeOrder (fun m => reverse (map_to_list m)) reverse_map_to_list_perm.

(** ** The walk *)

(** Induction on a tree, with the hypothesis for every entry of a directory. *)
Fixpoint fsnode_tree_ind (P : fsnode -> Prop)
    (Hfile : forall name info, P (File name info))
    (Hfolder : forall name entries rderr,
        Forall P entries -> P (Folder name entries rderr))
    (d : fsnode) : P d :=
  match d with
  | File n i => Hfile n i
  | Folder n es r =>
      Hfolder n es r
        ((fix all (l : list fsnode) : Forall P l :=
            match l with
            | [] => List.Forall_nil P
            | x :: xs => @List.Forall_cons _ P x xs (fsnode_tree_ind P Hfile Hfolder x) (all xs)
            end) es)
  end.

(** The accumulators of a state, without the error stream. *)
Definition dataOf (st : walkState) : gmap string Z * gmap string Z * Z * Z :=
  (counts st, sizeCounts st, total st, totalBytes st).

Lemma account_data (st1 st2 : walkState) (ext : string) (size : Z) :
  dataOf st1 = dataOf st2 -> dataOf (account st1 ext size) = dataOf (account st2 ext size).
Proof. unfold dataOf, account. simpl. intros [= -> -> -> ->]. done. Qed.

Lemma tally_data (l : list (string * Z)) (st1 st2 : walkState) :
  dataOf st1 = dataOf st2 -> dataOf (tally st1 l) = dataOf (tally st2 l).
Proof.
  revert st1 st2. induction l as [|kv l IH]; intros st1 st2 H; simpl; [done|].
  by apply IH, account_data.
Qed.

Lemma tally_app (l1 l2 : list (string * Z)) (st : walkState) :
  tally st (l1 ++ l2) = tally (tally st l1) l2.
Proof. apply fold_left_app. Qed.

(** What the closure does on an entry, in terms of the filter policy. *)
Lemma visit_file (cfg : Config) (p : path) (name : string) (size : Z) (st : walkState) :
  visit cfg p (Some (File name (InfoOk size))) None st =
  (if shouldCount cfg name size then account st (extKey name) size else st, WNil).
Proof.
  unfold visit, shouldCount.
  destruct (negb (IncludeHidden cfg) && HasPrefix name "."); simpl; [done|].
  destruct ((0 <? MinSize cfg) && (size <? MinSize cfg)
            || (0 <? MaxSize cfg) && (MaxSize cfg <? size)); simpl; [done|].
  destruct (decide (extKey name ∈ Exclude cfg)) as [Hin|Hin].
  - by rewrite bool_decide_eq_true_2.
  - by rewrite bool_decide_eq_false_2.
Qed.

Lemma visit_file_info_err (cfg : Config) (p : path) (name : string) (e : oserror)
    (st : walkState) :
  exists st', visit cfg p (Some (File name (InfoErr e))) None st = (st', WNil)
              /\ dataOf st' = dataOf st.
Proof.
  unfold visit.
  destruct (negb (IncludeHidden cfg) && HasPrefix name "."); eauto.
Qed.

Lemma visit_folder (cfg : Config) (p : path) (name : string) (es : list fsnode)
    (r : option oserror) (st : walkState) :
  visit cfg p (Some (Folder name es r)) None st =
  (st, if shouldDescend cfg name then WNil else WSkipDir).
Proof.
  unfold visit, shouldDescend.
  destruct (decide (name ∈ ExcludeDirs cfg)) as [Hin|Hin].
  - by rewrite bool_decide_eq_true_2.
  - by rewrite bool_decide_eq_false_2.
Qed.

Lemma visit_error (cfg : Config) (p : path) (d : option fsnode) (e : oserror)
    (st : walkState) :
  visit cfg p d (Some e) st = (logSkip st p e, WNil).
Proof. done. Qed.

(** The walk of a list of entries, given the statement for each entry. *)
Lemma walkList_counted (cfg : Config) (es : list fsnode) :
  Forall (fun d => forall p st,
            snd (walkNode (visit cfg) p d st) = WNil /\
            dataOf (fst (walkNode (visit cfg) p d st))
            = dataOf (tally st (countedFiles cfg d))) es ->
  forall p st,
    snd (walkList (walkNode (visit cfg)) p es st) = WNil /\
    dataOf (fst (walkList (walkNode (visit cfg)) p es st))
    = dataOf (tally st (flat_map (countedFiles cfg) es)).
Proof.
  induction 1 as [|d es Hd Hes IH]; intros p st; simpl; [done|].
  destruct (Hd (p ++ [nodeName d]) st) as [Hr Hdata].
  destruct (walkNode (visit cfg) (p ++ [nodeName d]) d st) as [s' r].
  simpl in Hr, Hdata. subst r.
  destruct (IH p s') as [Hr' Hdata']. split; [done|].
  rewrite Hdata', tally_app. by apply tally_data.
Qed.

(** The walk of a tree never stops with an error, and it accounts exactly
    the files that match the filter criteria. *)
Lemma walkNode_counted (cfg : Config) (d : fsnode) (p : path) (st : walkState) :
  snd (walkNode (visit cfg) p d st) = WNil /\
  dataOf (fst (walkNode (visit cfg) p d st)) = dataOf (tally st (countedFiles cfg d)).
Proof.
  revert p st. induction d as [name info|name es rderr IH] using fsnode_tree_ind; intros p st.
  - destruct info as [size|e]; cbn [walkNode countedFiles].
    + rewrite visit_file. by destruct (shouldCount cfg name size).
    + destruct (visit_file_info_err cfg p name e st) as (st' & -> & Hd). done.
  - cbn [walkNode countedFiles]. rewrite visit_folder.
    destruct (shouldDescend cfg name); [|done].
    destruct rderr as [e|].
    + rewrite visit_error.
      destruct (walkList_counted cfg es IH p (logSkip st p e)) as [Hr Hdata].
      split; [done|]. rewrite Hdata. by apply tally_data.
    + apply (walkList_counted cfg es IH).
Qed.

Lemma walkDir_no_error (cfg : Config) (fs : FileSystem) :
  snd (walkDir cfg fs) = None.
Proof.
  unfold walkDir, WalkDir.
  destruct (fs (Dir cfg)) as [d|e].
  - pose proof (walkNode_counted cfg d [Dir cfg] initState) as [Hr _].
    destruct (walkNode (visit cfg) [Dir cfg] d initState) as [st' r].
    simpl in Hr. by subst r.
  - by rewrite visit_error.
Qed.

Lemma walkDir_counted (cfg : Config) (fs : FileSystem) (d : fsnode) :
  fs (Dir cfg) = LstatOk d ->
  dataOf (fst (walkDir cfg fs)) = dataOf (tally initState (countedFiles cfg d)).
Proof.
  intros Hfs. unfold walkDir, WalkDir. rewrite Hfs.
  pose proof (walkNode_counted cfg d [Dir cfg] initState) as [Hr Hd].
  destruct (walkNode (visit cfg) [Dir cfg] d initState) as [st' r].
  simpl in *. by subst r.
Qed.

Lemma walkDir_lstat_error (cfg : Config) (fs : FileSystem) (e : oserror) :
  fs (Dir cfg) = LstatErr e ->
  walkDir cfg fs = (mkWalkState ∅ ∅ 0 0 [LogSkipping [Dir cfg] e], None).
Proof. intros Hfs. unfold walkDir, WalkDir. by rewrite Hfs. Qed.

(** ** Extension keys *)

Lemma extScan_plain (l t s : list ascii) :
  ~ In "."%char l -> ~ In "/"%char l ->
  extScan (rev l ++ t) s = extScan t (l ++ s).
Proof.
  revert t s. induction l as [|a l IH]; intros t s Hdot Hsep; [done|].
  simpl in *. rewrite <- app_assoc. simpl.
  rewrite IH by tauto. simpl.
  destruct (Ascii.eqb_spec a "/") as [->|_]; [tauto|].
  destruct (Ascii.eqb_spec a ".") as [->|_]; [tauto|]. done.
Qed.

Lemma str_list_ascii (s : string) : str (list_ascii_of_string s) = s.
Proof. apply string_of_list_ascii_of_string. Qed.

Lemma Ext_dotfile (rest : string) :
  ~ In "."%char (list_ascii_of_string rest) ->
  ~ In "/"%char (list_ascii_of_string rest) ->
  Ext (String "." rest) = String "." rest.
Proof.
  intros Hdot Hsep. unfold Ext. simpl list_ascii_of_string. simpl rev.
  rewrite extScan_plain by done. simpl. rewrite app_nil_r.
  change (str ("."%char :: list_ascii_of_string rest))
    with (String "." (str (list_ascii_of_string rest))).
  by rewrite str_list_ascii.
Qed.

Lemma Ext_no_dot (name : string) :
  ~ In "."%char (list_ascii_of_string name) ->
  ~ In "/"%char (list_ascii_of_string name) ->
  Ext name = EmptyString.
Proof.
  intros Hdot Hsep. unfold Ext.
  rewrite <- (app_nil_r (rev _)), extScan_plain by done. done.
Qed.

Lemma TrimPrefix_dot (rest : string) : TrimPrefix (String "." rest) "." = rest.
Proof. unfold TrimPrefix, HasPrefix. simpl. by destruct rest. Qed.

(** ** Machine arithmetic *)

Lemma wrap64_id (x : Z) : in_int64 x -> wrap64 x = x.
Proof.
  unfold in_int64, wrap64. intros H.
  rewrite Z.mod_small by lia. lia.
Qed.

Lemma wrap64_add_l (a b : Z) : wrap64 (wrap64 a + b) = wrap64 (a + b).
Proof.
  unfold wrap64. f_equal.
  replace ((a + 2 ^ 63) mod 2 ^ 64 - 2 ^ 63 + b + 2 ^ 63)
    with ((a + 2 ^ 63) mod 2 ^ 64 + b) by lia.
  rewrite Zplus_mod_idemp_l. f_equal. lia.
Qed.

(** The wrapped running sum is the wrapped sum, in whatever order. *)
Lemma wrapped_sum (l : list Z) (acc : Z) :
  fold_left (fun o v => wrap64 (o + v)) l (wrap64 acc) = wrap64 (acc + sumZ l).
Proof.
  revert acc. induction l as [|v l IH]; intros acc; simpl.
  - by rewrite Z.add_0_r.
  - rewrite wrap64_add_l, IH. f_equal. lia.
Qed.

Lemma sumZ_app (l1 l2 : list Z) : sumZ (l1 ++ l2) = sumZ l1 + sumZ l2.
Proof. induction l1 as [|x l1 IH]; simpl; lia. Qed.

Lemma sumZ_perm (l1 l2 : list Z) : l1 ≡ₚ l2 -> sumZ l1 = sumZ l2.
Proof. induction 1; simpl; lia. Qed.

Lemma sumZ_nonneg (l : list Z) : Forall (fun v => 0 <= v) l -> 0 <= sumZ l.
Proof. induction 1; simpl; lia. Qed.

(** ** The aggregator *)

Section Aggregator.
Context (verbose : bool) (tot : Z) (mk : string -> Z -> FileStat).

(** The entries that stay on their own, and the ones that are folded. *)
Definition keptOf (kvs : list (string * Z)) : list (string * Z) :=
  filter (fun kv => collapsed verbose (snd kv) tot = false) kvs.
Definition foldedOf (kvs : list (string * Z)) : list (string * Z) :=
  filter (fun kv => collapsed verbose (snd kv) tot = true) kvs.

Lemma aggLoop_spec (kvs : list (string * Z)) :
  aggLoop verbose tot mk kvs
  = (map (fun kv => mk (fst kv) (snd kv)) (keptOf kvs),
     wrap64 (sumZ (map snd (foldedOf kvs)))).
Proof.
  unfold aggLoop.
  assert (H : forall stats other,
    fold_left
      (fun (acc : list FileStat * Z) (kv : string * Z) =>
         if collapsed verbose (snd kv) tot
         then (fst acc, wrap64 (snd acc + snd kv))
         else (fst acc ++ [mk (fst kv) (snd kv)], snd acc))
      kvs (stats, wrap64 other)
    = (stats ++ map (fun kv => mk (fst kv) (snd kv)) (keptOf kvs),
       wrap64 (other + sumZ (map snd (foldedOf kvs))))).
  { induction kvs as [|kv kvs IH]; intros stats other; simpl.
    - by rewrite app_nil_r, Z.add_0_r.
    - unfold keptOf, foldedOf. rewrite !filter_cons.
      destruct (collapsed verbose (snd kv) tot) eqn:Hc;
        repeat case_decide; try congruence; cbn [fst snd].
      + rewrite wrap64_add_l. fold (keptOf kvs) (foldedOf kvs).
        rewrite IH. simpl. do 2 f_equal. lia.
      + fold (keptOf kvs) (foldedOf kvs).
        rewrite IH. simpl. by rewrite <- app_assoc. }
  apply (H [] 0).
Qed.

Lemma kept_folded_sum (kvs : list (string * Z)) :
  sumZ (map snd (keptOf kvs)) + sumZ (map snd (foldedOf kvs)) = sumZ (map snd kvs).
Proof.
  unfold keptOf, foldedOf.
  induction kvs as [|kv kvs IH]; [done|].
  rewrite !filter_cons.
  destruct (collapsed verbose (snd kv) tot) eqn:Hc;
    repeat case_decide; try congruence; simpl; lia.
Qed.

Lemma keptOf_perm (l1 l2 : list (string * Z)) : l1 ≡ₚ l2 -> keptOf l1 ≡ₚ keptOf l2.
Proof. intros H. unfold keptOf. by rewrite H. Qed.

Lemma foldedOf_perm (l1 l2 : list (string * Z)) : l1 ≡ₚ l2 -> foldedOf l1 ≡ₚ foldedOf l2.
Proof. intros H. unfold foldedOf. by rewrite H. Qed.

End Aggregator.

(** The slice that [aggregateStats] hands to [sort.Slice]. *)
Definition preSort (R : RangeOrder) (cfg : Config) (counts sizeCounts : gmap string Z)
    (total totalBytes : Z) : list FileStat :=
  let kvs := rangeOf R (chosenMap cfg counts sizeCounts) in
  let tot := chosenTotal cfg total totalBytes in
  let other := wrap64 (sumZ (map snd (foldedOf (Verbose cfg) tot kvs))) in
  map (fun kv => chosenEntry cfg (fst kv) (snd kv)) (keptOf (Verbose cfg) tot kvs)
  ++ (if 0 <? other then [chosenEntry cfg "other" other] else []).

(** The comparison that [aggregateStats] hands to [sort.Slice]. *)
Definition lessBy (cfg : Config) (a b : FileStat) : bool := metric cfg b <? metric cfg a.

Lemma aggregateStats_unfold (R : RangeOrder) (S : SliceSorter) (cfg : Config)
    (counts sizeCounts : gmap string Z) (total totalBytes : Z) :
  aggregateStats R S cfg counts sizeCounts total totalBytes
  = sortSlice S (lessBy cfg) (preSort R cfg counts sizeCounts total totalBytes).
Proof.
  unfold aggregateStats, preSort, lessBy, metric, chosenMap, chosenTotal, chosenEntry.
  destruct (BySize cfg); rewrite aggLoop_spec;
    match goal with |- context [0 <? ?o] => destruct (0 <? o) end;
    by rewrite ?app_nil_r.
Qed.

Lemma lessBy_strictWeak (cfg : Config) : strictWeak (lessBy cfg).
Proof.
  unfold strictWeak, lessBy. repeat split; intros; lia.
Qed.

Lemma metric_chosenEntry (cfg : Config) (k : string) (v : Z) :
  metric cfg (chosenEntry cfg k v) = v.
Proof. unfold metric, chosenEntry. by destruct (BySize cfg). Qed.

Lemma preSort_metric_sum (R : RangeOrder) (cfg : Config)
    (counts sizeCounts : gmap string Z) (total totalBytes : Z) :
  let kvs := rangeOf R (chosenMap cfg counts sizeCounts) in
  let tot := chosenTotal cfg total totalBytes in
  let other := wrap64 (sumZ (map snd (foldedOf (Verbose cfg) tot kvs))) in
  sumZ (map (metric cfg) (preSort R cfg counts sizeCounts total totalBytes))
  = sumZ (map snd (keptOf (Verbose cfg) tot kvs)) + Z.max 0 other.
Proof.
  intros kvs tot other. unfold preSort. fold kvs tot other.
  rewrite map_app, sumZ_app, map_map.
  erewrite map_ext; [|intros kv; apply metric_chosenEntry].
  f_equal. destruct (0 <? other) eqn:Ho; simpl.
  - rewrite metric_chosenEntry. lia.
  - lia.
Qed.

Lemma preSort_perm (R1 R2 : RangeOrder) (cfg : Config)
    (counts sizeCounts : gmap string Z) (total totalBytes : Z) :
  preSort R1 cfg counts sizeCounts total totalBytes
  ≡ₚ preSort R2 cfg counts sizeCounts total totalBytes.
Proof.
  unfold preSort.
  assert (Hp : rangeOf R1 (chosenMap cfg counts sizeCounts)
               ≡ₚ rangeOf R2 (chosenMap cfg counts sizeCounts)).
  { by rewrite !rangeOf_perm. }
  rewrite (sumZ_perm _ _ (Permutation_map snd (foldedOf_perm _ _ _ _ Hp))).
  apply Permutation_app; [|done].
  apply Permutation_map. by apply keptOf_perm.
Qed.

Lemma StronglySorted_weaken {A : Type} (R1 R2 : A -> A -> Prop) (l : list A) :
  (forall a b, R1 a b -> R2 a b) -> StronglySorted R1 l -> StronglySorted R2 l.
Proof.
  intros HR. induction 1 as [|x xs Hxs IH Hx]; constructor; [done|].
  eapply Forall_impl; [exact Hx|]. intros b. apply HR.
Qed.

(** ** float64: the rounding of [SpecFloat], in closed form *)

Lemma digits2_pos_size (p : positive) : digits2_pos p = Pos.size p.
Proof. induction p; simpl; congruence. Qed.

Lemma Zdigits2_log2 (m : Z) : 0 < m -> Zdigits2 m = Z.log2 m + 1.
Proof.
  destruct m as [|p|p]; try lia. intros _. simpl Zdigits2.
  rewrite digits2_pos_size. destruct p; simpl; lia.
Qed.

Lemma Zdigits2_bounds (m : Z) :
  0 < m -> 2 ^ (Zdigits2 m - 1) <= m < 2 ^ Zdigits2 m.
Proof.
  intros Hm. rewrite Zdigits2_log2 by done.
  replace (Z.log2 m + 1 - 1) with (Z.log2 m) by lia.
  pose proof (Z.log2_spec m Hm). unfold Z.succ in *. lia.
Qed.

Lemma Zdigits2_unique (m d : Z) :
  0 < d -> 2 ^ (d - 1) <= m < 2 ^ d -> Zdigits2 m = d.
Proof.
  intros Hd Hm.
  assert (0 < m) by (pose proof (Z.pow_pos_nonneg 2 (d - 1)); lia).
  rewrite Zdigits2_log2 by done.
  rewrite (Z.log2_unique m (d - 1)); [lia|lia|].
  unfold Z.succ. by replace (d - 1 + 1) with d by lia.
Qed.

Lemma iter_pos_nat {A : Type} (f : A -> A) (p : positive) (x : A) :
  SpecFloat.iter_pos f p x = Nat.iter (Pos.to_nat p) f x.
Proof.
  revert x. induction p as [p IH|p IH|]; intros x; cbn [SpecFloat.iter_pos].
  - rewrite !IH, Pos2Nat.inj_xI.
    replace (S (2 * Pos.to_nat p)) with (Pos.to_nat p + Pos.to_nat p + 1)%nat by lia.
    by rewrite !Nat.iter_add.
  - rewrite !IH, Pos2Nat.inj_xO.
    replace (2 * Pos.to_nat p)%nat with (Pos.to_nat p + Pos.to_nat p)%nat by lia.
    by rewrite !Nat.iter_add.
  - done.
Qed.

(** A shift record [(m, r, s)] stands for the quotient [N / D]: [m] is its
    integer part, the round bit says whether the remainder reaches half of
    [D], the sticky bit whether it is neither zero nor that half. *)
Definition roundBit (N D : Z) : bool := D <=? 2 * (N mod D).
Definition stickyBit (N D : Z) : bool :=
  negb (N mod D =? 0) && negb (2 * (N mod D) =? D).

Definition represents (N D : Z) (r : shr_record) : Prop :=
  shr_m r = N / D /\ shr_r r = roundBit N D /\ shr_s r = stickyBit N D.

Lemma shr_1_nonneg (m : Z) (r s : bool) :
  0 <= m ->
  shr_1 (Build_shr_record m r s) = Build_shr_record (m / 2) (Z.odd m) (r || s).
Proof.
  intros Hm. destruct m as [|p|p]; [done| |lia].
  destruct p as [p|p|]; simpl shr_1; f_equal.
  - rewrite Pos2Z.inj_xI. Z.div_mod_to_equations. lia.
  - rewrite Pos2Z.inj_xO. Z.div_mod_to_equations. lia.
Qed.

Lemma shr_1_represents (N D : Z) (r : shr_record) :
  0 <= N -> 0 < D -> represents N D r -> represents N (2 * D) (shr_1 r).
Proof.
  intros HN HD. destruct r as [m rb sb]. unfold represents.
  intros (Hm & Hr & Hs). simpl in Hm, Hr, Hs.
  assert (Hm0 : 0 <= m) by (subst m; apply Z.div_pos; lia).
  rewrite shr_1_nonneg by done. simpl.
  pose proof (Z.div_mod N D ltac:(lia)) as HND.
  pose proof (Z.mod_pos_bound N D ltac:(lia)) as HNDb.
  pose proof (Z.div_mod m 2 ltac:(lia)) as Hm2.
  pose proof (Z.mod_pos_bound m 2 ltac:(lia)) as Hm2b.
  assert (Hq : N / (2 * D) = m / 2).
  { subst m. rewrite (Z.mul_comm 2 D), <- Z.div_div by lia. done. }
  assert (Hrem : N mod (2 * D) = D * (m mod 2) + N mod D).
  { symmetry. apply (Z.mod_unique N (2 * D) (m / 2)); [left|]; nia. }
  split; [done|].
  unfold roundBit, stickyBit in *. rewrite Hrem, Hr, Hs.
  rewrite (Zodd_mod m).
  destruct (Z.eqb_spec (m mod 2) 1) as [H1|H1]; split.
  - rewrite H1. apply eq_sym, Z.leb_le. lia.
  - rewrite H1.
    destruct (Z.leb_spec D (2 * (N mod D))), (Z.eqb_spec (N mod D) 0),
      (Z.eqb_spec (2 * (N mod D)) D), (Z.eqb_spec (D * 1 + N mod D) 0),
      (Z.eqb_spec (2 * (D * 1 + N mod D)) (2 * D)); simpl; try done; lia.
  - assert (m mod 2 = 0) as -> by lia. apply eq_sym, Z.leb_gt. lia.
  - assert (m mod 2 = 0) as -> by lia.
    destruct (Z.leb_spec D (2 * (N mod D))), (Z.eqb_spec (N mod D) 0),
      (Z.eqb_spec (2 * (N mod D)) D), (Z.eqb_spec (D * 0 + N mod D) 0),
      (Z.eqb_spec (2 * (D * 0 + N mod D)) (2 * D)); simpl; try done; lia.
Qed.

Lemma shr_iter_represents (n : nat) (N D : Z) (r : shr_record) :
  0 <= N -> 0 < D -> represents N D r ->
  represents N (D * 2 ^ Z.of_nat n) (Nat.iter n shr_1 r).
Proof.
  intros HN HD Hr. induction n as [|n IH].
  - simpl. by rewrite Z.mul_1_r.
  - rewrite Nat2Z.inj_succ, Z.pow_succ_r by lia. simpl.
    replace (D * (2 * 2 ^ Z.of_nat n)) with (2 * (D * 2 ^ Z.of_nat n)) by lia.
    apply shr_1_represents; [done| |done].
    pose proof (Z.pow_pos_nonneg 2 (Z.of_nat n)). nia.
Qed.

(** [shr] by [n] places. *)
Lemma shr_represents (N D : Z) (r : shr_record) (e n : Z) :
  0 <= N -> 0 < D -> represents N D r ->
  represents N (D * 2 ^ Z.max 0 n) (fst (shr r e n))
  /\ snd (shr r e n) = e + Z.max 0 n.
Proof.
  intros HN HD Hr. destruct n as [|p|p]; simpl.
  - rewrite Z.mul_1_r, Z.add_0_r. done.
  - rewrite iter_pos_nat. split; [|lia].
    replace (Z.pos p) with (Z.of_nat (Pos.to_nat p)) by lia.
    replace (Z.max 0 (Z.of_nat (Pos.to_nat p))) with (Z.of_nat (Pos.to_nat p)) by lia.
    by apply shr_iter_represents.
  - rewrite Z.mul_1_r, Z.add_0_r. done.
Qed.

(** The location of the remainder of [N / D]. *)
Definition locOf (N D : Z) : location :=
  if N mod D =? 0 then loc_Exact else loc_Inexact (2 * (N mod D) ?= D).

Lemma represents_of_loc (N D : Z) :
  0 < D -> represents N D (shr_record_of_loc (N / D) (locOf N D)).
Proof.
  intros HD. unfold represents, locOf, roundBit, stickyBit.
  pose proof (Z.mod_pos_bound N D HD) as Hb.
  destruct (Z.eqb_spec (N mod D) 0) as [H0|H0];
    [|destruct (Z.compare_spec (2 * (N mod D)) D) as [H|H|H]];
    simpl; (split; [done|]);
    destruct (Z.leb_spec D (2 * (N mod D))), (Z.eqb_spec (2 * (N mod D)) D);
    simpl; split; try done; lia.
Qed.

(** Rounding to nearest, ties to even, of what a shift record stands for. *)
Lemma round_represents (N D : Z) (r : shr_record) :
  0 < D -> represents N D r ->
  round_nearest_even (shr_m r) (loc_of_shr_record r) = rne N D.
Proof.
  intros HD. destruct r as [m rb sb]. unfold represents, roundBit, stickyBit, rne.
  simpl. intros (-> & -> & ->).
  pose proof (Z.mod_pos_bound N D HD) as Hb.
  rewrite <- Z.negb_even.
  destruct (Z.leb_spec D (2 * (N mod D))), (Z.eqb_spec (N mod D) 0),
    (Z.eqb_spec (2 * (N mod D)) D), (Z.ltb_spec D (2 * (N mod D)));
    simpl; try lia; try done.
  all: by destruct (Z.even (N / D)).
Qed.

Lemma rne_bounds (N D : Z) :
  0 < D -> N / D <= rne N D <= N / D + 1.
Proof. intros HD. unfold rne. destruct (_ || _); lia. Qed.

(** The rounded quotient is within half a unit of the quotient. *)
Lemma rne_half (N D : Z) : 0 < D -> 2 * Z.abs (rne N D * D - N) <= D.
Proof.
  intros HD. unfold rne.
  pose proof (Z.div_mod N D ltac:(lia)) as HND.
  pose proof (Z.mod_pos_bound N D HD) as Hb.
  destruct (Z.ltb_spec D (2 * (N mod D))); simpl; [nia|].
  destruct (Z.eqb_spec (2 * (N mod D)) D); simpl; [|nia].
  destruct (Z.odd (N / D)); nia.
Qed.

Lemma rne_exact (k D : Z) : 0 < D -> rne (k * D) D = k.
Proof.
  intros HD. unfold rne. rewrite Z.div_mul, Z.mod_mul by lia.
  rewrite (proj2 (Z.ltb_ge _ _)) by lia.
  rewrite (proj2 (Z.eqb_neq _ _)) by lia. done.
Qed.

Lemma rne_scale (N D c : Z) : 0 < D -> 0 < c -> rne (N * c) (D * c) = rne N D.
Proof.
  intros HD Hc. unfold rne.
  rewrite Z.div_mul_cancel_r, Z.mul_mod_distr_r by lia.
  pose proof (Z.mod_pos_bound N D HD) as Hb.
  replace (D * c <? 2 * (N mod D * c)) with (D <? 2 * (N mod D)).
  2:{ destruct (Z.ltb_spec D (2 * (N mod D))); symmetry;
      [apply Z.ltb_lt|apply Z.ltb_ge]; nia. }
  replace (2 * (N mod D * c) =? D * c) with (2 * (N mod D) =? D).
  2:{ destruct (Z.eqb_spec (2 * (N mod D)) D); symmetry;
      [apply Z.eqb_eq|apply Z.eqb_neq]; nia. }
  done.
Qed.

Lemma rne_mono (N1 N2 D : Z) : 0 < D -> N1 <= N2 -> rne N1 D <= rne N2 D.
Proof.
  intros HD HN. unfold rne.
  pose proof (Z.div_mod N1 D ltac:(lia)) as H1.
  pose proof (Z.mod_pos_bound N1 D HD) as Hb1.
  pose proof (Z.div_mod N2 D ltac:(lia)) as H2.
  pose proof (Z.mod_pos_bound N2 D HD) as Hb2.
  assert (Hq : N1 / D <= N2 / D) by (apply Z.div_le_mono; lia).
  destruct (Z.eq_dec (N1 / D) (N2 / D)) as [Heq|Hne].
  - rewrite Heq in *. 
    destruct (Z.ltb_spec D (2 * (N1 mod D))), (Z.ltb_spec D (2 * (N2 mod D))),
      (Z.eqb_spec (2 * (N1 mod D)) D), (Z.eqb_spec (2 * (N2 mod D)) D);
      simpl; try lia; destruct (Z.odd (N2 / D)); lia.
  - assert (N1 / D + 1 <= N2 / D) by lia.
    destruct (_ || _), (_ || _); lia.
Qed.

Lemma fexp_normal (x : Z) : - 1074 <= x - 53 -> fexp 53 1024 x = x - 53.
Proof. unfold fexp, emin. lia. Qed.

Lemma pow2_pos (n : Z) : 0 <= n -> 0 < 2 ^ n.
Proof. intros. by apply Z.pow_pos_nonneg. Qed.

(** A mantissa that is shifted down to 53 digits lands in the last binade. *)
Lemma shifted_mantissa (mx : Z) :
  2 ^ 52 <= mx ->
  0 <= Zdigits2 mx - 53
  /\ 2 ^ 52 <= mx / 2 ^ (Zdigits2 mx - 53) < 2 ^ 53.
Proof.
  intros Hmx.
  pose proof (Zdigits2_bounds mx ltac:(lia)) as [Hlo Hhi].
  assert (Hd : 53 <= Zdigits2 mx).
  { destruct (Z.lt_ge_cases (Zdigits2 mx) 53) as [Hlt|]; [|done].
    assert (2 ^ Zdigits2 mx <= 2 ^ 52) by (apply Z.pow_le_mono_r; lia). lia. }
  split; [lia|].
  set (n := Zdigits2 mx - 53) in *.
  pose proof (pow2_pos n ltac:(lia)) as Hn.
  replace (Zdigits2 mx - 1) with (52 + n) in Hlo by lia.
  replace (Zdigits2 mx) with (53 + n) in Hhi by lia.
  rewrite Z.pow_add_r in Hlo, Hhi by lia.
  split.
  - apply Z.div_le_lower_bound; lia.
  - apply Z.div_lt_upper_bound; lia.
Qed.

(** The value [binary_round_aux] returns for a quotient [N / D] whose integer
    part has at least 53 digits, away from underflow and overflow: the
    quotient is rounded at the place that leaves 53 digits, and a carry out
    of the 53 digits moves the exponent up by one. *)
Definition roundedFloat (sx : bool) (M e : Z) : spec_float :=
  if M <? 2 ^ 53 then S754_finite sx (Z.to_pos M) e
  else S754_finite sx (Z.to_pos (2 ^ 52)) (e + 1).

Lemma binary_round_aux_normal (sx : bool) (mx ex : Z) (N D : Z) :
  0 <= N -> 0 < D -> mx = N / D -> 2 ^ 52 <= mx ->
  - 1074 <= ex + (Zdigits2 mx - 53) -> ex + (Zdigits2 mx - 53) < 971 ->
  binary_round_aux 53 1024 sx mx ex (locOf N D)
  = roundedFloat sx (rne N (D * 2 ^ (Zdigits2 mx - 53))) (ex + (Zdigits2 mx - 53))
  /\ 2 ^ 52 <= rne N (D * 2 ^ (Zdigits2 mx - 53)) <= 2 ^ 53.
Proof.
  intros HN HD Hmx Hbig Hlo Hhi.
  destruct (shifted_mantissa mx Hbig) as [Hn Hm1].
  set (n := Zdigits2 mx - 53) in *.
  pose proof (pow2_pos n Hn) as Hpn.
  assert (HD' : 0 < D * 2 ^ n) by nia.
  assert (Hq1 : N / (D * 2 ^ n) = mx / 2 ^ n).
  { rewrite Hmx, Z.div_div by lia. done. }
  pose proof (rne_bounds N (D * 2 ^ n) HD') as HM. rewrite Hq1 in HM.
  set (M := rne N (D * 2 ^ n)) in *.
  split; [|lia].
  unfold binary_round_aux, shr_fexp.
  rewrite fexp_normal by (fold n; lia).
  replace (Zdigits2 mx + ex - 53 - ex) with n by (unfold n; lia).
  assert (Hrep : represents N D (shr_record_of_loc mx (locOf N D))).
  { rewrite Hmx. by apply represents_of_loc. }
  pose proof (shr_represents N D _ ex n HN HD Hrep) as Hshr.
  destruct (shr (shr_record_of_loc mx (locOf N D)) ex n) as [r1 e1].
  simpl in Hshr. destruct Hshr as [Hr1 He1].
  replace (Z.max 0 n) with n in * by lia. subst e1.
  rewrite (round_represents N (D * 2 ^ n) r1 HD' Hr1). fold M.
  unfold roundedFloat.
  destruct (Z.ltb_spec M (2 ^ 53)) as [Hlt|Hge].
  - assert (HdM : Zdigits2 M = 53) by (apply Zdigits2_unique; lia).
    rewrite HdM, fexp_normal by lia.
    replace (53 + (ex + n) - 53 - (ex + n)) with 0 by lia.
    simpl shr. cbn [shr_m shr_record_of_loc].
    destruct M as [|pM|pM]; try lia.
    rewrite (proj2 (Z.leb_le _ _)) by lia. done.
  - assert (HM53 : M = 2 ^ 53) by lia.
    assert (HdM : Zdigits2 M = 54) by (rewrite HM53; reflexivity).
    rewrite HdM, fexp_normal by lia.
    replace (54 + (ex + n) - 53 - (ex + n)) with 1 by lia.
    rewrite HM53. simpl shr. cbn [shr_m].
    rewrite (proj2 (Z.leb_le _ _)) by lia. done.
Qed.

Lemma rne_one (N : Z) : rne N 1 = N.
Proof. rewrite <- (Z.mul_1_r N) at 1. apply rne_exact. lia. Qed.

Lemma locOf_integer (N : Z) : locOf N 1 = loc_Exact.
Proof. unfold locOf. by rewrite Z.mod_1_r. Qed.

Lemma new_location_spec (N D : Z) :
  0 < D -> new_location D (N mod D) = locOf N D.
Proof.
  intros HD. unfold new_location, new_location_even, new_location_odd, locOf.
  pose proof (Z.mod_pos_bound N D HD) as Hb.
  destruct (Z.even D) eqn:Hev; destruct (Z.eqb_spec (N mod D) 0) as [H0|H0]; try done.
  apply (f_equal negb) in Hev. rewrite Z.negb_even in Hev. simpl in Hev.
  apply Z.odd_spec in Hev as [k Hk].
  destruct (Z.compare_spec (2 * (N mod D) + 1) D) as [H|H|H];
    f_equal; symmetry; [apply Z.compare_lt_iff|apply Z.compare_lt_iff|apply Z.compare_gt_iff];
    lia.
Qed.

Lemma pos_iter_xO (p k : positive) : Z.pos (Pos.iter xO p k) = Z.pos p * 2 ^ Z.pos k.
Proof.
  induction k as [|k IH] using Pos.peano_ind.
  - simpl. lia.
  - rewrite Pos.iter_succ, Pos2Z.inj_xO, IH, Pos2Z.inj_succ, Z.pow_succ_r by lia. lia.
Qed.

(** [float64(n)] for a positive integer [n]: exact up to 53 digits, rounded
    at the place that leaves 53 digits beyond. *)
Lemma f64_of_int_pos (n : Z) :
  0 < n < 2 ^ 64 ->
  f64_of_int n
  = if Zdigits2 n <=? 53
    then S754_finite false (Z.to_pos (n * 2 ^ (53 - Zdigits2 n))) (Zdigits2 n - 53)
    else roundedFloat false (rne n (2 ^ (Zdigits2 n - 53))) (Zdigits2 n - 53).
Proof.
  intros Hn. pose proof (Zdigits2_bounds n ltac:(lia)) as [Hlo Hhi].
  assert (Hd1 : 1 <= Zdigits2 n).
  { rewrite Zdigits2_log2 by lia. pose proof (Z.log2_nonneg n). lia. }
  assert (Hd2 : Zdigits2 n <= 64).
  { destruct (Z.lt_ge_cases 64 (Zdigits2 n)) as [Hgt|]; [|lia].
    assert (2 ^ 64 <= 2 ^ (Zdigits2 n - 1)) by (apply Z.pow_le_mono_r; lia). lia. }
  destruct n as [|p|p]; try lia.
  unfold f64_of_int, binary_normalize, binary_round, shl_align.
  change (Z.pos (digits2_pos p)) with (Zdigits2 (Z.pos p)).
  set (d := Zdigits2 (Z.pos p)) in *.
  rewrite Z.add_0_r, fexp_normal by lia. rewrite Z.sub_0_r.
  destruct (Z.leb_spec d 53) as [Hle|Hgt].
  - (* the integer is shifted up to 53 digits: no rounding *)
    set (N := Z.pos p * 2 ^ (53 - d)).
    assert (HN : 2 ^ 52 <= N < 2 ^ 53).
    { unfold N. pose proof (pow2_pos (53 - d) ltac:(lia)).
      assert (E1 : 2 ^ 52 = 2 ^ (d - 1) * 2 ^ (53 - d)).
      { rewrite <- Z.pow_add_r by lia. f_equal. lia. }
      assert (E2 : 2 ^ 53 = 2 ^ d * 2 ^ (53 - d)).
      { rewrite <- Z.pow_add_r by lia. f_equal. lia. }
      rewrite E1, E2. nia. }
    assert (HdN : Zdigits2 N = 53) by (apply Zdigits2_unique; lia).
    assert (Hgoal : forall mz, Z.pos mz = N ->
              binary_round_aux 53 1024 false (Z.pos mz) (d - 53) loc_Exact
              = S754_finite false (Z.to_pos N) (d - 53)).
    { intros mz Hmz. rewrite <- (locOf_integer (Z.pos mz)).
      destruct (binary_round_aux_normal false (Z.pos mz) (d - 53) (Z.pos mz) 1)
        as [Heq _]; try lia.
      - by rewrite Z.div_1_r.
      - rewrite Hmz, HdN. lia.
      - rewrite Hmz, HdN. lia.
      - rewrite Heq, Hmz, HdN. change (1 * 2 ^ (53 - 53)) with 1.
        rewrite rne_one. unfold roundedFloat.
        rewrite (proj2 (Z.ltb_lt _ _)) by lia. f_equal. lia. }
    destruct (d - 53) as [|k|k] eqn:Hk.
    + apply Hgoal. unfold N. replace (53 - d) with 0 by lia. lia.
    + lia.
    + apply Hgoal. rewrite pos_iter_xO. unfold N. f_equal. f_equal. lia.
  - destruct (d - 53) as [|k|k] eqn:Hk; try lia.
    rewrite <- (locOf_integer (Z.pos p)).
    assert (Hbig : 2 ^ 52 <= Z.pos p).
    { assert (2 ^ 52 <= 2 ^ (d - 1)) by (apply Z.pow_le_mono_r; lia). lia. }
    destruct (binary_round_aux_normal false (Z.pos p) 0 (Z.pos p) 1
                ltac:(lia) ltac:(lia) (eq_sym (Z.div_1_r _)) Hbig)
      as [Heq _]; fold d; try lia.
    rewrite Heq. fold d. rewrite Hk, Z.mul_1_l. done.
Qed.

Lemma f64_of_int_zero : f64_of_int 0 = S754_zero false.
Proof. reflexivity. Qed.

(** The quotient of two positive floats with 53-digit mantissas, away from
    underflow and overflow. *)
Lemma f64_div_normal (sx sy : bool) (mx my : positive) (ex ey : Z) :
  Zdigits2 (Z.pos mx) = 53 -> Zdigits2 (Z.pos my) = 53 ->
  - 900 <= ex - ey <= 900 ->
  let N := Z.pos mx * 2 ^ 53 in
  let D := Z.pos my in
  let n := Zdigits2 (N / D) - 53 in
  f64_div (S754_finite sx mx ex) (S754_finite sy my ey)
  = roundedFloat (xorb sx sy) (rne N (D * 2 ^ n)) (ex - ey - 53 + n)
  /\ 0 <= n <= 1
  /\ 2 ^ 52 <= rne N (D * 2 ^ n) <= 2 ^ 53.
Proof.
  intros Hdx Hdy Hrange N D n.
  pose proof (Zdigits2_bounds (Z.pos mx) ltac:(lia)) as Hbx. rewrite Hdx in Hbx.
  pose proof (Zdigits2_bounds (Z.pos my) ltac:(lia)) as Hby. rewrite Hdy in Hby.
  change (53 - 1) with 52 in Hbx, Hby.
  assert (HD : 0 < D) by (unfold D; lia).
  assert (HN : 0 <= N) by (unfold N; lia).
  assert (Hq : 2 ^ 52 <= N / D < 2 ^ 54).
  { unfold N, D. split.
    - apply Z.div_le_lower_bound; lia.
    - apply Z.div_lt_upper_bound; lia. }
  assert (Hn : 0 <= n <= 1).
  { unfold n. pose proof (Zdigits2_bounds (N / D) ltac:(lia)) as [Hlo Hhi].
    split.
    - destruct (Z.lt_ge_cases (Zdigits2 (N / D)) 53) as [Hlt|]; [|lia].
      assert (2 ^ Zdigits2 (N / D) <= 2 ^ 52) by (apply Z.pow_le_mono_r; lia). lia.
    - destruct (Z.lt_ge_cases 54 (Zdigits2 (N / D))) as [Hgt|]; [|lia].
      assert (2 ^ 54 <= 2 ^ (Zdigits2 (N / D) - 1)) by (apply Z.pow_le_mono_r; lia). lia. }
  destruct (binary_round_aux_normal (xorb sx sy) (N / D) (ex - ey - 53) N D
              HN HD eq_refl ltac:(lia)) as [Heq Hb]; fold n; try lia.
  split; [|split; [done|exact Hb]].
  unfold n. rewrite <- Heq.
  unfold f64_div, SFdiv, SFdiv_core_binary.
  rewrite Hdx, Hdy.
  replace (53 + ex - (53 + ey)) with (ex - ey) by lia.
  rewrite fexp_normal by lia.
  replace (Z.min (ex - ey - 53) (ex - ey)) with (ex - ey - 53) by lia.
  replace (ex - ey - (ex - ey - 53)) with 53 by lia.
  cbv iota beta. rewrite Z.shiftl_mul_pow2 by lia. fold N D.
  pose proof (new_location_spec N D HD) as Hloc.
  unfold Z.div, Z.modulo in *.
  destruct (Z.div_eucl N D) as [q r]. by rewrite Hloc.
Qed.

(** The integer that [float64(n)] stands for: [n] itself up to 53 binary
    digits, and beyond that [n] rounded at the place that leaves 53 digits. *)
Definition nearestF64 (n : Z) : Z :=
  let d := Z.log2 n + 1 in
  if d <=? 53 then n else rne n (2 ^ (d - 53)) * 2 ^ (d - 53).

Lemma nearestF64_small (n : Z) : 0 <= n <= 2 ^ 53 -> nearestF64 n = n.
Proof.
  intros Hn. unfold nearestF64.
  destruct (Z.leb_spec (Z.log2 n + 1) 53) as [|Hd]; [done|].
  assert (Hpos : 0 < n).
  { destruct (Z.eq_dec n 0) as [->|]; [simpl in Hd; lia|lia]. }
  assert (n = 2 ^ 53) as ->.
  { destruct (Z.eq_dec n (2 ^ 53)); [done|].
    assert (Z.log2 n < 53) by (apply Z.log2_lt_pow2; lia). lia. }
  reflexivity.
Qed.

Lemma nearestF64_close (n : Z) :
  0 < n < 2 ^ 63 -> 2 * Z.abs (nearestF64 n - n) <= 2 ^ 10.
Proof.
  intros Hn. unfold nearestF64.
  destruct (Z.leb_spec (Z.log2 n + 1) 53) as [|Hd].
  - replace (n - n) with 0 by lia. simpl. lia.
  - assert (Hlog : Z.log2 n < 63) by (apply Z.log2_lt_pow2; lia).
    set (k := Z.log2 n + 1 - 53) in *.
    pose proof (pow2_pos k ltac:(lia)) as Hk.
    pose proof (rne_half n (2 ^ k) Hk).
    assert (2 ^ k <= 2 ^ 10) by (apply Z.pow_le_mono_r; lia). lia.
Qed.

(** The float [float64(n)] for [0 < n < 2^63]: a 53-digit mantissa and an
    exponent that give the value [nearestF64 n]. *)
Lemma f64_of_int_value (n : Z) :
  0 < n < 2 ^ 63 ->
  exists (m : positive) (e : Z),
    f64_of_int n = S754_finite false m e
    /\ Zdigits2 (Z.pos m) = 53
    /\ - 52 <= e <= 11
    /\ (e <= 0 \/ 2 ^ 53 <= n)
    /\ Z.pos m * 2 ^ (e + 52) = nearestF64 n * 2 ^ 52.
Proof.
  intros Hn. rewrite f64_of_int_pos by lia.
  pose proof (Zdigits2_bounds n ltac:(lia)) as [Hlo Hhi].
  assert (Hdl : Zdigits2 n = Z.log2 n + 1) by (apply Zdigits2_log2; lia).
  assert (Hlog : 0 <= Z.log2 n < 63).
  { split; [apply Z.log2_nonneg|apply Z.log2_lt_pow2; lia]. }
  unfold nearestF64. rewrite <- Hdl.
  set (d := Zdigits2 n) in *.
  destruct (Z.leb_spec d 53) as [Hle|Hgt].
  - pose proof (pow2_pos (53 - d) ltac:(lia)) as Hp.
    assert (E1 : 2 ^ 52 = 2 ^ (d - 1) * 2 ^ (53 - d)).
    { rewrite <- Z.pow_add_r by lia. f_equal. lia. }
    assert (E2 : 2 ^ 53 = 2 ^ d * 2 ^ (53 - d)).
    { rewrite <- Z.pow_add_r by lia. f_equal. lia. }
    assert (HN : 2 ^ 52 <= n * 2 ^ (53 - d) < 2 ^ 53) by (rewrite E1, E2; nia).
    exists (Z.to_pos (n * 2 ^ (53 - d))), (d - 53).
    rewrite Z2Pos.id by lia.
    split; [done|]. split; [apply Zdigits2_unique; lia|].
    split; [lia|]. split; [lia|].
    rewrite <- Z.mul_assoc, <- Z.pow_add_r by lia. do 2 f_equal. lia.
  - set (k := d - 53) in *.
    pose proof (pow2_pos k ltac:(lia)) as Hk.
    assert (Hbig : 2 ^ 53 <= n).
    { assert (2 ^ 53 <= 2 ^ (d - 1)) by (apply Z.pow_le_mono_r; lia). lia. }
    assert (HM : 2 ^ 52 <= rne n (2 ^ k) <= 2 ^ 53).
    { pose proof (rne_bounds n (2 ^ k) Hk).
      assert (E1 : 2 ^ (d - 1) = 2 ^ 52 * 2 ^ k).
      { rewrite <- Z.pow_add_r by lia. f_equal. lia. }
      assert (E2 : 2 ^ d = 2 ^ 53 * 2 ^ k).
      { rewrite <- Z.pow_add_r by lia. f_equal. lia. }
      assert (2 ^ 52 <= n / 2 ^ k) by (apply Z.div_le_lower_bound; lia).
      assert (n / 2 ^ k < 2 ^ 53) by (apply Z.div_lt_upper_bound; lia).
      lia. }
    unfold roundedFloat.
    destruct (Z.ltb_spec (rne n (2 ^ k)) (2 ^ 53)) as [Hlt|Hge].
    + exists (Z.to_pos (rne n (2 ^ k))), k. rewrite Z2Pos.id by lia.
      split; [done|]. split; [apply Zdigits2_unique; lia|].
      split; [lia|]. split; [by right|].
      rewrite Z.pow_add_r by lia. lia.
    + exists (Z.to_pos (2 ^ 52)), (k + 1).
      split; [done|]. split; [reflexivity|].
      split; [lia|]. split; [by right|].
      assert (rne n (2 ^ k) = 2 ^ 53) as -> by lia.
      rewrite Z2Pos.id by lia.
      replace (k + 1 + 52) with (53 + k) by lia.
      rewrite Z.pow_add_r by lia. lia.
Qed.

(** Dividing by a power of two is exact. *)
Lemma f64_div_pow2 (m : positive) (e ey : Z) :
  Zdigits2 (Z.pos m) = 53 -> - 900 <= e - ey <= 900 ->
  f64_div (S754_finite false m e) (S754_finite false 4503599627370496 ey)
  = S754_finite false m (e - ey - 52).
Proof.
  intros Hd Hrange.
  pose proof (Zdigits2_bounds (Z.pos m) ltac:(lia)) as Hb. rewrite Hd in Hb.
  change (53 - 1) with 52 in Hb.
  destruct (f64_div_normal false false m 4503599627370496 e ey Hd eq_refl Hrange)
    as (Heq & _ & _).
  rewrite Heq. clear Heq.
  assert (Hq : Z.pos m * 2 ^ 53 / 4503599627370496 = 2 * Z.pos m).
  { change 4503599627370496 with (2 ^ 52).
    replace (Z.pos m * 2 ^ 53) with (2 * Z.pos m * 2 ^ 52) by lia.
    by rewrite Z.div_mul. }
  rewrite Hq.
  assert (Hd2 : Zdigits2 (2 * Z.pos m) = 54) by (apply Zdigits2_unique; lia).
  rewrite Hd2. change (54 - 53) with 1.
  change (4503599627370496 * 2 ^ 1) with (2 ^ 53).
  rewrite rne_exact by lia. unfold roundedFloat.
  rewrite (proj2 (Z.ltb_lt _ _)) by lia. simpl xorb. f_equal. lia.
Qed.

(** ** Sizes for people *)

(** A number of hundredths printed with two decimals. *)
Definition twoDecimals (n : Z) : string :=
  showZ (n / 100) +:+ "." +:+ fixedDigits 2 n.

(** The units of [humanReadableSize] above the byte, in increasing order. *)
Definition units : list (Z * string) :=
  [(KB, "KB"); (MB, "MB"); (GB, "GB"); (TB, "TB")]%string.

(** What [humanReadableSize] prints for a quotient by a unit [2^k]. *)
Lemma fmt_size_in_unit (b k : Z) :
  0 < b < 2 ^ 63 -> 10 <= k <= 40 -> (b < 2 ^ 53 \/ k = 40) ->
  f64_of_int (2 ^ k) = S754_finite false 4503599627370496 (k - 52) ->
  fmtFixed 2 (f64_div (f64_of_int b) (f64_of_int (2 ^ k)))
  = twoDecimals (rne (100 * nearestF64 b) (2 ^ k)).
Proof.
  intros Hb Hk Hcase Hunit.
  destruct (f64_of_int_value b Hb) as (m & e & Hfb & Hd & He & Hsmall & Hval).
  rewrite Hfb, Hunit, f64_div_pow2 by (done || lia).
  replace (e - (k - 52) - 52) with (e - k) by lia.
  assert (Hneg : e - k < 0) by lia.
  unfold fmtFixed, twoDecimals, scaledDecimal.
  rewrite (proj2 (Z.leb_gt _ _)) by lia.
  change (10 ^ Z.of_nat 2) with 100.
  assert (Hrne : rne (Z.pos m * 100) (2 ^ (- (e - k))) = rne (100 * nearestF64 b) (2 ^ k)).
  { pose proof (pow2_pos (e + 52) ltac:(lia)) as Hp1.
    pose proof (pow2_pos (- (e - k)) ltac:(lia)) as Hp2.
    pose proof (pow2_pos k ltac:(lia)) as Hp3.
    rewrite <- (rne_scale (Z.pos m * 100) _ (2 ^ (e + 52))) by lia.
    rewrite <- (rne_scale (100 * nearestF64 b) _ (2 ^ 52)) by lia.
    f_equal; [lia|].
    rewrite <- !Z.pow_add_r by lia. f_equal. lia. }
  rewrite Hrne. reflexivity.
Qed.

(** ** The one-percent threshold *)

(** Comparing a positive float with the constant [0.01]. *)
Lemma ltb_0_01 (m : positive) (e : Z) :
  SFltb (S754_finite false m e) f64_0_01
  = match e ?= - 59 with
    | Lt => true
    | Gt => false
    | Eq => Z.pos m <? 5764607523034235
    end.
Proof.
  unfold SFltb, SFcompare, f64_0_01, Z.ltb.
  destruct (e ?= - 59); [|reflexivity|reflexivity].
  unfold Z.compare, Pos.compare. reflexivity.
Qed.

(** A float [m * 2^(j - s)] within half a unit in the last place of [v / t]
    is below the float [0.01] exactly when [v / t] is below one hundredth,
    as long as [t] stays below [2^53]. *)
Lemma threshold_compare (m v t j s : Z) :
  0 <= j -> 0 <= s -> 2 ^ 52 <= m < 2 ^ 53 -> 0 <= v -> 0 < t < 2 ^ 53 ->
  2 * Z.abs (m * (t * 2 ^ j) - v * 2 ^ s) <= t * 2 ^ j ->
  match j - s ?= - 59 with
  | Lt => true
  | Gt => false
  | Eq => m <? 5764607523034235
  end = (100 * v <? t).
Proof.
  intros Hj Hs Hm Hv Ht Hbound.
  pose proof (pow2_pos j Hj) as HJ.
  destruct (Z.le_gt_cases j s) as [Hjs|Hjs].
  - (* the result has a unit in the last place of 2^-(s - j) *)
    set (q := s - j) in *.
    assert (Hq : 0 <= q) by (unfold q; lia).
    pose proof (pow2_pos q Hq) as HQ.
    assert (HS : 2 ^ s = 2 ^ j * 2 ^ q).
    { rewrite <- Z.pow_add_r by lia. f_equal. unfold q. lia. }
    assert (Hb : 2 * Z.abs (m * t - v * 2 ^ q) <= t).
    { rewrite HS in Hbound.
      replace (m * (t * 2 ^ j) - v * (2 ^ j * 2 ^ q))
        with (2 ^ j * (m * t - v * 2 ^ q)) in Hbound by ring.
      rewrite Z.abs_mul, (Z.abs_eq (2 ^ j)) in Hbound by lia.
      apply (Z.mul_le_mono_pos_l _ _ (2 ^ j)); lia. }
    clear Hbound HS.
    assert (Hmt1 : 2 ^ 52 * t <= m * t) by nia.
    assert (Hmt2 : m * t <= (2 ^ 53 - 1) * t) by nia.
    replace (j - s) with (- q) by (unfold q; lia).
    destruct (Z.compare_spec (- q) (- 59)) as [Heq|Hlt|Hgt].
    + assert (q = 59) as Hq59 by lia. rewrite Hq59 in *.
      destruct (Z.ltb_spec m 5764607523034235) as [Hlt|Hge];
        symmetry; [apply Z.ltb_lt|apply Z.ltb_ge].
      * assert (m * t <= 5764607523034234 * t) by nia. lia.
      * assert (5764607523034235 * t <= m * t) by nia. lia.
    + symmetry. apply Z.ltb_lt.
      assert (2 ^ 60 <= 2 ^ q) by (apply Z.pow_le_mono_r; lia).
      assert (v * 2 ^ 60 <= v * 2 ^ q) by nia. lia.
    + symmetry. apply Z.ltb_ge.
      assert (2 ^ q <= 2 ^ 58) by (apply Z.pow_le_mono_r; lia).
      assert (v * 2 ^ q <= v * 2 ^ 58) by nia. lia.
  - (* the result is at least 2^52: far above the threshold *)
    set (q := j - s) in *.
    assert (Hq : 0 < q) by (unfold q; lia).
    pose proof (pow2_pos s Hs) as HS.
    assert (HJq : 2 ^ j = 2 ^ s * 2 ^ q).
    { rewrite <- Z.pow_add_r by lia. f_equal. unfold q. lia. }
    assert (HQ : 2 <= 2 ^ q).
    { change 2 with (2 ^ 1) at 1. apply Z.pow_le_mono_r; lia. }
    assert (Hb : 2 * Z.abs (m * (t * 2 ^ q) - v) <= t * 2 ^ q).
    { rewrite HJq in Hbound.
      replace (m * (t * (2 ^ s * 2 ^ q)) - v * 2 ^ s)
        with (2 ^ s * (m * (t * 2 ^ q) - v)) in Hbound by ring.
      replace (t * (2 ^ s * 2 ^ q)) with (2 ^ s * (t * 2 ^ q)) in Hbound by ring.
      rewrite Z.abs_mul, (Z.abs_eq (2 ^ s)) in Hbound by lia.
      apply (Z.mul_le_mono_pos_l _ _ (2 ^ s)); lia. }
    destruct (Z.compare_spec q (- 59)) as [Heq|Hlt|Hgt]; try lia.
    symmetry. apply Z.ltb_ge.
    assert (Htq : t <= t * 2 ^ q) by nia.
    assert (2 ^ 52 * (t * 2 ^ q) <= m * (t * 2 ^ q)) by nia. lia.
Qed.

(** [float64(n)] for [0 < n < 2^53]: the integer itself, shifted up to 53
    digits. *)
Lemma f64_of_int_exact (n : Z) :
  0 < n < 2 ^ 53 ->
  exists (m : positive) (a : Z),
    f64_of_int n = S754_finite false m (- a)
    /\ 0 <= a <= 52 /\ Z.pos m = n * 2 ^ a /\ Zdigits2 (Z.pos m) = 53.
Proof.
  intros Hn. rewrite f64_of_int_pos by lia.
  pose proof (Zdigits2_bounds n ltac:(lia)) as [Hlo Hhi].
  assert (Hd1 : 1 <= Zdigits2 n).
  { rewrite Zdigits2_log2 by lia. pose proof (Z.log2_nonneg n). lia. }
  assert (Hd2 : Zdigits2 n <= 53).
  { destruct (Z.lt_ge_cases 53 (Zdigits2 n)) as [Hgt|]; [|lia].
    assert (2 ^ 53 <= 2 ^ (Zdigits2 n - 1)) by (apply Z.pow_le_mono_r; lia). lia. }
  set (d := Zdigits2 n) in *.
  rewrite (proj2 (Z.leb_le _ _)) by lia.
  pose proof (pow2_pos (53 - d) ltac:(lia)) as Hp.
  assert (E1 : 2 ^ 52 = 2 ^ (d - 1) * 2 ^ (53 - d)).
  { rewrite <- Z.pow_add_r by lia. f_equal. lia. }
  assert (E2 : 2 ^ 53 = 2 ^ d * 2 ^ (53 - d)).
  { rewrite <- Z.pow_add_r by lia. f_equal. lia. }
  assert (HN : 2 ^ 52 <= n * 2 ^ (53 - d) < 2 ^ 53) by (rewrite E1, E2; nia).
  exists (Z.to_pos (n * 2 ^ (53 - d))), (53 - d).
  rewrite Z2Pos.id by lia.
  split; [f_equal; lia|]. split; [lia|]. split; [done|].
  apply Zdigits2_unique; lia.
Qed.

(** For accumulator values and totals below [2^53], the float64 test of
    [aggregateStats] decides exactly whether the share is below 1%; a total
    of zero folds everything. *)
Lemma collapsed_exact (verbose : bool) (v t : Z) :
  0 <= v < 2 ^ 53 -> 0 <= t < 2 ^ 53 ->
  collapsed verbose v t = negb verbose && ((t =? 0) || (100 * v <? t)).
Proof.
  intros Hv Ht. unfold collapsed. f_equal.
  destruct (Z.eqb_spec t 0) as [->|Ht0]; [reflexivity|]. simpl.
  destruct (f64_of_int_exact t ltac:(lia)) as (my & b & Hft & Hb & Hmy & Hdy).
  rewrite Hft. unfold safeDivF. cbn [SFeqb SFcompare f64_zero].
  destruct (Z.eq_dec v 0) as [->|Hv0].
  { rewrite f64_of_int_zero. cbn. symmetry. apply Z.ltb_lt. lia. }
  destruct (f64_of_int_exact v ltac:(lia)) as (mx & a & Hfv & Ha & Hmx & Hdx).
  rewrite Hfv.
  destruct (f64_div_normal false false mx my (- a) (- b) Hdx Hdy ltac:(lia))
    as (Heq & Hn & HM).
  rewrite Heq. clear Heq.
  set (n := Zdigits2 (Z.pos mx * 2 ^ 53 / Z.pos my) - 53) in *.
  set (M := rne (Z.pos mx * 2 ^ 53) (Z.pos my * 2 ^ n)) in *.
  pose proof (pow2_pos n ltac:(lia)) as Hpn.
  pose proof (rne_half (Z.pos mx * 2 ^ 53) (Z.pos my * 2 ^ n) ltac:(lia)) as Hhalf.
  fold M in Hhalf.
  assert (Hbound : 2 * Z.abs (M * (t * 2 ^ (b + n)) - v * 2 ^ (a + 53))
                   <= t * 2 ^ (b + n)).
  { rewrite !Z.pow_add_r by lia. rewrite Hmx, Hmy in Hhalf.
    replace (M * (t * (2 ^ b * 2 ^ n)) - v * (2 ^ a * 2 ^ 53))
      with (M * (t * 2 ^ b * 2 ^ n) - v * 2 ^ a * 2 ^ 53) by ring.
    replace (t * (2 ^ b * 2 ^ n)) with (t * 2 ^ b * 2 ^ n) by ring. done. }
  simpl xorb. unfold roundedFloat.
  destruct (Z.ltb_spec M (2 ^ 53)) as [Hlt|Hge]; rewrite ltb_0_01.
  - rewrite Z2Pos.id by lia.
    replace (- a - - b - 53 + n) with (b + n - (a + 53)) by lia.
    apply threshold_compare; lia.
  - assert (M = 2 ^ 53) as HM53 by lia.
    replace (- a - - b - 53 + n + 1) with (b + n + 1 - (a + 53)) by lia.
    change (Z.pos (Z.to_pos (2 ^ 52))) with (2 ^ 52).
    apply threshold_compare; try lia.
    rewrite HM53 in Hbound.
    replace (b + n + 1) with (b + n + 1) by lia.
    rewrite (Z.pow_add_r 2 (b + n) 1) by lia.
    pose proof (pow2_pos (b + n) ltac:(lia)).
    replace (2 ^ 52 * (t * (2 ^ (b + n) * 2 ^ 1)) - v * 2 ^ (a + 53))
      with (2 ^ 53 * (t * 2 ^ (b + n)) - v * 2 ^ (a + 53)) by ring.
    nia.
Qed.

(** ** Shares *)

(** The share of a category in the grand total, as an exact fraction; it is
    0 when the total is 0. *)
Definition share (v tot : Z) : Q :=
  if tot =? 0 then 0%Q else Qmake v (Z.to_pos tot).

(** Whether the share is strictly below 1%. *)
Definition belowOnePercent (v tot : Z) : bool :=
  negb (Qle_bool (1 # 100) (share v tot)).

(** The categories that stay on their own, those that are folded, and the
    catch-all entry, which is there when the folded sum is positive. *)
Definition ownKeys (verbose : bool) (tot : Z) (m : gmap string Z) : list (string * Z) :=
  filter (fun kv => verbose = true \/ belowOnePercent (snd kv) tot = false)
         (map_to_list m).
Definition foldedKeys (verbose : bool) (tot : Z) (m : gmap string Z) : list (string * Z) :=
  filter (fun kv => verbose = false /\ belowOnePercent (snd kv) tot = true)
         (map_to_list m).
Definition catchAll (cfg : Config) (other : Z) : list FileStat :=
  if 0 <? other then [chosenEntry cfg "other" other] else [].

Lemma belowOnePercent_spec (v tot : Z) :
  0 <= tot -> belowOnePercent v tot = (tot =? 0) || (100 * v <? tot).
Proof.
  intros Ht. unfold belowOnePercent, share, Qle_bool.
  destruct (Z.eqb_spec tot 0) as [->|H0]; [reflexivity|]. simpl.
  rewrite Z2Pos.id by lia.
  destruct (Z.leb_spec (Z.pos 1 * tot) (v * 100)), (Z.ltb_spec (100 * v) tot);
    simpl; try done; lia.
Qed.

Lemma sumZ_elem_le (l : list Z) (x : Z) :
  Forall (fun v => 0 <= v) l -> x ∈ l -> x <= sumZ l.
Proof.
  intros Hall Hin. induction Hall as [|y l Hy Hl IH]; [by inv Hin|].
  simpl. pose proof (sumZ_nonneg l Hl).
  apply elem_of_cons in Hin as [->|Hin]; [lia|]. specialize (IH Hin). lia.
Qed.

Lemma filter_agree {A : Type} (P Q : A -> Prop) `{forall x, Decision (P x)}
    `{forall x, Decision (Q x)} (l : list A) :
  Forall (fun x => P x <-> Q x) l -> filter P l = filter Q l.
Proof.
  induction 1 as [|x l Hx Hl IH]; [done|].
  rewrite !filter_cons, IH.
  destruct (decide (P x)), (decide (Q x)); tauto.
Qed.

(** ** The command line *)

(** What an error of [parseArgs] says about the tokens. *)
Definition errorCause (e : argError) (toks : list string) : Prop :=
  match e with
  | MissingValue flag =>
      isValueFlag flag = true /\ List.last toks ""%string = flag
  | InvalidValue flag val =>
      (flag = "--minsize" \/ flag = "--maxsize")%string
      /\ ParseInt val = None
      /\ exists before after,
           toks = before ++ flag :: val :: after
           \/ toks = before ++ (flag ++ String "=" val)%string :: after
  end.

Lemma cutAt_join (s a b : string) :
  Contains s "=" = true -> cutAt "=" s = (a, b) -> s = (a ++ String "=" b)%string.
Proof.
  revert a b. induction s as [|c s IH]; intros a b Hc Hcut; [done|].
  cbn [cutAt] in Hcut. destruct (Ascii.eqb c "=") eqn:E.
  - apply Ascii.eqb_eq in E. subst c. by injection Hcut as <- <-.
  - destruct (cutAt "=" s) as [a' b'] eqn:Hs. injection Hcut as <- <-.
    change (String c a' ++ String "=" b')%string with (String c (a' ++ String "=" b')).
    f_equal. apply IH; [|done].
    cbn [Contains] in Hc. apply orb_true_iff in Hc as [Hc|Hc]; [|done].
    exfalso. cbn [String.prefix] in Hc.
    destruct (Ascii.ascii_dec "=" c) as [<-|]; [|done].
    by rewrite Ascii.eqb_refl in E.
Qed.

Lemma last_cons_cons {A} (x y : A) (l : list A) (d : A) :
  List.last (x :: y :: l) d = List.last (y :: l) d.
Proof. done. Qed.

Lemma errorCause_cons (e : argError) (t u : string) (toks : list string) :
  errorCause e (u :: toks) -> errorCause e (t :: u :: toks).
Proof.
  destruct e as [flag|flag val]; cbn [errorCause].
  - intros [? ?]. by rewrite last_cons_cons.
  - intros (Hf & Hp & before & after & H). split; [done|]. split; [done|].
    exists (t :: before), after. destruct H as [->| ->]; [left|right]; done.
Qed.

Lemma parseLoop_error_length (n : nat) :
  forall cfg toks e, (length toks <= n)%nat ->
    parseLoop cfg toks = PError e -> errorCause e toks.
Proof.
  induction n as [|n IH]; intros cfg toks e Hlen Herr.
  { destruct toks; [done|]. simpl in Hlen. lia. }
  destruct toks as [|arg rest]; [done|].
  assert (Hrest : forall c, parseLoop c rest = PError e -> errorCause e (arg :: rest)).
  { intros c Hc. destruct rest as [|u rest]; [done|].
    apply errorCause_cons. apply (IH c); [simpl in *; lia|done]. }
  assert (Hrest2 : forall c v r, rest = v :: r -> parseLoop c r = PError e ->
                                 errorCause e (arg :: v :: r)).
  { intros c v r -> Hc. destruct r as [|u r]; [done|].
    do 2 apply errorCause_cons. apply (IH c); [simpl in *; lia|done]. }
  cbn [parseLoop] in Herr.
  destruct (Contains arg "=") eqn:Hc.
  - destruct (cutAt "=" arg) as [key val] eqn:Hcut.
    pose proof (cutAt_join _ _ _ Hc Hcut) as Harg.
    repeat match type of Herr with
           | (if String.eqb key ?f then _ else _) = _ =>
               let E := fresh "E" in
               destruct (String.eqb key f) eqn:E;
               [apply String.eqb_eq in E|]
           end; try (exact (Hrest _ Herr)).
    + destruct (ParseInt val) eqn:Hp; [exact (Hrest _ Herr)|].
      injection Herr as <-. subst key. cbn [errorCause].
      split; [by left|]. split; [done|].
      exists [], rest. right. by rewrite Harg.
    + destruct (ParseInt val) eqn:Hp; [exact (Hrest _ Herr)|].
      injection Herr as <-. subst key. cbn [errorCause].
      split; [by right|]. split; [done|].
      exists [], rest. right. by rewrite Harg.
  - repeat match type of Herr with
           | (if String.eqb arg ?f then _ else _) = _ =>
               let E := fresh "E" in
               destruct (String.eqb arg f) eqn:E;
               [apply String.eqb_eq in E|]
           end; try (exact (Hrest _ Herr)); try done.
    + destruct rest as [|v r]; [injection Herr as <-; by subst arg|].
      destruct (ParseInt v) eqn:Hp; [exact (Hrest2 _ _ _ eq_refl Herr)|].
      injection Herr as <-. subst arg. cbn [errorCause].
      split; [by left|]. split; [done|]. exists [], r. by left.
    + destruct rest as [|v r]; [injection Herr as <-; by subst arg|].
      destruct (ParseInt v) eqn:Hp; [exact (Hrest2 _ _ _ eq_refl Herr)|].
      injection Herr as <-. subst arg. cbn [errorCause].
      split; [by right|]. split; [done|]. exists [], r. by left.
    + destruct rest as [|v r]; [injection Herr as <-; by subst arg|].
      exact (Hrest2 _ _ _ eq_refl Herr).
    + destruct rest as [|v r]; [injection Herr as <-; by subst arg|].
      exact (Hrest2 _ _ _ eq_refl Herr).
Qed.

(** * The claims of the specification *)

(** ** Extension of a dot file *)

(** C6 (counterexample).  The file [.bashrc] starts with a dot and has no
    further dot; its extension is the whole name and its key is [bashrc],
    not the sentinel, and a scan that includes hidden files counts it under
    that key. *)
Lemma dotfile_key_counterexample :
  HasPrefix ".bashrc" "." = true
  /\ Ext ".bashrc" = ".bashrc"%string
  /\ extKey ".bashrc" <> "[noext]"%string
  /\ counts (fst (walkDir (setIncludeHidden defaultConfig)
                    (fun _ => LstatOk (Folder "." [File ".bashrc" (InfoOk 10)] None))))
     = {[ "bashrc"%string := 1 ]}.
Proof. repeat split; try done. Qed.

(** C6 (amended).  For a file whose base name is a dot followed by a text
    with no further dot, the extension that [filepath.Ext] extracts is the
    whole name, the extension key is the name without its leading dot, and
    when the file passes the filters it is accounted under that key; the
    sentinel is the key of the names that have no dot at all. *)
Theorem dotfile_key (cfg : Config) (p : path) (st : walkState) (rest : string) (size : Z) :
  ~ In "."%char (list_ascii_of_string rest) ->
  ~ In "/"%char (list_ascii_of_string rest) ->
  Ext (String "." rest) = String "." rest
  /\ extKey (String "." rest) = rest
  /\ extKey rest = "[noext]"%string
  /\ (shouldCount cfg (String "." rest) size = true ->
      visit cfg p (Some (File (String "." rest) (InfoOk size))) None st
      = (account st rest size, WNil)).
Proof.
  intros Hdot Hsep.
  assert (Hkey : extKey (String "." rest) = rest).
  { unfold extKey. rewrite Ext_dotfile by done. apply TrimPrefix_dot. }
  repeat split; [by apply Ext_dotfile|done| |].
  - unfold extKey. by rewrite Ext_no_dot.
  - intros Hc. by rewrite visit_file, Hc, Hkey.
Qed.

Lemma dotfile_key_witness :
  Ext ".bashrc" = ".bashrc"%string
  /\ extKey ".bashrc" = "bashrc"%string
  /\ extKey "bashrc" = "[noext]"%string
  /\ (shouldCount (setIncludeHidden defaultConfig) ".bashrc" 10 = true ->
      visit (setIncludeHidden defaultConfig) ["."%string]
            (Some (File ".bashrc" (InfoOk 10))) None initState
      = (account initState "bashrc" 10, WNil)).
Proof.
  apply (dotfile_key (setIncludeHidden defaultConfig) ["."%string] initState "bashrc" 10).
  - simpl. intros H. repeat destruct H as [H|H]; try discriminate H; done.
  - simpl. intros H. repeat destruct H as [H|H]; try discriminate H; done.
Defined.

(** ** Positional tokens of the command line *)

(** A token that has no [=] and is none of the known flags. *)
Definition positional (tok : string) : Prop :=
  Contains tok "=" = false /\ isKnownFlag tok = false.

(** The tokens of a command line that are in flag position (not the value
    that a preceding [--minsize], [--maxsize], [--exclude] or [--excludedir]
    consumes), have no [=] and are no known flag, in order; [skip] says that
    the first token is the value of a flag. *)
Fixpoint positionalTokens (skip : bool) (toks : list string) : list string :=
  match toks with
  | [] => []
  | tok :: rest =>
      if skip then positionalTokens false rest
      else if Contains tok "=" then positionalTokens false rest
      else if isValueFlag tok then positionalTokens true rest
      else if isKnownFlag tok then positionalTokens false rest
      else tok :: positionalTokens false rest
  end.

(** C10 (counterexample).  The tokens [src] and [abc] have no [=] and are no
    known flags; after [--exclude] the first is taken as the value of the
    flag and the directory stays the default, and after [--minsize] the
    second is reported as an error. *)
Lemma positional_token_counterexample :
  positional "src" /\ positional "abc"
  /\ match parseArgs ["dstat"; "--exclude"; "src"]%string with
     | PConfig c => Dir c = "."%string /\ Exclude c = {[ "src"%string ]}
     | _ => False
     end
  /\ parseArgs ["dstat"; "--minsize"; "abc"]%string
     = PError (InvalidValue "--minsize" "abc").
Proof. repeat split; done. Qed.

Lemma last_cons_default {A : Type} (x d : A) (l : list A) :
  List.last (x :: l) d = List.last l x.
Proof.
  revert x d. induction l as [|y l IH]; intros x d; [done|].
  change (List.last (x :: y :: l) d) with (List.last (y :: l) d).
  by rewrite (IH y d), (IH y x).
Qed.

Lemma parseLoop_dir_length (n : nat) :
  forall cfg toks cfg', (length toks <= n)%nat ->
    parseLoop cfg toks = PConfig cfg' ->
    Dir cfg' = List.last (positionalTokens false toks) (Dir cfg).
Proof.
  induction n as [|n IH]; intros cfg toks cfg' Hlen Hok.
  { destruct toks; [|simpl in Hlen; lia]. by injection Hok as <-. }
  destruct toks as [|arg rest]; [by injection Hok as <-|].
  assert (Hrest : forall c, Dir c = Dir cfg -> parseLoop c rest = PConfig cfg' ->
            Dir cfg' = List.last (positionalTokens false rest) (Dir cfg)).
  { intros c <- Hc. apply IH; [simpl in *; lia|done]. }
  assert (Hrest2 : forall c v r, rest = v :: r -> Dir c = Dir cfg ->
            parseLoop c r = PConfig cfg' ->
            Dir cfg' = List.last (positionalTokens false r) (Dir cfg)).
  { intros c v r -> <- Hc. apply IH; [simpl in *; lia|done]. }
  cbn [parseLoop] in Hok. cbn [positionalTokens].
  destruct (Contains arg "=") eqn:Hc.
  - destruct (cutAt "=" arg) as [key val].
    repeat match type of Hok with
           | (if ?b then _ else _) = _ => destruct b
           end;
      try destruct (ParseInt val); try done; refine (Hrest _ _ Hok); reflexivity.
  - repeat match type of Hok with
           | (if String.eqb arg ?f then _ else _) = _ =>
               let E := fresh "E" in
               destruct (String.eqb arg f) eqn:E;
               [apply String.eqb_eq in E; subst arg; cbn [isValueFlag isKnownFlag]|]
           end; try done; try (refine (Hrest _ _ Hok); reflexivity).
    + destruct rest as [|v r]; [done|]. cbn [positionalTokens].
      destruct (ParseInt v); [|done]. refine (Hrest2 _ _ _ eq_refl _ Hok); reflexivity.
    + destruct rest as [|v r]; [done|]. cbn [positionalTokens].
      destruct (ParseInt v); [|done]. refine (Hrest2 _ _ _ eq_refl _ Hok); reflexivity.
    + destruct rest as [|v r]; [done|]. cbn [positionalTokens]. refine (Hrest2 _ _ _ eq_refl _ Hok); reflexivity.
    + destruct rest as [|v r]; [done|]. cbn [positionalTokens]. refine (Hrest2 _ _ _ eq_refl _ Hok); reflexivity.
    + assert (isValueFlag arg = false) as ->.
      { unfold isValueFlag, valueFlags. cbn [existsb]. by rewrite E5, E6, E7, E8. }
      assert (isKnownFlag arg = false) as ->.
      { unfold isKnownFlag, knownFlags. cbn [existsb].
        by rewrite E, E0, E1, E2, E3, E4, E5, E6, E7, E8, E9, E10. }
      rewrite last_cons_default.
      apply (IH (setDir cfg arg)); [simpl in *; lia|done].
Qed.

(** C10 (amended).  When the loop of [parseArgs] reaches, in flag position,
    a token that has no [=] and is no known flag (such as [--bogus]), it
    records the token as the target directory in place of the one recorded
    before and goes on with the next token.  When only such tokens follow,
    the result is a configuration whose directory is the last of them; and
    whatever follows, flags and their values included, the directory of the
    configuration that results is the last such token in flag position, the
    token itself when none comes after it.  An error, if there is one, is
    caused by the tokens that follow, not by the token. *)
Theorem positional_token_sets_directory (cfg : Config) (tok : string) (rest : list string) :
  positional tok ->
  parseLoop cfg (tok :: rest) = parseLoop (setDir cfg tok) rest
  /\ (Forall positional rest ->
      parseLoop cfg (tok :: rest) = PConfig (setDir cfg (List.last rest tok)))
  /\ (forall cfg', parseLoop cfg (tok :: rest) = PConfig cfg' ->
        Dir cfg' = List.last (positionalTokens false rest) tok)
  /\ (forall e, parseLoop cfg (tok :: rest) = PError e ->
        errorCause e rest).
Proof.
  intros Htok.
  assert (Hstep : forall c t r, positional t ->
            parseLoop c (t :: r) = parseLoop (setDir c t) r).
  { intros c t r [Heq Hflag]. unfold isKnownFlag in Hflag. simpl in Hflag.
    repeat (apply orb_false_iff in Hflag as [? Hflag]).
    cbn [parseLoop]. rewrite Heq.
    repeat match goal with H : String.eqb t _ = false |- _ => rewrite H; clear H end.
    done. }
  split; [by apply Hstep|]. split.
  - revert cfg tok Htok. induction rest as [|t r IH]; intros cfg tok Htok Hall.
    + by rewrite Hstep.
    + rewrite Hstep by done. apply Forall_cons in Hall as [Ht Hr].
      rewrite IH by done. f_equal. unfold setDir. simpl. f_equal.
      clear. revert t. induction r as [|x r IHr]; intros t; [done|].
      simpl in *. destruct r; [done|apply IHr].
  - split.
    + intros cfg' Hok. rewrite Hstep in Hok by done.
      exact (parseLoop_dir_length (length rest) _ _ _ (le_n _) Hok).
    + intros e Herr. rewrite Hstep in Herr by done.
      exact (parseLoop_error_length (length rest) _ _ _ (le_n _) Herr).
Qed.

Lemma positional_token_sets_directory_witness :
  parseLoop defaultConfig ["--bogus"; "--exclude"; "lib"; "src"; "--bysize"]%string
  = parseLoop (setDir defaultConfig "--bogus") ["--exclude"; "lib"; "src"; "--bysize"]%string
  /\ (Forall positional ["--exclude"; "lib"; "src"; "--bysize"]%string ->
      parseLoop defaultConfig ["--bogus"; "--exclude"; "lib"; "src"; "--bysize"]%string
      = PConfig (setDir defaultConfig
                   (List.last ["--exclude"; "lib"; "src"; "--bysize"]%string
                              "--bogus"%string)))
  /\ (forall cfg',
        parseLoop defaultConfig ["--bogus"; "--exclude"; "lib"; "src"; "--bysize"]%string
        = PConfig cfg' ->
        Dir cfg' = List.last (positionalTokens false
                                ["--exclude"; "lib"; "src"; "--bysize"]%string)
                             "--bogus"%string)
  /\ (forall e,
        parseLoop defaultConfig ["--bogus"; "--exclude"; "lib"; "src"; "--bysize"]%string
        = PError e ->
        errorCause e ["--exclude"; "lib"; "src"; "--bysize"]%string).
Proof.
  apply (positional_token_sets_directory defaultConfig "--bogus"
           ["--exclude"; "lib"; "src"; "--bysize"]%string).
  split; reflexivity.
Defined.

(** After [--bogus], the value [lib] of [--exclude] is passed over and [src]
    is the directory, also with a flag after it. *)
Example last_positional_token_run :
  positionalTokens false ["--bogus"; "--exclude"; "lib"; "src"; "--bysize"]%string
  = ["--bogus"; "src"]%string
  /\ parseArgs ["dstat"; "--bogus"; "--exclude"; "lib"; "src"; "--bysize"]%string
     = PConfig (setBySize (setDir (setExclude defaultConfig {[ "lib"%string ]}) "src")).
Proof. split; reflexivity. Qed.

(** ** A root that cannot be walked *)

(** A file system in which no path exists. *)
Definition noSuchRoot : FileSystem := fun _ => LstatErr ErrNotExist.

(** A file system whose root is a directory that cannot be read. *)
Definition unreadableRoot : FileSystem :=
  fun _ => LstatOk (Folder "." [] (Some ErrPermission)).

(** C1 (what the code does).  When [os.Lstat] of the root fails, the closure
    of [walkDir] logs the error as a skipped entry and returns nil, so
    [walkDir] returns empty accumulators and no error, and the run ends with
    the output of an empty scan and exit status 0.  No walk returns an
    error at all: the branch of [main] that reports one is never taken. *)
Theorem root_error_is_skipped (R : RangeOrder) (S : SliceSorter) (cfg : Config)
    (fs : FileSystem) (e : oserror) :
  fs (Dir cfg) = LstatErr e ->
  walkDir cfg fs = (mkWalkState ∅ ∅ 0 0 [LogSkipping [Dir cfg] e], None)
  /\ runConfig R S cfg fs
     = mkOutcome (if SizeOnly cfg then ["0 B"%string]
                  else sizeLine cfg 0 ++ [noMatchMessage])
                 [LogSkipping [Dir cfg] e] 0
  /\ (forall fs', snd (walkDir cfg fs') = None).
Proof.
  intros Hfs. pose proof (walkDir_lstat_error cfg fs e Hfs) as Hw.
  split; [done|]. split; [|apply walkDir_no_error].
  unfold runConfig. rewrite Hw. simpl. by destruct (SizeOnly cfg).
Qed.

Lemma root_error_is_skipped_witness :
  walkDir (setDir defaultConfig "/nonexistent") noSuchRoot
  = (mkWalkState ∅ ∅ 0 0 [LogSkipping ["/nonexistent"%string] ErrNotExist], None)
  /\ runConfig forwardOrder insertionSorter (setDir defaultConfig "/nonexistent") noSuchRoot
     = mkOutcome [noMatchMessage] [LogSkipping ["/nonexistent"%string] ErrNotExist] 0
  /\ (forall fs', snd (walkDir (setDir defaultConfig "/nonexistent") fs') = None).
Proof.
  apply (root_error_is_skipped forwardOrder insertionSorter
           (setDir defaultConfig "/nonexistent") noSuchRoot ErrNotExist).
  reflexivity.
Defined.

(** ** A scan that matches no file *)

(** C5 (counterexample).  With [--sizeonly], the scan of an empty directory
    prints the size and nothing else: the message is not printed. *)
Lemma no_match_sizeonly_counterexample :
  countedFiles (setSizeOnly defaultConfig) (Folder "." [] None) = []
  /\ main forwardOrder insertionSorter ["dstat"; "--sizeonly"]%string
          (fun _ => LstatOk (Folder "." [] None))
     = mkOutcome ["0 B"%string] [] 0
  /\ ~ In noMatchMessage
        (stdout (main forwardOrder insertionSorter ["dstat"; "--sizeonly"]%string
                      (fun _ => LstatOk (Folder "." [] None)))).
Proof.
  repeat split; try done.
  intros [H|[]]. discriminate H.
Qed.

(** C5 (amended).  For every run over a directory in which no file matches
    the filter criteria, the program exits with status 0; it prints the
    message "No files matched criteria." (after the size line when [--size]
    is set) unless [--sizeonly] is set, and with [--sizeonly] it prints only
    the size [0 B]. *)
Theorem no_match_message (R : RangeOrder) (S : SliceSorter) (cfg : Config)
    (fs : FileSystem) (d : fsnode) :
  fs (Dir cfg) = LstatOk d ->
  countedFiles cfg d = [] ->
  exitCode (runConfig R S cfg fs) = 0
  /\ stdout (runConfig R S cfg fs)
     = if SizeOnly cfg then ["0 B"%string] else sizeLine cfg 0 ++ [noMatchMessage].
Proof.
  intros Hfs Hnone.
  pose proof (walkDir_counted cfg fs d Hfs) as Hdata.
  pose proof (walkDir_no_error cfg fs) as Herr.
  rewrite Hnone in Hdata. unfold runConfig.
  destruct (walkDir cfg fs) as [st err]. simpl in Hdata, Herr. subst err.
  unfold dataOf in Hdata. simpl in Hdata.
  injection Hdata as Hc Hs Ht Hb. rewrite Ht, Hb. simpl.
  by destruct (SizeOnly cfg).
Qed.

Lemma no_match_message_witness :
  exitCode (runConfig forwardOrder insertionSorter defaultConfig
              (fun _ => LstatOk (Folder "." [File ".hidden" (InfoOk 3)] None))) = 0
  /\ stdout (runConfig forwardOrder insertionSorter defaultConfig
               (fun _ => LstatOk (Folder "." [File ".hidden" (InfoOk 3)] None)))
     = [noMatchMessage].
Proof.
  apply (no_match_message forwardOrder insertionSorter defaultConfig
           (fun _ => LstatOk (Folder "." [File ".hidden" (InfoOk 3)] None))
           (Folder "." [File ".hidden" (InfoOk 3)] None)); reflexivity.
Defined.

(** The same holds for a root that exists and cannot be read. *)
Example unreadable_root_run :
  runConfig forwardOrder insertionSorter defaultConfig unreadableRoot
  = mkOutcome [noMatchMessage] [LogSkipping ["."%string] ErrPermission] 0.
Proof. reflexivity. Qed.

(** ** The entries that aggregateStats returns *)

(** C8.  The entries that [aggregateStats] returns are non-increasing in the
    chosen metric from first to last: the size when sort-by-size is active,
    the count otherwise. *)
Theorem aggregateStats_sorted (R : RangeOrder) (S : SliceSorter) (cfg : Config)
    (counts sizeCounts : gmap string Z) (total totalBytes : Z) :
  StronglySorted (fun a b => metric cfg b <= metric cfg a)
    (aggregateStats R S cfg counts sizeCounts total totalBytes).
Proof.
  rewrite aggregateStats_unfold.
  eapply StronglySorted_weaken; [|apply (sortSlice_sorted S), lessBy_strictWeak].
  intros a b Hab. unfold lessBy in Hab. simpl in Hab. lia.
Qed.

(** A tree with two files of [2^62] bytes each. *)
Definition exbibyteFiles : FileSystem :=
  fun _ => LstatOk (Folder "." [File "x.a" (InfoOk (2 ^ 62));
                                File "y.b" (InfoOk (2 ^ 62))] None).

(** C2 (counterexample).  In size mode over two files of [2^62] bytes the
    byte total wraps around to [- 2^63]; both categories have a negative
    share and are folded, the sum folded wraps to [- 2^63] too and is not
    positive, so that no entry is returned: the sizes of the entries add up
    to zero, not to the total, and the run prints the heading alone. *)
Lemma aggregateStats_sum_counterexample :
  let cfg := setBySize defaultConfig in
  let st := fst (walkDir cfg exbibyteFiles) in
  sizeCounts st = {[ "a"%string := 2 ^ 62; "b"%string := 2 ^ 62 ]}
  /\ totalBytes st = - 2 ^ 63
  /\ aggregateStats forwardOrder insertionSorter cfg
       (counts st) (sizeCounts st) (total st) (totalBytes st) = []
  /\ sumZ (map Size (aggregateStats forwardOrder insertionSorter cfg
                       (counts st) (sizeCounts st) (total st) (totalBytes st)))
     <> totalBytes st
  /\ stdout (runConfig forwardOrder insertionSorter cfg exbibyteFiles)
     = ["File type breakdown:"%string].
Proof. repeat split; vm_compute; done. Qed.

(** C2 (amended).  For an accumulator whose values are not negative and
    whose grand total is the sum of its values (within int64), the counts of
    the entries
    that [aggregateStats] returns in count mode, the entry "other" included,
    add up to the total file count, and the sizes of the entries it returns
    in size mode add up to the total byte size. *)
Theorem aggregateStats_sum (R : RangeOrder) (S : SliceSorter) (cfg : Config)
    (counts sizeCounts : gmap string Z) (total totalBytes : Z) :
  map_Forall (fun _ v => 0 <= v) (chosenMap cfg counts sizeCounts) ->
  chosenTotal cfg total totalBytes = mapTotal (chosenMap cfg counts sizeCounts) ->
  chosenTotal cfg total totalBytes < 2^63 ->
  (BySize cfg = false ->
   sumZ (map Count (aggregateStats R S cfg counts sizeCounts total totalBytes)) = total)
  /\ (BySize cfg = true ->
      sumZ (map Size (aggregateStats R S cfg counts sizeCounts total totalBytes))
      = totalBytes).
Proof.
  intros Hpos Htot Hmax.
  assert (Hsum : sumZ (map (metric cfg)
                   (aggregateStats R S cfg counts sizeCounts total totalBytes))
                 = chosenTotal cfg total totalBytes).
  { rewrite aggregateStats_unfold.
    rewrite (sumZ_perm _ _ (Permutation_map (metric cfg) (sortSlice_perm S _ _))).
    rewrite preSort_metric_sum.
    set (kvs := rangeOf R (chosenMap cfg counts sizeCounts)).
    set (tot := chosenTotal cfg total totalBytes).
    assert (Hall : sumZ (map snd kvs) = tot).
    { unfold tot. rewrite Htot. unfold mapTotal.
      apply sumZ_perm, Permutation_map, rangeOf_perm. }
    assert (Hnn : Forall (fun v => 0 <= v) (map snd kvs)).
    { apply Forall_forall. intros v Hv.
      apply list_elem_of_fmap in Hv as ([k v'] & -> & Hkv).
      unfold kvs in Hkv. rewrite rangeOf_perm in Hkv.
      apply elem_of_map_to_list in Hkv. by apply (Hpos k v'). }
    assert (Hk : 0 <= sumZ (map snd (keptOf (Verbose cfg) tot kvs))).
    { apply sumZ_nonneg. apply Forall_forall. intros v Hv.
      apply list_elem_of_fmap in Hv as (kv & -> & Hkv).
      apply list_elem_of_filter in Hkv as [_ Hkv].
      rewrite Forall_forall in Hnn. apply Hnn. by apply list_elem_of_fmap_2. }
    assert (Hf : 0 <= sumZ (map snd (foldedOf (Verbose cfg) tot kvs))).
    { apply sumZ_nonneg. apply Forall_forall. intros v Hv.
      apply list_elem_of_fmap in Hv as (kv & -> & Hkv).
      apply list_elem_of_filter in Hkv as [_ Hkv].
      rewrite Forall_forall in Hnn. apply Hnn. by apply list_elem_of_fmap_2. }
    pose proof (kept_folded_sum (Verbose cfg) tot kvs) as Hsplit.
    rewrite wrap64_id by (unfold in_int64; fold tot in Hmax; lia). lia. }
  unfold metric, chosenTotal in Hsum.
  split; intros Hmode; rewrite Hmode in Hsum; exact Hsum.
Qed.

Lemma aggregateStats_sum_witness :
  let counts : gmap string Z := {[ "go"%string := 199; "md"%string := 1 ]} in
  (BySize defaultConfig = false ->
   sumZ (map Count (aggregateStats forwardOrder insertionSorter defaultConfig
                      counts ∅ 200 0)) = 200)
  /\ (BySize defaultConfig = true ->
      sumZ (map Size (aggregateStats forwardOrder insertionSorter defaultConfig
                        counts ∅ 200 0)) = 0).
Proof.
  apply (aggregateStats_sum forwardOrder insertionSorter defaultConfig
           {[ "go"%string := 199; "md"%string := 1 ]} ∅ 200 0).
  - apply map_Forall_to_list. vm_compute. repeat constructor; discriminate.
  - reflexivity.
  - reflexivity.
Defined.

(** ** Two runs over the same tree *)

(** A tree with one file of extension [a] and one of extension [b]. *)
Definition twoFiles : FileSystem :=
  fun _ => LstatOk (Folder "." [File "x.a" (InfoOk 5); File "y.b" (InfoOk 5)] None).

(** C4 (counterexample).  The two categories tie in both metrics.  A run in
    which [range] yields [a] first lists [a] before [b]; a run in which it
    yields [b] first lists [b] before [a]: the two outputs differ. *)
Lemma tie_order_counterexample :
  scanStats forwardOrder insertionSorter defaultConfig twoFiles
  = [byCountEntry "a" 1; byCountEntry "b" 1]
  /\ scanStats backwardOrder insertionSorter defaultConfig twoFiles
     = [byCountEntry "b" 1; byCountEntry "a" 1]
  /\ stdout (runConfig forwardOrder insertionSorter defaultConfig twoFiles)
     <> stdout (runConfig backwardOrder insertionSorter defaultConfig twoFiles).
Proof.
  split; [reflexivity|]. split; [reflexivity|].
  vm_compute. intros H. discriminate H.
Qed.

(** C4 (amended).  Two runs over the same tree with the same configuration
    yield the same entries, and the same sequence of values of the chosen
    metric from first to last; entries whose metric is equal may come in a
    different order.  When no two entries tie, the two runs yield the same
    list and the same output. *)
Theorem scan_same_up_to_ties (R1 R2 : RangeOrder) (S1 S2 : SliceSorter)
    (cfg : Config) (fs : FileSystem) :
  scanStats R1 S1 cfg fs ≡ₚ scanStats R2 S2 cfg fs
  /\ map (metric cfg) (scanStats R1 S1 cfg fs) = map (metric cfg) (scanStats R2 S2 cfg fs)
  /\ ((forall a b, a ∈ scanStats R1 S1 cfg fs -> b ∈ scanStats R1 S1 cfg fs ->
                   metric cfg a = metric cfg b -> a = b) ->
      scanStats R1 S1 cfg fs = scanStats R2 S2 cfg fs
      /\ runConfig R1 S1 cfg fs = runConfig R2 S2 cfg fs).
Proof.
  assert (Hperm : scanStats R1 S1 cfg fs ≡ₚ scanStats R2 S2 cfg fs).
  { unfold scanStats. rewrite !aggregateStats_unfold, !sortSlice_perm.
    apply preSort_perm. }
  pose proof (fun R S => aggregateStats_sorted R S cfg
                (counts (fst (walkDir cfg fs))) (sizeCounts (fst (walkDir cfg fs)))
                (total (fst (walkDir cfg fs))) (totalBytes (fst (walkDir cfg fs))))
    as Hsorted.
  split; [done|]. split.
  - assert (Hanti : AntiSymm (=) (fun x y : Z => y <= x)) by (intros x y ??; lia).
    apply (StronglySorted_unique (fun x y : Z => y <= x)).
    + apply (StronglySorted_fmap _ (fun a b => metric cfg b <= metric cfg a));
        [done|apply Hsorted].
    + apply (StronglySorted_fmap _ (fun a b => metric cfg b <= metric cfg a));
        [done|apply Hsorted].
    + by apply Permutation_map.
  - intros Hties.
    assert (Heq : scanStats R1 S1 cfg fs = scanStats R2 S2 cfg fs).
    { apply (StronglySorted_unique_strong
               (fun a b => metric cfg b <= metric cfg a));
        [|apply Hsorted|apply Hsorted|done].
      intros a b Ha Hb Hab Hba. apply Hties; [done| |lia].
      by rewrite Hperm. }
    split; [done|].
    unfold scanStats in Heq. unfold runConfig.
    destruct (walkDir cfg fs) as [st err]. simpl in Heq. by rewrite Heq.
Qed.

(** ** Human-readable sizes *)

(** X20 (the sentence of C9).  For a byte count [b] of int64 that is not
    negative, [humanReadableSize] prints the integer and the suffix [B] when [b] is
    below 1024; otherwise it chooses the largest unit among KB, MB, GB and
    TB (powers of 1024) that [b] reaches and prints [b], as float64, divided
    by the unit and rounded to two decimals, then a space and the suffix of
    the unit.  The conversion to float64 is exact up to [2^53], so that 2048
    bytes print as [2.00 KB]. *)
Theorem humanReadableSize_spec (b : Z) :
  0 <= b < 2 ^ 63 ->
  (b < KB -> humanReadableSize b = showZ b +:+ " B")
  /\ (KB <= b ->
      exists (U : Z) (suffix : string),
        In (U, suffix) units /\ U <= b
        /\ (forall U' s', In (U', s') units -> U' <= b -> U' <= U)
        /\ humanReadableSize b
           = twoDecimals (rne (100 * nearestF64 b) U) +:+ " " +:+ suffix
        /\ 2 * Z.abs (rne (100 * nearestF64 b) U * U - 100 * nearestF64 b) <= U)
  /\ (b <= 2 ^ 53 -> nearestF64 b = b)
  /\ humanReadableSize 2048 = "2.00 KB"%string.
Proof.
  intros Hb.
  assert (HKB : KB = 2 ^ 10) by reflexivity.
  assert (HMB : MB = 2 ^ 20) by reflexivity.
  assert (HGB : GB = 2 ^ 30) by reflexivity.
  assert (HTB : TB = 2 ^ 40) by reflexivity.
  split; [|split; [|split; [|reflexivity]]].
  - intros Hlt. unfold humanReadableSize.
    rewrite !(proj2 (Z.leb_gt _ _)) by lia. done.
  - intros Hge.
    assert (Hlargest : forall U suffix, In (U, suffix) units -> U <= b ->
              (forall U' s', In (U', s') units -> U' <= b -> U' <= U) ->
              humanReadableSize b
              = twoDecimals (rne (100 * nearestF64 b) U) +:+ " " +:+ suffix ->
              exists (U : Z) (suffix : string),
                In (U, suffix) units /\ U <= b
                /\ (forall U' s', In (U', s') units -> U' <= b -> U' <= U)
                /\ humanReadableSize b
                   = twoDecimals (rne (100 * nearestF64 b) U) +:+ " " +:+ suffix
                /\ 2 * Z.abs (rne (100 * nearestF64 b) U * U - 100 * nearestF64 b) <= U).
    { intros U suffix HU HUb Hmax Hhrs. exists U, suffix.
      repeat split; try done. apply rne_half.
      simpl in HU. destruct HU as [[= <- _]|[[= <- _]|[[= <- _]|[[= <- _]|[]]]]]; lia. }
    assert (Hin : forall U' s', In (U', s') units ->
              U' = KB \/ U' = MB \/ U' = GB \/ U' = TB).
    { intros U' s' HU. simpl in HU.
      destruct HU as [[= <- _]|[[= <- _]|[[= <- _]|[[= <- _]|[]]]]]; tauto. }
    destruct (Z.le_gt_cases TB b) as [HT|HT].
    { apply (Hlargest TB "TB"%string); [simpl; tauto|done| |].
      - intros U' s' HU _. destruct (Hin U' s' HU) as [->|[->|[->| ->]]]; lia.
      - unfold humanReadableSize. rewrite (proj2 (Z.leb_le TB b)) by lia.
        rewrite HTB. rewrite fmt_size_in_unit by (lia || done || tauto). done. }
    destruct (Z.le_gt_cases GB b) as [HG|HG].
    { apply (Hlargest GB "GB"%string); [simpl; tauto|done| |].
      - intros U' s' HU Hle. destruct (Hin U' s' HU) as [->|[->|[->| ->]]]; lia.
      - unfold humanReadableSize. rewrite (proj2 (Z.leb_gt TB b)) by lia.
        rewrite (proj2 (Z.leb_le GB b)) by lia.
        rewrite HGB. rewrite fmt_size_in_unit by (lia || done || (left; lia)). done. }
    destruct (Z.le_gt_cases MB b) as [HM|HM].
    { apply (Hlargest MB "MB"%string); [simpl; tauto|done| |].
      - intros U' s' HU Hle. destruct (Hin U' s' HU) as [->|[->|[->| ->]]]; lia.
      - unfold humanReadableSize. rewrite (proj2 (Z.leb_gt TB b)) by lia.
        rewrite (proj2 (Z.leb_gt GB b)) by lia.
        rewrite (proj2 (Z.leb_le MB b)) by lia.
        rewrite HMB. rewrite fmt_size_in_unit by (lia || done || (left; lia)). done. }
    apply (Hlargest KB "KB"%string); [simpl; tauto|done| |].
    + intros U' s' HU Hle. destruct (Hin U' s' HU) as [->|[->|[->| ->]]]; lia.
    + unfold humanReadableSize. rewrite (proj2 (Z.leb_gt TB b)) by lia.
      rewrite (proj2 (Z.leb_gt GB b)) by lia.
      rewrite (proj2 (Z.leb_gt MB b)) by lia.
      rewrite (proj2 (Z.leb_le KB b)) by lia.
      rewrite HKB. rewrite fmt_size_in_unit by (lia || done || (left; lia)). done.
  - intros Hsmall. apply nearestF64_small. lia.
Qed.

Lemma humanReadableSize_spec_witness :
  (1536 < KB -> humanReadableSize 1536 = showZ 1536 +:+ " B")
  /\ (KB <= 1536 ->
      exists (U : Z) (suffix : string),
        In (U, suffix) units /\ U <= 1536
        /\ (forall U' s', In (U', s') units -> U' <= 1536 -> U' <= U)
        /\ humanReadableSize 1536
           = twoDecimals (rne (100 * nearestF64 1536) U) +:+ " " +:+ suffix
        /\ 2 * Z.abs (rne (100 * nearestF64 1536) U * U - 100 * nearestF64 1536) <= U)
  /\ (1536 <= 2 ^ 53 -> nearestF64 1536 = 1536)
  /\ humanReadableSize 2048 = "2.00 KB"%string.
Proof. apply (humanReadableSize_spec 1536). lia. Defined.

(** The sizes just below and at a unit, and the largest int64. *)
Example humanReadableSize_examples :
  humanReadableSize 0 = "0 B"%string
  /\ humanReadableSize 1023 = "1023 B"%string
  /\ humanReadableSize 1024 = "1.00 KB"%string
  /\ humanReadableSize 1536 = "1.50 KB"%string
  /\ humanReadableSize (1024 * 1024 - 1) = "1024.00 KB"%string
  /\ humanReadableSize (5 * GB) = "5.00 GB"%string
  /\ humanReadableSize (2 ^ 63 - 1) = "8388608.00 TB"%string.
Proof. repeat split; reflexivity. Qed.

(** ** The collapsing law *)

(** A tree with a file of [2^50] bytes and one of [99 * 2^50 + 1] bytes. *)
Definition petabyteFiles : FileSystem :=
  fun _ => LstatOk (Folder "." [File "x.a" (InfoOk (2 ^ 50));
                                File "y.b" (InfoOk (99 * 2 ^ 50 + 1))] None).

(** C7 (counterexample).  In size mode with verbose off, the category [a]
    holds [2^50] of [100 * 2^50 + 1] bytes, a share strictly below 1%.  The
    total is not a float64: it is rounded to [100 * 2^50], the quotient is
    the float [0.01] itself, the test [percent < 0.01] fails, and [a] stays
    an entry of its own. *)
Lemma collapsing_counterexample :
  belowOnePercent (2 ^ 50) (100 * 2 ^ 50 + 1) = true
  /\ totalBytes (fst (walkDir (setBySize defaultConfig) petabyteFiles))
     = 100 * 2 ^ 50 + 1
  /\ scanStats forwardOrder insertionSorter (setBySize defaultConfig) petabyteFiles
     = [bySizeEntry "b" (99 * 2 ^ 50 + 1); bySizeEntry "a" (2 ^ 50)].
Proof. repeat split; vm_compute; reflexivity. Qed.

(** X21 (the law behind C7).  For an accumulator with non-negative values
    whose grand total is the sum of the values and is below [2^53] (so that the
    conversions to float64 are exact), with verbose off the entries that
    [aggregateStats] returns are, in some order, one entry for every
    category whose share is at least 1%, and the entry "other" with the sum
    of the categories whose share is strictly below 1%, present when that
    sum is positive; with verbose on they are one entry for every category,
    whatever the total. *)
Theorem collapsing_law (R : RangeOrder) (S : SliceSorter) (cfg : Config)
    (counts sizeCounts : gmap string Z) (total totalBytes : Z) :
  map_Forall (fun _ v => 0 <= v) (chosenMap cfg counts sizeCounts) ->
  chosenTotal cfg total totalBytes = mapTotal (chosenMap cfg counts sizeCounts) ->
  Verbose cfg = true \/ chosenTotal cfg total totalBytes < 2 ^ 53 ->
  aggregateStats R S cfg counts sizeCounts total totalBytes
  ≡ₚ map (fun kv => chosenEntry cfg (fst kv) (snd kv))
         (ownKeys (Verbose cfg) (chosenTotal cfg total totalBytes)
                  (chosenMap cfg counts sizeCounts))
     ++ catchAll cfg
          (sumZ (map snd
             (foldedKeys (Verbose cfg) (chosenTotal cfg total totalBytes)
                         (chosenMap cfg counts sizeCounts)))).
Proof.
  intros Hpos Htot Hrange.
  set (m := chosenMap cfg counts sizeCounts) in *.
  set (tot := chosenTotal cfg total totalBytes) in *.
  rewrite aggregateStats_unfold, sortSlice_perm. unfold preSort. fold m tot.
  assert (Hnn : Forall (fun v => 0 <= v) (map snd (map_to_list m))).
  { apply Forall_forall. intros v Hv.
    apply list_elem_of_fmap in Hv as ([k v'] & -> & Hkv).
    apply elem_of_map_to_list in Hkv. by apply (Hpos k v'). }
  assert (Htot0 : 0 <= tot).
  { rewrite Htot. by apply sumZ_nonneg. }
  assert (Hdec : Forall (fun kv : string * Z =>
             collapsed (Verbose cfg) (snd kv) tot
             = negb (Verbose cfg) && belowOnePercent (snd kv) tot) (map_to_list m)).
  { apply Forall_forall. intros [k v] Hkv. simpl.
    destruct Hrange as [Hv|Hlt].
    - unfold collapsed. by rewrite Hv.
    - rewrite belowOnePercent_spec by done.
      apply collapsed_exact; [|lia].
      assert (v ∈ map snd (map_to_list m)) as Hin.
      { by apply (list_elem_of_fmap_2 snd _ (k, v)). }
      pose proof (sumZ_elem_le _ _ Hnn Hin) as Hle.
      rewrite Forall_forall in Hnn. specialize (Hnn v Hin).
      unfold mapTotal in Htot. lia. }
  assert (Hkept : keptOf (Verbose cfg) tot (map_to_list m) = ownKeys (Verbose cfg) tot m).
  { unfold keptOf, ownKeys. apply filter_agree.
    eapply Forall_impl; [exact Hdec|]. intros kv ->.
    destruct (Verbose cfg), (belowOnePercent (snd kv) tot); simpl; intuition congruence. }
  assert (Hfolded : foldedOf (Verbose cfg) tot (map_to_list m)
                    = foldedKeys (Verbose cfg) tot m).
  { unfold foldedOf, foldedKeys. apply filter_agree.
    eapply Forall_impl; [exact Hdec|]. intros kv ->.
    destruct (Verbose cfg), (belowOnePercent (snd kv) tot); simpl; intuition congruence. }
  pose proof (rangeOf_perm R m) as Hperm.
  rewrite (sumZ_perm _ _ (Permutation_map snd (foldedOf_perm _ _ _ _ Hperm))).
  rewrite (keptOf_perm _ _ _ _ Hperm), Hkept, Hfolded.
  apply Permutation_app; [done|].
  assert (Hfn : Forall (fun v => 0 <= v) (map snd (foldedKeys (Verbose cfg) tot m))).
  { apply Forall_forall. intros v Hv.
    apply list_elem_of_fmap in Hv as (kv & -> & Hkv).
    apply list_elem_of_filter in Hkv as [_ Hkv].
    rewrite Forall_forall in Hnn. apply Hnn. by apply list_elem_of_fmap_2. }
  pose proof (sumZ_nonneg _ Hfn) as Hf0.
  unfold catchAll.
  destruct Hrange as [Hv|Hlt].
  - assert (foldedKeys (Verbose cfg) tot m = []) as ->; [|done].
    unfold foldedKeys. rewrite Hv. clear.
    induction (map_to_list m) as [|kv l IH]; [done|].
    rewrite filter_cons, IH. destruct (decide _) as [[? _]|]; done.
  - rewrite wrap64_id; [done|].
    pose proof (kept_folded_sum (Verbose cfg) tot (map_to_list m)) as Hsplit.
    rewrite Hfolded, Hkept in Hsplit.
    assert (0 <= sumZ (map snd (ownKeys (Verbose cfg) tot m))).
    { apply sumZ_nonneg, Forall_forall. intros v Hv.
      apply list_elem_of_fmap in Hv as (kv & -> & Hkv).
      apply list_elem_of_filter in Hkv as [_ Hkv].
      rewrite Forall_forall in Hnn. apply Hnn. by apply list_elem_of_fmap_2. }
    unfold mapTotal in Htot. unfold in_int64. lia.
Qed.

Lemma collapsing_law_witness :
  aggregateStats forwardOrder insertionSorter defaultConfig
    {[ "go"%string := 199; "md"%string := 1 ]} ∅ 200 0
  ≡ₚ map (fun kv => chosenEntry defaultConfig (fst kv) (snd kv))
         (ownKeys (Verbose defaultConfig) (chosenTotal defaultConfig 200 0)
            (chosenMap defaultConfig {[ "go"%string := 199; "md"%string := 1 ]} ∅))
     ++ catchAll defaultConfig
          (sumZ (map snd
             (foldedKeys (Verbose defaultConfig) (chosenTotal defaultConfig 200 0)
                (chosenMap defaultConfig {[ "go"%string := 199; "md"%string := 1 ]} ∅)))).
Proof.
  refine (collapsing_law forwardOrder insertionSorter defaultConfig
            {[ "go"%string := 199; "md"%string := 1 ]} ∅ 200 0 _ _ _).
  - apply map_Forall_to_list. vm_compute. repeat constructor; discriminate.
  - reflexivity.
  - right. reflexivity.
Defined.

(** The entries of the example: [go] on its own, [md] folded. *)
Example collapsing_example :
  aggregateStats forwardOrder insertionSorter defaultConfig
    {[ "go"%string := 199; "md"%string := 1 ]} ∅ 200 0
  = [byCountEntry "go" 199; byCountEntry "other" 1].
Proof. vm_compute. reflexivity. Qed.

(** * Further properties of the code *)

(** ** The walk and the filter policy *)

(** The warnings a walk writes: one for every error met on the entries it
    reaches, in walk order, with the path of the entry.  An excluded
    directory is not entered, and a hidden file that is skipped is not asked
    for its [Info()]. *)
Fixpoint errorsOf (cfg : Config) (p : path) (d : fsnode) : list logLine :=
  match d with
  | File name (InfoErr e) =>
      if negb (IncludeHidden cfg) && HasPrefix name "." then [] else [LogSkipping p e]
  | File _ (InfoOk _) => []
  | Folder name entries rderr =>
      if shouldDescend cfg name then
        match rderr with
        | Some e => [LogSkipping p e]
        | None => []
        end
        ++ flat_map (fun d1 => errorsOf cfg (p ++ [nodeName d1]) d1) entries
      else []
  end.

Lemma tally_warnings (l : list (string * Z)) (st : walkState) :
  warnings (tally st l) = warnings st.
Proof.
  revert st. induction l as [|kv l IH]; intros st; simpl; [done|].
  by rewrite IH.
Qed.

Lemma walkList_warnings (cfg : Config) (es : list fsnode) :
  Forall (fun d => forall p st,
            warnings (fst (walkNode (visit cfg) p d st))
            = warnings st ++ errorsOf cfg p d) es ->
  forall p st,
    warnings (fst (walkList (walkNode (visit cfg)) p es st))
    = warnings st ++ flat_map (fun d1 => errorsOf cfg (p ++ [nodeName d1]) d1) es.
Proof.
  induction 1 as [|d es Hd Hes IH]; intros p st; simpl.
  - by rewrite app_nil_r.
  - pose proof (walkNode_counted cfg d (p ++ [nodeName d]) st) as [Hr _].
    specialize (Hd (p ++ [nodeName d]) st).
    destruct (walkNode (visit cfg) (p ++ [nodeName d]) d st) as [s' r].
    simpl in Hr, Hd. subst r. rewrite IH, Hd. by rewrite <- app_assoc.
Qed.

Lemma walkNode_warnings (cfg : Config) (d : fsnode) (p : path) (st : walkState) :
  warnings (fst (walkNode (visit cfg) p d st)) = warnings st ++ errorsOf cfg p d.
Proof.
  revert p st. induction d as [name info|name es rderr IH] using fsnode_tree_ind;
    intros p st.
  - destruct info as [size|e]; cbn [walkNode errorsOf].
    + rewrite visit_file. simpl. rewrite app_nil_r.
      by destruct (shouldCount cfg name size).
    + unfold visit.
      destruct (negb (IncludeHidden cfg) && HasPrefix name "."); simpl; [|done].
      by rewrite app_nil_r.
  - cbn [walkNode errorsOf]. rewrite visit_folder.
    destruct (shouldDescend cfg name); [|cbn [fst]; by rewrite app_nil_r].
    destruct rderr as [e|].
    + rewrite visit_error, (walkList_warnings cfg es IH).
      cbn [logSkip warnings app]. by rewrite <- app_assoc.
    + by rewrite (walkList_warnings cfg es IH).
Qed.

(** X1.  Whatever errors the entries of the tree raise, [walkDir] walks the
    whole tree and returns no error; its accumulators are those of
    accounting, in walk order, exactly the files that pass the filter policy
    (not in an excluded directory, not hidden unless hidden files are
    included, within the size bounds, extension not excluded), and the
    error stream holds one warning for every error met on the way. *)
Theorem walkDir_accounts_matching_files (cfg : Config) (fs : FileSystem) (d : fsnode) :
  fs (Dir cfg) = LstatOk d ->
  snd (walkDir cfg fs) = None
  /\ dataOf (fst (walkDir cfg fs)) = dataOf (tally initState (countedFiles cfg d))
  /\ warnings (fst (walkDir cfg fs)) = errorsOf cfg [Dir cfg] d.
Proof.
  intros Hfs. split; [apply walkDir_no_error|]. split; [by apply walkDir_counted|].
  unfold walkDir, WalkDir. rewrite Hfs.
  pose proof (walkNode_warnings cfg d [Dir cfg] initState) as Hw.
  destruct (walkNode (visit cfg) [Dir cfg] d initState) as [st' r].
  simpl in Hw. by destruct r.
Qed.

(** A tree with a file whose [Info()] fails, an unreadable directory that
    still lists one file, an excluded directory and a hidden file. *)
Definition mixedTree : fsnode :=
  Folder "." [ File ".env" (InfoErr ErrPermission);
               File "a.go" (InfoOk 10);
               File "b.go" (InfoErr ErrNotExist);
               Folder "node_modules" [File "x.js" (InfoOk 7)] (Some ErrIO);
               Folder "src" [File "c.md" (InfoOk 3)] (Some ErrPermission) ] None.

Definition mixedConfig : Config :=
  setExcludeDirs defaultConfig {[ "node_modules"%string ]}.

Lemma walkDir_accounts_matching_files_witness :
  snd (walkDir mixedConfig (fun _ => LstatOk mixedTree)) = None
  /\ dataOf (fst (walkDir mixedConfig (fun _ => LstatOk mixedTree)))
     = dataOf (tally initState (countedFiles mixedConfig mixedTree))
  /\ warnings (fst (walkDir mixedConfig (fun _ => LstatOk mixedTree)))
     = errorsOf mixedConfig [Dir mixedConfig] mixedTree.
Proof.
  exact (walkDir_accounts_matching_files mixedConfig (fun _ => LstatOk mixedTree)
           mixedTree eq_refl).
Defined.

(** The walk of the example: two files counted, two warnings. *)
Example mixedTree_walk :
  countedFiles mixedConfig mixedTree = [("go", 10); ("md", 3)]%string
  /\ errorsOf mixedConfig ["."%string] mixedTree
     = [LogSkipping ["."; "b.go"]%string ErrNotExist;
        LogSkipping ["."; "src"]%string ErrPermission].
Proof. split; reflexivity. Qed.

(** ** The accumulators in closed form *)

(** The number of files of a list with a given extension key, and the sum
    of their sizes. *)
Definition keyCount (k : string) (l : list (string * Z)) : Z :=
  Z.of_nat (length (filter (fun kv => fst kv = k) l)).
Definition keySize (k : string) (l : list (string * Z)) : Z :=
  sumZ (map snd (filter (fun kv => fst kv = k) l)).

Lemma mapTotal_insert (m : gmap string Z) (k : string) (v : Z) :
  mapTotal (<[k := v]> m) = mapTotal m - default 0 (m !! k) + v.
Proof.
  unfold mapTotal. destruct (m !! k) as [o|] eqn:Hk; simpl.
  - rewrite <- insert_delete_eq.
    rewrite (sumZ_perm _ _ (Permutation_map snd
               (map_to_list_insert (delete k m) k v (lookup_delete_eq m k)))).
    rewrite <- (sumZ_perm _ _ (Permutation_map snd (map_to_list_delete m k o Hk))).
    simpl. lia.
  - rewrite (sumZ_perm _ _ (Permutation_map snd (map_to_list_insert m k v Hk))).
    simpl. lia.
Qed.

Lemma keyCount_snoc (k k' : string) (s : Z) (l : list (string * Z)) :
  keyCount k' (l ++ [(k, s)]) = keyCount k' l + (if decide (k = k') then 1 else 0).
Proof.
  unfold keyCount. rewrite filter_app, length_app, filter_cons, filter_nil. simpl.
  destruct (decide (k = k')); simpl; lia.
Qed.

Lemma keySize_snoc (k k' : string) (s : Z) (l : list (string * Z)) :
  keySize k' (l ++ [(k, s)]) = keySize k' l + (if decide (k = k') then s else 0).
Proof.
  unfold keySize. rewrite filter_app, map_app, sumZ_app, filter_cons, filter_nil. simpl.
  destruct (decide (k = k')); simpl; lia.
Qed.

Lemma keyCount_bounds (k : string) (l : list (string * Z)) :
  0 <= keyCount k l <= Z.of_nat (length l).
Proof.
  unfold keyCount. pose proof (length_filter (fun kv : string * Z => fst kv = k) l). lia.
Qed.

Lemma keySize_bounds (k : string) (l : list (string * Z)) :
  Forall (fun kv => 0 <= snd kv) l -> 0 <= keySize k l <= sumZ (map snd l).
Proof.
  unfold keySize. induction 1 as [|kv l Hkv Hl IH]; [simpl; lia|].
  rewrite filter_cons. destruct (decide (fst kv = k)); simpl; lia.
Qed.

(** What the accumulators hold after the files of [l] are accounted. *)
Definition accounted (st : walkState) (l : list (string * Z)) : Prop :=
  total st = Z.of_nat (length l)
  /\ totalBytes st = sumZ (map snd l)
  /\ (forall k, counts st !! k
                = if decide (keyCount k l = 0) then None else Some (keyCount k l))
  /\ (forall k, sizeCounts st !! k
                = if decide (keyCount k l = 0) then None else Some (keySize k l))
  /\ mapTotal (counts st) = total st
  /\ mapTotal (sizeCounts st) = totalBytes st.

Lemma tally_accounted (l : list (string * Z)) :
  Forall (fun kv => 0 <= snd kv) l ->
  Z.of_nat (length l) < 2 ^ 63 -> sumZ (map snd l) < 2 ^ 63 ->
  accounted (tally initState l) l.
Proof.
  induction l as [|[k s] l IH] using rev_ind; intros Hnn Hlen Hsum.
  - unfold accounted. simpl. repeat split; done.
  - apply Forall_app in Hnn as [Hnn Hks]. rewrite Forall_singleton in Hks. simpl in Hks.
    rewrite length_app, Nat2Z.inj_add in Hlen.
    change (Z.of_nat (length [(k, s)])) with 1 in Hlen.
    rewrite map_app, sumZ_app in Hsum.
    change (sumZ (map snd [(k, s)])) with (s + 0) in Hsum.
    pose proof (sumZ_nonneg (map snd l)) as Hs0.
    assert (Hnn' : Forall (fun v => 0 <= v) (map snd l)).
    { apply Forall_fmap. eapply Forall_impl; [exact Hnn|]. done. }
    specialize (Hs0 Hnn').
    destruct (IH Hnn ltac:(lia) ltac:(lia)) as (Ht & Hb & Hc & Hz & Hmc & Hmz).
    rewrite tally_app. simpl. set (st := tally initState l) in *.
    pose proof (keyCount_bounds k l) as Hkc.
    pose proof (keySize_bounds k l Hnn) as Hkz.
    assert (Hcnt : wrap64 (default 0 (counts st !! k) + 1) = keyCount k l + 1).
    { rewrite Hc. destruct (decide (keyCount k l = 0)) as [->|]; simpl;
        apply wrap64_id; unfold in_int64; lia. }
    assert (Hsz : wrap64 (default 0 (sizeCounts st !! k) + s) = keySize k l + s).
    { rewrite Hz. destruct (decide (keyCount k l = 0)) as [H0|]; simpl.
      - assert (keySize k l = 0) as ->.
        { unfold keyCount, keySize in *.
          destruct (filter (fun kv : string * Z => fst kv = k) l); [done|simpl in H0; lia]. }
        apply wrap64_id. unfold in_int64. lia.
      - apply wrap64_id. unfold in_int64. lia. }
    unfold accounted, account. cbn [total totalBytes counts sizeCounts].
    rewrite Ht, Hb, !wrap64_id by (unfold in_int64; lia).
    rewrite length_app, Nat2Z.inj_add, map_app, sumZ_app.
    change (Z.of_nat (length [(k, s)])) with 1.
    change (sumZ (map snd [(k, s)])) with (s + 0).
    split; [lia|]. split; [lia|].
    split; [|split; [|split]].
    + intros k'. rewrite keyCount_snoc.
      destruct (decide (k = k')) as [<-|Hne].
      * rewrite lookup_insert_eq, Hcnt.
        destruct (decide (keyCount k l + 1 = 0)); [lia|done].
      * rewrite lookup_insert_ne by done. rewrite Hc, Z.add_0_r. done.
    + intros k'. rewrite keyCount_snoc, keySize_snoc.
      destruct (decide (k = k')) as [<-|Hne].
      * rewrite lookup_insert_eq, Hsz.
        destruct (decide (keyCount k l + 1 = 0)); [lia|done].
      * rewrite lookup_insert_ne by done. rewrite Hz, !Z.add_0_r. done.
    + rewrite mapTotal_insert, Hmc, Ht, Hcnt, Hc.
      destruct (decide (keyCount k l = 0)) as [->|]; simpl; lia.
    + rewrite mapTotal_insert, Hmz, Hb, Hsz, Hz.
      destruct (decide (keyCount k l = 0)) as [H0|]; simpl; [|lia].
      assert (keySize k l = 0) as ->; [|lia].
      unfold keyCount, keySize in *.
      destruct (filter (fun kv : string * Z => fst kv = k) l); [done|simpl in H0; lia].
Qed.

Lemma accounted_data (st1 st2 : walkState) (l : list (string * Z)) :
  dataOf st1 = dataOf st2 -> accounted st1 l -> accounted st2 l.
Proof. unfold dataOf, accounted. intros [= -> -> -> ->]. done. Qed.

(** X2.  After a walk over a tree whose matching files have non-negative
    sizes that add up within int64, the total is the number of matching
    files and the byte total the sum of their sizes; the two maps have an
    entry exactly for the extension keys of the matching files, holding the
    number of files with the key and the sum of their sizes; and the values
    of each map add up to the corresponding grand total. *)
Theorem walkDir_accumulators (cfg : Config) (fs : FileSystem) (d : fsnode) :
  fs (Dir cfg) = LstatOk d ->
  Forall (fun kv => 0 <= snd kv) (countedFiles cfg d) ->
  Z.of_nat (length (countedFiles cfg d)) < 2 ^ 63 ->
  sumZ (map snd (countedFiles cfg d)) < 2 ^ 63 ->
  accounted (fst (walkDir cfg fs)) (countedFiles cfg d)
  /\ dom (counts (fst (walkDir cfg fs))) = dom (sizeCounts (fst (walkDir cfg fs)))
  /\ map_Forall (fun _ v => 1 <= v) (counts (fst (walkDir cfg fs))).
Proof.
  intros Hfs Hnn Hlen Hsum.
  assert (Hacc : accounted (fst (walkDir cfg fs)) (countedFiles cfg d)).
  { eapply accounted_data; [symmetry; by apply walkDir_counted|].
    by apply tally_accounted. }
  split; [done|]. destruct Hacc as (_ & _ & Hc & Hz & _ & _). split.
  - apply set_eq. intros k. rewrite !elem_of_dom, Hc, Hz.
    destruct (decide (keyCount k (countedFiles cfg d) = 0)); [|split; eauto].
    split; intros [? [=]].
  - intros k v Hk. rewrite Hc in Hk.
    pose proof (keyCount_bounds k (countedFiles cfg d)).
    destruct (decide (keyCount k (countedFiles cfg d) = 0)); [done|].
    injection Hk as <-. lia.
Qed.

Lemma walkDir_accumulators_witness :
  accounted (fst (walkDir mixedConfig (fun _ => LstatOk mixedTree)))
            (countedFiles mixedConfig mixedTree)
  /\ dom (counts (fst (walkDir mixedConfig (fun _ => LstatOk mixedTree))))
     = dom (sizeCounts (fst (walkDir mixedConfig (fun _ => LstatOk mixedTree))))
  /\ map_Forall (fun _ v => 1 <= v)
       (counts (fst (walkDir mixedConfig (fun _ => LstatOk mixedTree)))).
Proof.
  refine (walkDir_accumulators mixedConfig (fun _ => LstatOk mixedTree) mixedTree
            eq_refl _ _ _).
  - repeat constructor; simpl; lia.
  - reflexivity.
  - reflexivity.
Defined.

(** ** Nothing is lost between the walk and the display *)

(** The chosen metric of the entries adds up to the chosen total. *)
Lemma aggregate_metric_sum (R : RangeOrder) (S : SliceSorter) (cfg : Config)
    (counts sizeCounts : gmap string Z) (total totalBytes : Z) :
  map_Forall (fun _ v => 0 <= v) (chosenMap cfg counts sizeCounts) ->
  chosenTotal cfg total totalBytes = mapTotal (chosenMap cfg counts sizeCounts) ->
  chosenTotal cfg total totalBytes < 2 ^ 63 ->
  sumZ (map (metric cfg) (aggregateStats R S cfg counts sizeCounts total totalBytes))
  = chosenTotal cfg total totalBytes.
Proof.
  intros Hpos Htot Hmax.
  rewrite aggregateStats_unfold.
  rewrite (sumZ_perm _ _ (Permutation_map (metric cfg) (sortSlice_perm S _ _))).
  rewrite preSort_metric_sum.
  set (kvs := rangeOf R (chosenMap cfg counts sizeCounts)).
  set (tot := chosenTotal cfg total totalBytes) in *.
  assert (Hall : sumZ (map snd kvs) = tot).
  { rewrite Htot. unfold mapTotal. apply sumZ_perm, Permutation_map, rangeOf_perm. }
  assert (Hnn : forall P `{forall x, Decision (P x)},
            0 <= sumZ (map snd (filter P kvs))).
  { intros P HP. apply sumZ_nonneg, Forall_forall. intros v Hv.
    apply list_elem_of_fmap in Hv as ([k v'] & -> & Hkv).
    apply list_elem_of_filter in Hkv as [_ Hkv].
    unfold kvs in Hkv. rewrite rangeOf_perm in Hkv.
    apply elem_of_map_to_list in Hkv. by apply (Hpos k v'). }
  pose proof (Hnn (fun kv => collapsed (Verbose cfg) (snd kv) tot = false) _) as Hk.
  pose proof (Hnn (fun kv => collapsed (Verbose cfg) (snd kv) tot = true) _) as Hf.
  fold (keptOf (Verbose cfg) tot kvs) in Hk.
  fold (foldedOf (Verbose cfg) tot kvs) in Hf.
  pose proof (kept_folded_sum (Verbose cfg) tot kvs) as Hsplit.
  rewrite wrap64_id by (unfold in_int64; lia). lia.
Qed.

(** X3.  For a scan over a tree whose matching files have non-negative
    sizes that add up within int64, the counts of the entries handed to
    [printStats] in count mode ("other" included) add up to the number of
    matching files, and in size mode their sizes add up to the sum of the
    sizes of the matching files: folding and sorting lose nothing. *)
Theorem scan_display_sum (R : RangeOrder) (S : SliceSorter) (cfg : Config)
    (fs : FileSystem) (d : fsnode) :
  fs (Dir cfg) = LstatOk d ->
  Forall (fun kv => 0 <= snd kv) (countedFiles cfg d) ->
  Z.of_nat (length (countedFiles cfg d)) < 2 ^ 63 ->
  sumZ (map snd (countedFiles cfg d)) < 2 ^ 63 ->
  (BySize cfg = false ->
   sumZ (map Count (scanStats R S cfg fs)) = Z.of_nat (length (countedFiles cfg d)))
  /\ (BySize cfg = true ->
      sumZ (map Size (scanStats R S cfg fs)) = sumZ (map snd (countedFiles cfg d))).
Proof.
  intros Hfs Hnn Hlen Hsum.
  assert (Hacc : accounted (fst (walkDir cfg fs)) (countedFiles cfg d)).
  { eapply accounted_data; [symmetry; by apply walkDir_counted|].
    by apply tally_accounted. }
  destruct Hacc as (Ht & Hb & Hc & Hz & Hmc & Hmz).
  set (st := fst (walkDir cfg fs)) in *.
  assert (Hsumm : sumZ (map (metric cfg) (scanStats R S cfg fs))
                  = chosenTotal cfg (total st) (totalBytes st)).
  { unfold scanStats. fold st. apply aggregate_metric_sum.
    - unfold chosenMap. destruct (BySize cfg); intros k v Hk.
      + rewrite Hz in Hk. destruct (decide _); [done|]. injection Hk as <-.
        by apply keySize_bounds.
      + rewrite Hc in Hk. destruct (decide _); [done|]. injection Hk as <-.
        apply keyCount_bounds.
    - unfold chosenMap, chosenTotal. by destruct (BySize cfg).
    - unfold chosenTotal. destruct (BySize cfg); lia. }
  unfold metric, chosenTotal in Hsumm.
  split; intros Hmode; rewrite Hmode in Hsumm; simpl in Hsumm.
  - exact (eq_trans Hsumm Ht).
  - exact (eq_trans Hsumm Hb).
Qed.

Lemma scan_display_sum_witness :
  (BySize mixedConfig = false ->
   sumZ (map Count (scanStats forwardOrder insertionSorter mixedConfig
                      (fun _ => LstatOk mixedTree)))
   = Z.of_nat (length (countedFiles mixedConfig mixedTree)))
  /\ (BySize mixedConfig = true ->
      sumZ (map Size (scanStats forwardOrder insertionSorter mixedConfig
                        (fun _ => LstatOk mixedTree)))
      = sumZ (map snd (countedFiles mixedConfig mixedTree))).
Proof.
  refine (scan_display_sum forwardOrder insertionSorter mixedConfig
            (fun _ => LstatOk mixedTree) mixedTree eq_refl _ _ _).
  - repeat constructor; simpl; lia.
  - reflexivity.
  - reflexivity.
Defined.

(** ** Edge cases of the filters *)

(** The output of a run whose walk accounted nothing. *)
Lemma runConfig_nothing_counted (R : RangeOrder) (S : SliceSorter) (cfg : Config)
    (fs : FileSystem) :
  dataOf (fst (walkDir cfg fs)) = dataOf initState ->
  exitCode (runConfig R S cfg fs) = 0
  /\ stdout (runConfig R S cfg fs)
     = if SizeOnly cfg then ["0 B"%string] else sizeLine cfg 0 ++ [noMatchMessage].
Proof.
  intros Hdata. pose proof (walkDir_no_error cfg fs) as Herr.
  unfold runConfig. destruct (walkDir cfg fs) as [st err].
  simpl in Hdata, Herr. subst err.
  unfold dataOf in Hdata. simpl in Hdata.
  injection Hdata as Hc Hs Ht Hb. rewrite Ht, Hb. simpl.
  by destruct (SizeOnly cfg).
Qed.

Lemma countedFiles_none (cfg : Config) (d : fsnode) :
  (forall name size, shouldCount cfg name size = false) -> countedFiles cfg d = [].
Proof.
  intros Hno. induction d as [name info|name es rderr IH] using fsnode_tree_ind.
  - destruct info; simpl; [by rewrite Hno|done].
  - simpl. destruct (shouldDescend cfg name); [|done].
    induction IH as [|d es Hd _ IHes]; simpl; [done|]. by rewrite Hd, IHes.
Qed.

(** X4.  With a positive maximum size below the minimum size
    ([--minsize 100 --maxsize 50]) no file can pass the size filter: whatever
    the tree, the run counts nothing, prints the message of an empty match
    (or [0 B] with [--sizeonly]) and exits with status 0. *)
Theorem inverted_bounds_match_nothing (R : RangeOrder) (S : SliceSorter) (cfg : Config)
    (fs : FileSystem) :
  0 < MaxSize cfg < MinSize cfg ->
  dataOf (fst (walkDir cfg fs)) = dataOf initState
  /\ exitCode (runConfig R S cfg fs) = 0
  /\ stdout (runConfig R S cfg fs)
     = if SizeOnly cfg then ["0 B"%string] else sizeLine cfg 0 ++ [noMatchMessage].
Proof.
  intros Hinv.
  assert (Hdata : dataOf (fst (walkDir cfg fs)) = dataOf initState).
  { destruct (fs (Dir cfg)) as [d|e] eqn:Hfs.
    - rewrite (walkDir_counted cfg fs d Hfs), countedFiles_none; [done|].
      intros name size. unfold shouldCount.
      destruct (negb (negb (IncludeHidden cfg) && HasPrefix name ".")); [|done].
      assert (((0 <? MinSize cfg) && (size <? MinSize cfg)
               || (0 <? MaxSize cfg) && (MaxSize cfg <? size)) = true) as ->; [|done].
      destruct (Z.ltb_spec size (MinSize cfg)).
      + rewrite (proj2 (Z.ltb_lt 0 (MinSize cfg))) by lia. done.
      + rewrite (proj2 (Z.ltb_lt 0 (MaxSize cfg))) by lia.
        rewrite (proj2 (Z.ltb_lt (MaxSize cfg) size)) by lia.
        by rewrite orb_true_r.
    - by rewrite (walkDir_lstat_error cfg fs e Hfs). }
  split; [done|]. by apply runConfig_nothing_counted.
Qed.

Lemma inverted_bounds_match_nothing_witness :
  dataOf (fst (walkDir (setMaxSize (setMinSize defaultConfig 100) 50)
                 (fun _ => LstatOk mixedTree))) = dataOf initState
  /\ exitCode (runConfig forwardOrder insertionSorter
                 (setMaxSize (setMinSize defaultConfig 100) 50)
                 (fun _ => LstatOk mixedTree)) = 0
  /\ stdout (runConfig forwardOrder insertionSorter
               (setMaxSize (setMinSize defaultConfig 100) 50)
               (fun _ => LstatOk mixedTree))
     = if SizeOnly (setMaxSize (setMinSize defaultConfig 100) 50)
       then ["0 B"%string]
       else sizeLine (setMaxSize (setMinSize defaultConfig 100) 50) 0 ++ [noMatchMessage].
Proof.
  refine (inverted_bounds_match_nothing forwardOrder insertionSorter
            (setMaxSize (setMinSize defaultConfig 100) 50)
            (fun _ => LstatOk mixedTree) _).
  simpl. lia.
Defined.

(** The tree without its excluded directories, at every depth. *)
Fixpoint prune (cfg : Config) (d : fsnode) : fsnode :=
  match d with
  | File _ _ => d
  | Folder name entries rderr =>
      Folder name
        ((fix kept (l : list fsnode) : list fsnode :=
            match l with
            | [] => []
            | e :: l' =>
                match e with
                | Folder n _ _ =>
                    if shouldDescend cfg n then prune cfg e :: kept l' else kept l'
                | File _ _ => prune cfg e :: kept l'
                end
            end) entries)
        rderr
  end.

Lemma prune_same_walk (cfg : Config) (d : fsnode) :
  countedFiles cfg (prune cfg d) = countedFiles cfg d
  /\ forall p, errorsOf cfg p (prune cfg d) = errorsOf cfg p d.
Proof.
  induction d as [name info|name es rderr IH] using fsnode_tree_ind; [done|].
  cbn [prune countedFiles errorsOf].
  destruct (shouldDescend cfg name); [|done].
  match goal with |- context [flat_map _ (?f es)] => set (kept := f) end.
  assert (H : flat_map (countedFiles cfg) (kept es) = flat_map (countedFiles cfg) es
              /\ forall p, flat_map (fun d1 => errorsOf cfg (p ++ [nodeName d1]) d1) (kept es)
                           = flat_map (fun d1 => errorsOf cfg (p ++ [nodeName d1]) d1) es).
  { induction IH as [|e es [Hc He] _ [IHc IHe]]; [done|].
    assert (Hname : nodeName (prune cfg e) = nodeName e) by (by destruct e).
    destruct e as [n i|n sub r].
    - cbn [kept flat_map]. fold kept. rewrite IHc. split; [done|].
      intros p. by rewrite IHe.
    - cbn [kept]. fold kept. destruct (shouldDescend cfg n) eqn:Hn.
      + cbn [flat_map]. rewrite Hc, IHc. split; [done|].
        intros p. by rewrite Hname, He, IHe.
      + rewrite IHc. split.
        * cbn [flat_map countedFiles]. by rewrite Hn.
        * intros p. rewrite IHe. cbn [flat_map errorsOf nodeName]. by rewrite Hn. }
  destruct H as [Hc He]. split; [done|]. intros p. by rewrite He.
Qed.

(** X5.  An excluded directory is pruned with all it contains, wherever it
    is in the tree: [walkDir] returns the same counts, sizes, totals and
    warnings as on the tree from which every excluded directory has been
    deleted.  Nothing below an excluded directory is counted or reported. *)
Theorem excluded_directories_are_pruned (cfg : Config) (fs fs' : FileSystem) (d : fsnode) :
  fs (Dir cfg) = LstatOk d ->
  fs' (Dir cfg) = LstatOk (prune cfg d) ->
  dataOf (fst (walkDir cfg fs)) = dataOf (fst (walkDir cfg fs'))
  /\ warnings (fst (walkDir cfg fs)) = warnings (fst (walkDir cfg fs')).
Proof.
  intros Hfs Hfs'. destruct (prune_same_walk cfg d) as [Hc He]. split.
  - rewrite (walkDir_counted cfg fs d Hfs), (walkDir_counted cfg fs' _ Hfs').
    by rewrite Hc.
  - unfold walkDir, WalkDir. rewrite Hfs, Hfs'.
    pose proof (walkNode_warnings cfg d [Dir cfg] initState) as Hw.
    pose proof (walkNode_warnings cfg (prune cfg d) [Dir cfg] initState) as Hw'.
    destruct (walkNode (visit cfg) [Dir cfg] d initState) as [st r].
    destruct (walkNode (visit cfg) [Dir cfg] (prune cfg d) initState) as [st' r'].
    simpl in Hw, Hw'. rewrite He in Hw'.
    destruct r, r'; simpl; congruence.
Qed.

Lemma excluded_directories_are_pruned_witness :
  dataOf (fst (walkDir mixedConfig (fun _ => LstatOk mixedTree)))
  = dataOf (fst (walkDir mixedConfig (fun _ => LstatOk (prune mixedConfig mixedTree))))
  /\ warnings (fst (walkDir mixedConfig (fun _ => LstatOk mixedTree)))
     = warnings (fst (walkDir mixedConfig
                        (fun _ => LstatOk (prune mixedConfig mixedTree)))).
Proof.
  exact (excluded_directories_are_pruned mixedConfig
           (fun _ => LstatOk mixedTree)
           (fun _ => LstatOk (prune mixedConfig mixedTree)) mixedTree eq_refl eq_refl).
Defined.

(** The pruned example has lost [node_modules] and nothing else. *)
Example prune_mixedTree :
  prune mixedConfig mixedTree
  = Folder "." [ File ".env" (InfoErr ErrPermission);
                 File "a.go" (InfoOk 10);
                 File "b.go" (InfoErr ErrNotExist);
                 Folder "src" [File "c.md" (InfoOk 3)] (Some ErrPermission) ] None.
Proof. reflexivity. Qed.

(** X6.  Without [--include-hidden], a file whose name starts with a dot is
    passed over before its [Info()] is asked for: it is not counted and no
    warning is written, even when its [Info()] would fail.  The test is made
    on files only: a directory whose name starts with a dot (such as [.git])
    is walked like any other, and the files in it are counted. *)
Theorem hidden_filter_is_for_files (cfg : Config) (name : string) :
  IncludeHidden cfg = false -> HasPrefix name "." = true ->
  (forall info p st, walkNode (visit cfg) p (File name info) st = (st, WNil))
  /\ (forall es rderr p st,
        shouldDescend cfg name = true ->
        dataOf (fst (walkNode (visit cfg) p (Folder name es rderr) st))
        = dataOf (tally st (flat_map (countedFiles cfg) es))).
Proof.
  intros Hhid Hdot. split.
  - intros info p st. cbn [walkNode]. unfold visit. by rewrite Hhid, Hdot.
  - intros es rderr p st Hdesc.
    destruct (walkNode_counted cfg (Folder name es rderr) p st) as [_ Hdata].
    rewrite Hdata. cbn [countedFiles]. by rewrite Hdesc.
Qed.

Lemma hidden_filter_is_for_files_witness :
  (forall info p st,
     walkNode (visit defaultConfig) p (File ".git" info) st = (st, WNil))
  /\ (forall es rderr p st,
        shouldDescend defaultConfig ".git" = true ->
        dataOf (fst (walkNode (visit defaultConfig) p (Folder ".git" es rderr) st))
        = dataOf (tally st (flat_map (countedFiles defaultConfig) es))).
Proof.
  exact (hidden_filter_is_for_files defaultConfig ".git" eq_refl eq_refl).
Defined.

(** By default the files of [.git] are counted and [.gitignore] is not. *)
Example hidden_directory_is_walked :
  countedFiles defaultConfig
    (Folder "." [ File ".gitignore" (InfoOk 20);
                  Folder ".git" [File "config" (InfoOk 100); File "HEAD" (InfoOk 23)] None ]
            None)
  = [("[noext]", 100); ("[noext]", 23)]%string.
Proof. reflexivity. Qed.

(** ** [parseArgs] *)

Lemma Contains_app_eq (a b : string) :
  Contains (a ++ String "=" b) "=" = true.
Proof.
  induction a as [|c a IH]; [by destruct b|].
  change (String c a ++ String "=" b)%string with (String c (a ++ String "=" b)).
  cbn [Contains]. rewrite IH. apply orb_true_r.
Qed.

Lemma cutAt_app (a b : string) :
  Contains a "=" = false -> cutAt "=" (a ++ String "=" b) = (a, b).
Proof.
  induction a as [|c a IH]; intros Ha; [reflexivity|].
  cbn [Contains] in Ha. apply orb_false_iff in Ha as [Hc Ha].
  change (String c a ++ String "=" b)%string with (String c (a ++ String "=" b)).
  cbn [cutAt]. rewrite (IH Ha).
  destruct (Ascii.eqb c "=") eqn:E; [|done].
  apply Ascii.eqb_eq in E. subst c. by destruct a.
Qed.

(** X7.  For each of the four flags that take a value, the one-token form
    [--flag=value] and the two-token form [--flag value] are read alike,
    whatever the value is (a value with [=] in it, or one that is no number,
    included) and whatever precedes and follows. *)
Theorem equals_form_is_two_token_form :
  Forall (fun flag =>
            forall (cfg : Config) (val : string) (rest : list string),
              parseLoop cfg ((flag ++ String "=" val)%string :: rest)
              = parseLoop cfg (flag :: val :: rest))
         valueFlags.
Proof.
  unfold valueFlags.
  repeat apply List.Forall_cons; try apply List.Forall_nil;
    intros cfg val rest;
    match goal with |- parseLoop _ ((?f ++ _)%string :: _) = _ =>
      cbn [parseLoop]; rewrite (Contains_app_eq f val), (cutAt_app f val) by done
    end; reflexivity.
Qed.

(** X8.  A token with [=] in it whose text before the first [=] is none of
    the four flags that take a value is dropped without an error and without
    any effect: [--verbose=true] does not turn the flag on, and a directory
    whose path has [=] in it cannot be given. *)
Theorem unknown_key_value_is_ignored (cfg : Config) (arg : string) (rest : list string) :
  Contains arg "=" = true ->
  isValueFlag (fst (cutAt "=" arg)) = false ->
  parseLoop cfg (arg :: rest) = parseLoop cfg rest.
Proof.
  intros Heq Hkey. cbn [parseLoop]. rewrite Heq.
  destruct (cutAt "=" arg) as [key val]. cbn [fst] in Hkey.
  unfold isValueFlag, valueFlags in Hkey. cbn [existsb] in Hkey.
  repeat (apply orb_false_iff in Hkey as [? Hkey]).
  repeat match goal with H : String.eqb key _ = false |- _ => rewrite H; clear H end.
  done.
Qed.

Lemma unknown_key_value_is_ignored_witness :
  parseLoop defaultConfig ["--verbose=true"; "a=b"]%string
  = parseLoop defaultConfig ["a=b"]%string.
Proof.
  exact (unknown_key_value_is_ignored defaultConfig "--verbose=true" ["a=b"]%string
           eq_refl eq_refl).
Defined.

Example key_value_tokens_run :
  parseArgs ["dstat"; "--verbose=true"; "build=out"]%string = PConfig defaultConfig.
Proof. reflexivity. Qed.

(** X9.  [parseArgs] fails in two ways only.  It reports that a flag requires
    a value only when one of the four flags that take a value is the very
    last token; and it reports an invalid value only for [--minsize] or
    [--maxsize], in either form, followed by a text that [strconv.ParseInt]
    rejects.  So [--minsize --verbose] is an invalid value, not a missing
    one, and [--exclude --verbose] is no error at all. *)
Theorem parseArgs_errors (args : list string) (e : argError) :
  parseArgs args = PError e -> errorCause e (tail args).
Proof.
  unfold parseArgs. intros H.
  by apply (parseLoop_error_length (length (tail args)) defaultConfig).
Qed.

Lemma parseArgs_errors_witness :
  errorCause (InvalidValue "--minsize" "--verbose")
             (tail ["dstat"; "src"; "--minsize"; "--verbose"]%string).
Proof.
  exact (parseArgs_errors ["dstat"; "src"; "--minsize"; "--verbose"]%string
           (InvalidValue "--minsize" "--verbose") eq_refl).
Defined.

Example flag_as_value_run :
  parseArgs ["dstat"; "--exclude"; "--verbose"]%string
  = PConfig (setExclude defaultConfig {[ "--verbose"%string ]})
  /\ parseArgs ["dstat"; "--verbose"; "--exclude"]%string
     = PError (MissingValue "--exclude").
Proof. split; reflexivity. Qed.

Lemma parseLoop_app_length (n : nat) :
  forall cfg cfg' front back, (length front <= n)%nat ->
    parseLoop cfg front = PConfig cfg' ->
    parseLoop cfg (front ++ back) = parseLoop cfg' back.
Proof.
  induction n as [|n IH]; intros cfg cfg' front back Hlen Hok.
  { destruct front; [|simpl in Hlen; lia]. by injection Hok as <-. }
  destruct front as [|arg rest]; [by injection Hok as <-|].
  assert (Hrest : forall c, parseLoop c rest = PConfig cfg' ->
                            parseLoop c (rest ++ back) = parseLoop cfg' back).
  { intros c Hc. apply IH; [simpl in *; lia|done]. }
  assert (Hrest2 : forall c v r, rest = v :: r -> parseLoop c r = PConfig cfg' ->
                                 parseLoop c (r ++ back) = parseLoop cfg' back).
  { intros c v r -> Hc. apply IH; [simpl in *; lia|done]. }
  cbn [app parseLoop] in Hok |- *.
  destruct (Contains arg "=").
  - destruct (cutAt "=" arg) as [key val].
    repeat match type of Hok with
           | (if ?b then _ else _) = _ => destruct b
           end;
      try destruct (ParseInt val); try done; by apply Hrest.
  - repeat match type of Hok with
           | (if ?b then _ else _) = _ => destruct b
           end; try done; try (by apply Hrest);
      (destruct rest as [|v r]; [done|]); cbn [app];
      try destruct (ParseInt v); try done; by eapply Hrest2.
Qed.

(** X10.  The tokens are read from left to right, and a part of the command
    line that is read without an error and without [--help] can be read on
    its own: what follows it is then read from the configuration reached,
    so that of two settings of one option the later one is in force. *)
Theorem parseLoop_app (cfg cfg' : Config) (front back : list string) :
  parseLoop cfg front = PConfig cfg' ->
  parseLoop cfg (front ++ back) = parseLoop cfg' back.
Proof. by apply (parseLoop_app_length (length front)). Qed.

Lemma parseLoop_app_witness :
  parseLoop defaultConfig (["--minsize"; "10"; "src"]%string ++ ["--minsize=20"; "lib"]%string)
  = parseLoop (setDir (setMinSize defaultConfig 10) "src") ["--minsize=20"; "lib"]%string.
Proof.
  exact (parseLoop_app defaultConfig _ ["--minsize"; "10"; "src"]%string
           ["--minsize=20"; "lib"]%string eq_refl).
Defined.

(** X11.  [--help] ends the reading of the command line: when the tokens
    before it are read without an error, the usage text is printed and the
    run exits with status 0, whatever follows [--help] (tokens that would be
    errors included); the file system is not looked at. *)
Theorem help_ends_the_reading (R : RangeOrder) (S : SliceSorter) (prog : string)
    (front back : list string) (cfg : Config) (fs : FileSystem) :
  parseLoop defaultConfig front = PConfig cfg ->
  main R S (prog :: front ++ "--help"%string :: back) fs = mkOutcome [helpString] [] 0.
Proof.
  intros Hfront. unfold main, parseArgs. cbn [tail].
  by rewrite (parseLoop_app_length (length front) _ cfg front _ (le_n _) Hfront).
Qed.

Lemma help_ends_the_reading_witness :
  main forwardOrder insertionSorter
       ("dstat" :: ["src"; "--bysize"] ++ "--help" :: ["--minsize"; "x"])%string
       (fun _ => LstatErr ErrNotExist)
  = mkOutcome [helpString] [] 0.
Proof.
  exact (help_ends_the_reading forwardOrder insertionSorter "dstat"
           ["src"; "--bysize"]%string ["--minsize"; "x"]%string
           (setBySize (setDir defaultConfig "src")) _ eq_refl).
Defined.

(** ** Extension keys *)

Lemma extScan_shape (l suffix : list ascii) :
  ~ In "."%char suffix ->
  extScan l suffix = []
  \/ exists rest, extScan l suffix = "."%char :: rest /\ ~ In "."%char rest.
Proof.
  revert suffix. induction l as [|c l IH]; intros suffix Hs; [by left|].
  cbn [extScan]. destruct (Ascii.eqb c "/"); [by left|].
  destruct (Ascii.eqb c ".") eqn:E.
  - apply Ascii.eqb_eq in E. subst c. right. by exists suffix.
  - apply IH. intros [->|H]; done.
Qed.

Lemma Contains_dot_In (l : list ascii) :
  Contains (str l) "." = true -> In "."%char l.
Proof.
  induction l as [|c l IH]; [done|].
  change (str (c :: l)) with (String c (str l)). cbn [Contains].
  intros H. apply orb_true_iff in H as [H|H]; [|right; by apply IH].
  left. cbn [String.prefix] in H. by destruct (Ascii.ascii_dec "." c).
Qed.

Lemma extKey_no_dot (name : string) : Contains (extKey name) "." = false.
Proof.
  unfold extKey, Ext.
  assert (Hnil : ~ In "."%char (@nil ascii)) by (intros []).
  destruct (extScan_shape (rev (list_ascii_of_string name)) [] Hnil)
    as [->|(rest & -> & Hrest)]; [reflexivity|].
  change (str ("."%char :: rest)) with (String "." (str rest)).
  cbn [String.eqb]. rewrite TrimPrefix_dot.
  destruct (Contains (str rest) ".") eqn:E; [|done].
  by apply Contains_dot_In in E.
Qed.

Lemma walkList_ext {St : Type} (f g : path -> fsnode -> St -> St * walkres)
    (ds : list fsnode) :
  Forall (fun d => forall p st, f p d st = g p d st) ds ->
  forall p st, walkList f p ds st = walkList g p ds st.
Proof.
  induction 1 as [|d ds Hd _ IH]; intros p st; [done|].
  cbn [walkList]. rewrite Hd. destruct (g _ d st) as [s' []]; by rewrite ?IH.
Qed.

Lemma walkNode_ext {St : Type}
    (f g : path -> option fsnode -> option oserror -> St -> St * walkres) :
  (forall p d e st, f p d e st = g p d e st) ->
  forall d p st, walkNode f p d st = walkNode g p d st.
Proof.
  intros Hfg. induction d as [name info|name es rderr IH] using fsnode_tree_ind;
    intros p st; cbn [walkNode]; rewrite Hfg; [done|].
  destruct (g p _ None st) as [st1 []]; try done.
  destruct rderr as [e|]; [rewrite Hfg; destruct (g p _ (Some e) st1) as [st2 []]|];
    try done; by apply walkList_ext.
Qed.

(** X12.  The key of a file never has a dot in it: it is what follows the
    last dot of the name, or [[noext]].  So an entry of [--exclude] with a
    dot after its first byte, such as [tar.gz], excludes nothing: the walk
    with it is the walk without it. *)
Theorem dotted_exclude_matches_nothing (cfg : Config) (e : string) (fs : FileSystem) :
  Contains e "." = true ->
  (forall name, extKey name <> e)
  /\ walkDir (setExclude cfg ({[ e ]} ∪ Exclude cfg)) fs = walkDir cfg fs.
Proof.
  intros He.
  assert (Hkey : forall name, extKey name <> e).
  { intros name <-. by rewrite extKey_no_dot in He. }
  split; [done|].
  unfold walkDir, WalkDir. cbn [Dir setExclude].
  assert (Hvisit : forall p d err st,
            visit (setExclude cfg ({[ e ]} ∪ Exclude cfg)) p d err st
            = visit cfg p d err st).
  { intros p d err st. unfold visit. cbn [setExclude ExcludeDirs IncludeHidden
      MinSize MaxSize Exclude].
    destruct err; [done|]. destruct d as [[name info|name es rderr]|]; try done.
    destruct (negb (IncludeHidden cfg) && HasPrefix name "."); [done|].
    destruct info as [size|]; [|done].
    destruct (_ || _); [done|].
    pose proof (Hkey name) as Hne.
    destruct (decide (extKey name ∈ {[ e ]} ∪ Exclude cfg)) as [Hin|Hout],
             (decide (extKey name ∈ Exclude cfg)) as [Hin'|Hout']; try done.
    - apply elem_of_union in Hin as [Hin|Hin]; [|done].
      by apply elem_of_singleton in Hin.
    - exfalso. apply Hout. by apply elem_of_union_r. }
  destruct (fs (Dir cfg)) as [d|err]; [|by rewrite Hvisit].
  by rewrite (walkNode_ext _ _ Hvisit).
Qed.

Lemma dotted_exclude_matches_nothing_witness :
  (forall name, extKey name <> "tar.gz"%string)
  /\ walkDir (setExclude defaultConfig ({[ "tar.gz"%string ]} ∪ Exclude defaultConfig))
             (fun _ => LstatOk mixedTree)
     = walkDir defaultConfig (fun _ => LstatOk mixedTree).
Proof.
  exact (dotted_exclude_matches_nothing defaultConfig "tar.gz"
           (fun _ => LstatOk mixedTree) eq_refl).
Defined.

(** [--exclude tar.gz] is read as the one entry [tar.gz]; the key of
    [backup.tar.gz] is [gz]. *)
Example dotted_exclude_run :
  parseArgs ["dstat"; "--exclude"; ".tar.gz"]%string
  = PConfig (setExclude defaultConfig {[ "tar.gz"%string ]})
  /\ extKey "backup.tar.gz" = "gz"%string.
Proof. split; reflexivity. Qed.

(** ** The entries of [aggregateStats] *)

(** The field of an entry that the mode does not use. *)
Definition unusedField (cfg : Config) (s : FileStat) : Z :=
  if BySize cfg then Count s else Size s.

Lemma preSort_elem (R : RangeOrder) (cfg : Config) (counts sizeCounts : gmap string Z)
    (total totalBytes : Z) (s : FileStat) :
  s ∈ preSort R cfg counts sizeCounts total totalBytes ->
  (exists k v, s = chosenEntry cfg k v
               /\ chosenMap cfg counts sizeCounts !! k = Some v
               /\ collapsed (Verbose cfg) v (chosenTotal cfg total totalBytes) = false)
  \/ (exists v, s = chosenEntry cfg "other" v /\ 0 < v).
Proof.
  unfold preSort. intros Hs. apply elem_of_app in Hs as [Hs|Hs].
  - left. apply list_elem_of_fmap in Hs as ([k v] & -> & Hkv).
    unfold keptOf in Hkv. apply list_elem_of_filter in Hkv as [Hcol Hkv].
    rewrite (rangeOf_perm R) in Hkv. apply elem_of_map_to_list in Hkv.
    by exists k, v.
  - right. match type of Hs with context [0 <? ?o] => destruct (0 <? o) eqn:E end.
    + apply list_elem_of_singleton in Hs. eexists. split; [exact Hs|lia].
    + by apply elem_of_nil in Hs.
Qed.

Lemma chosenEntry_fields (cfg : Config) (k : string) (v : Z) :
  fsExt (chosenEntry cfg k v) = k /\ unusedField cfg (chosenEntry cfg k v) = 0.
Proof. unfold chosenEntry, unusedField. by destruct (BySize cfg). Qed.

(** X13.  Every entry that [aggregateStats] returns carries one number only:
    its other field ([Size] by default, [Count] with [--bysize]) is zero.
    The entry is either a key of the accumulator of the mode with the value
    found there, or it is named [other] and its value is positive; no other
    entry is made up. *)
Theorem aggregateStats_entries (R : RangeOrder) (S : SliceSorter) (cfg : Config)
    (counts sizeCounts : gmap string Z) (total totalBytes : Z) :
  Forall (fun s =>
            unusedField cfg s = 0
            /\ (chosenMap cfg counts sizeCounts !! fsExt s = Some (metric cfg s)
                \/ (fsExt s = "other"%string /\ 0 < metric cfg s)))
         (aggregateStats R S cfg counts sizeCounts total totalBytes).
Proof.
  rewrite aggregateStats_unfold. apply Forall_forall. intros s Hs.
  rewrite sortSlice_perm in Hs.
  apply preSort_elem in Hs as [(k & v & -> & Hk & _)|(v & -> & Hv)];
    rewrite metric_chosenEntry.
  - destruct (chosenEntry_fields cfg k v) as [-> ->]. split; [done|by left].
  - destruct (chosenEntry_fields cfg "other" v) as [-> ->]. split; [done|by right].
Qed.

Lemma collapsed_zero_total (v : Z) : collapsed false v 0 = true.
Proof. reflexivity. Qed.

Lemma collapsed_zero_value (tot : Z) :
  0 <= tot < 2 ^ 63 -> collapsed false 0 tot = true.
Proof.
  intros Htot. destruct (decide (tot = 0)) as [->|Hne]; [reflexivity|].
  destruct (f64_of_int_value tot) as (m & e & Hf & _); [lia|].
  unfold collapsed, safeDivF. rewrite Hf. reflexivity.
Qed.

(** X14.  With verbose off, over a non-negative accumulator and a
    non-negative total, no entry of [aggregateStats] has the value zero: a
    category of value zero (extensions whose files are all empty, with
    [--bysize]) is folded, and [other] is listed only when its sum is
    positive. *)
Theorem default_entries_are_positive (R : RangeOrder) (S : SliceSorter) (cfg : Config)
    (counts sizeCounts : gmap string Z) (total totalBytes : Z) :
  Verbose cfg = false ->
  0 <= chosenTotal cfg total totalBytes < 2 ^ 63 ->
  map_Forall (fun _ v => 0 <= v) (chosenMap cfg counts sizeCounts) ->
  Forall (fun s => 0 < metric cfg s)
         (aggregateStats R S cfg counts sizeCounts total totalBytes).
Proof.
  intros Hverb Htot Hpos.
  rewrite aggregateStats_unfold. apply Forall_forall. intros s Hs.
  rewrite sortSlice_perm in Hs.
  apply preSort_elem in Hs as [(k & v & -> & Hk & Hcol)|(v & -> & Hv)];
    rewrite metric_chosenEntry; [|done].
  pose proof (Hpos k v Hk) as Hv. simpl in Hv.
  destruct (decide (v = 0)) as [->|]; [|lia].
  rewrite Hverb, collapsed_zero_value in Hcol; done.
Qed.

Lemma default_entries_are_positive_witness :
  Forall (fun s => 0 < metric (setBySize defaultConfig) s)
         (aggregateStats forwardOrder insertionSorter (setBySize defaultConfig)
            {[ "txt"%string := 2; "go"%string := 1 ]}
            {[ "txt"%string := 0; "go"%string := 10 ]} 3 10).
Proof.
  apply default_entries_are_positive; [reflexivity|done|].
  intros k v. cbn [chosenMap setBySize BySize].
  intros Hk. apply lookup_insert_Some in Hk as [[_ <-]|[_ Hk]]; [done|].
  apply lookup_singleton_Some in Hk as [_ <-]. done.
Defined.

(** X15.  A run with [--bysize] and without [--verbose] over a tree whose
    matching files are all empty (and there is at least one) finds a total
    of zero bytes, folds every category and lists none, [other] neither:
    after the size line, if asked for, it prints the heading of the chart
    alone (nothing at all with [--nobar]) and exits with status 0; the
    message of an empty match is not printed. *)
Theorem bysize_of_empty_files (R : RangeOrder) (S : SliceSorter) (cfg : Config)
    (fs : FileSystem) (d : fsnode) :
  fs (Dir cfg) = LstatOk d ->
  BySize cfg = true -> Verbose cfg = false -> SizeOnly cfg = false ->
  countedFiles cfg d <> [] ->
  Forall (fun kv => snd kv = 0) (countedFiles cfg d) ->
  Z.of_nat (length (countedFiles cfg d)) < 2 ^ 63 ->
  scanStats R S cfg fs = []
  /\ stdout (runConfig R S cfg fs)
     = sizeLine cfg 0
       ++ (if NoBar cfg then [] else ["File type breakdown:"%string])
  /\ exitCode (runConfig R S cfg fs) = 0.
Proof.
  intros Hfs Hby Hverb Hso Hne Hzero Hlen.
  set (l := countedFiles cfg d) in *.
  assert (Hsum : sumZ (map snd l) = 0).
  { clear -Hzero. induction Hzero as [|kv l Hkv _ IH]; simpl; [done|lia]. }
  assert (Hnn : Forall (fun kv : string * Z => 0 <= snd kv) l).
  { eapply Forall_impl; [exact Hzero|]. simpl. intros kv ->. done. }
  assert (Hacc : accounted (tally initState l) l).
  { apply tally_accounted; [done|done|lia]. }
  pose proof (walkDir_counted cfg fs d Hfs) as Hdata. fold l in Hdata.
  pose proof (walkDir_no_error cfg fs) as Herr.
  assert (Hstats : forall st, dataOf st = dataOf (tally initState l) ->
            aggregateStats R S cfg (counts st) (sizeCounts st) (total st) (totalBytes st)
            = []).
  { intros st Hst. unfold dataOf in Hst. injection Hst as Hc Hs Ht Hb.
    destruct Hacc as (_ & Hbytes & _ & _ & _ & Hmt).
    apply Permutation_nil_r. rewrite aggregateStats_unfold, sortSlice_perm.
    unfold preSort, chosenMap, chosenTotal. rewrite Hby, Hverb, Hb, Hbytes, Hsum.
    assert (Hall : forall kvs, keptOf false 0 kvs = [] /\ foldedOf false 0 kvs = kvs).
    { intros kvs. unfold keptOf, foldedOf.
      induction kvs as [|kv kvs [IH1 IH2]]; [done|].
      rewrite !filter_cons, IH1, IH2, collapsed_zero_total.
      split; by repeat case_decide. }
    destruct (Hall (rangeOf R (sizeCounts st))) as [-> ->].
    rewrite (sumZ_perm _ _ (Permutation_map snd (rangeOf_perm R (sizeCounts st)))).
    fold (mapTotal (sizeCounts st)). rewrite Hs, Hmt, Hbytes, Hsum. done. }
  split; [by apply Hstats|].
  unfold runConfig. destruct (walkDir cfg fs) as [st err].
  simpl in Hdata, Herr. subst err. rewrite Hso, (Hstats st Hdata).
  pose proof Hdata as Hst. unfold dataOf in Hst. injection Hst as _ _ Ht Hb.
  destruct Hacc as (Htotal & Hbytes & _).
  rewrite Ht, Hb, Htotal, Hbytes, Hsum.
  assert ((Z.of_nat (length l) =? 0) = false) as ->.
  { apply Z.eqb_neq. destruct l; [done|]. simpl length. lia. }
  cbn [andb]. unfold printStats. cbn [printEntries]. rewrite app_nil_r. done.
Qed.

Definition emptyFiles : fsnode :=
  Folder "." [ File "a.txt" (InfoOk 0); File "b.md" (InfoOk 0) ] None.

Lemma bysize_of_empty_files_witness :
  scanStats forwardOrder insertionSorter (setBySize defaultConfig)
            (fun _ => LstatOk emptyFiles) = []
  /\ stdout (runConfig forwardOrder insertionSorter (setBySize defaultConfig)
                       (fun _ => LstatOk emptyFiles))
     = sizeLine (setBySize defaultConfig) 0
       ++ (if NoBar (setBySize defaultConfig) then [] else ["File type breakdown:"%string])
  /\ exitCode (runConfig forwardOrder insertionSorter (setBySize defaultConfig)
                         (fun _ => LstatOk emptyFiles)) = 0.
Proof.
  refine (bysize_of_empty_files forwardOrder insertionSorter (setBySize defaultConfig)
            (fun _ => LstatOk emptyFiles) emptyFiles eq_refl eq_refl eq_refl eq_refl
            _ _ _).
  - discriminate.
  - repeat constructor.
  - reflexivity.
Defined.

(** ** The bar never overruns *)

(** A float64 that is [+0], or positive with a 53-digit mantissa, an
    exponent between [lo] and [0], and a value of at most [B]. *)
Definition below (lo B : Z) (x : float64) : Prop :=
  x = S754_zero false \/
  exists (m : positive) (e : Z),
    x = S754_finite false m e /\ Zdigits2 (Z.pos m) = 53
    /\ lo <= e <= 0 /\ Z.pos m <= B * 2 ^ (- e).

Lemma pow2_split (a b : Z) : 0 <= a -> 0 <= b -> 2 ^ (a + b) = 2 ^ a * 2 ^ b.
Proof. intros. by apply Z.pow_add_r. Qed.

Lemma mantissa_bounds (m : positive) :
  Zdigits2 (Z.pos m) = 53 -> 2 ^ 52 <= Z.pos m < 2 ^ 53.
Proof.
  intros Hd. pose proof (Zdigits2_bounds (Z.pos m) ltac:(lia)) as Hb.
  rewrite Hd in Hb. exact Hb.
Qed.

Lemma rne_le (N D K : Z) : 0 < D -> N <= K * D -> rne N D <= K.
Proof.
  intros HD HN. rewrite <- (rne_exact K D HD). by apply rne_mono.
Qed.

Lemma roundedFloat_below (M E lo B : Z) :
  2 ^ 52 <= M <= 2 ^ 53 -> lo <= E -> E <= - 1 -> M <= B * 2 ^ (- E) ->
  below lo B (roundedFloat false M E).
Proof.
  intros HM Hlo HE Hle. right. unfold roundedFloat.
  destruct (Z.ltb_spec M (2 ^ 53)) as [Hlt|Hge].
  - exists (Z.to_pos M), E. rewrite Z2Pos.id by lia.
    split; [done|]. split; [apply Zdigits2_unique; lia|]. split; [lia|done].
  - exists (Z.to_pos (2 ^ 52)), (E + 1).
    split; [done|]. split; [reflexivity|]. split; [lia|].
    rewrite Z2Pos.id by lia.
    assert (E2 : 2 ^ (- E) = 2 ^ (- (E + 1)) * 2 ^ 1).
    { rewrite <- pow2_split by lia. f_equal. lia. }
    rewrite E2 in Hle. change (2 ^ 1) with 2 in Hle.
    change (2 ^ 53) with (2 * 2 ^ 52) in Hge. lia.
Qed.

(** The quotient of [x] by [y] for [0 < x <= y] is at most one. *)
Lemma div_below_one (mx my : positive) (ex ey : Z) :
  Zdigits2 (Z.pos mx) = 53 -> Zdigits2 (Z.pos my) = 53 ->
  ex <= ey -> ey - ex <= 800 ->
  Z.pos mx <= Z.pos my * 2 ^ (ey - ex) ->
  below (ex - ey - 53) 1 (f64_div (S754_finite false mx ex) (S754_finite false my ey)).
Proof.
  intros Hdx Hdy Hle Hfar Hval.
  destruct (f64_div_normal false false mx my ex ey Hdx Hdy ltac:(lia)) as (Heq & Hn & HM).
  rewrite Heq. simpl xorb.
  set (n := Zdigits2 (Z.pos mx * 2 ^ 53 / Z.pos my) - 53) in *.
  pose proof (pow2_pos n ltac:(lia)) as Hpn.
  apply roundedFloat_below; [done|lia|lia|].
  rewrite Z.mul_1_l. apply rne_le; [lia|].
  replace (- (ex - ey - 53 + n)) with ((ey - ex) + (53 - n)) by lia.
  rewrite pow2_split by lia.
  assert (E53 : 2 ^ 53 = 2 ^ (53 - n) * 2 ^ n).
  { rewrite <- pow2_split by lia. f_equal. lia. }
  pose proof (pow2_pos (ey - ex) ltac:(lia)).
  pose proof (pow2_pos (53 - n) ltac:(lia)).
  rewrite E53. nia.
Qed.

(** The product of [x <= 1] and a constant [C] that is a float64 is at
    most [C]. *)
Lemma mul_below (mx my : positive) (ex ey lo C : Z) :
  Zdigits2 (Z.pos mx) = 53 -> Zdigits2 (Z.pos my) = 53 ->
  lo <= ex -> - 500 <= lo -> Z.pos mx <= 2 ^ (- ex) ->
  - 60 <= ey <= - 2 -> Z.pos my = C * 2 ^ (- ey) ->
  below (lo + ey + 52) C (f64_mul (S754_finite false mx ex) (S754_finite false my ey)).
Proof.
  intros Hdx Hdy Hlo Hlo' Hx Hey Hy.
  pose proof (mantissa_bounds mx Hdx) as Hbx.
  pose proof (mantissa_bounds my Hdy) as Hby.
  assert (Hex : ex <= - 52).
  { destruct (Z.lt_ge_cases (- 52) ex) as [Hgt|]; [|lia].
    assert (2 ^ (- ex) <= 2 ^ 51) by (apply Z.pow_le_mono_r; lia).
    change (2 ^ 52) with (2 * 2 ^ 51) in Hbx. lia. }
  unfold f64_mul, SFmul. simpl xorb. rewrite Pos2Z.inj_mul.
  set (N := Z.pos mx * Z.pos my).
  assert (HN : 2 ^ 104 <= N < 2 ^ 106).
  { unfold N. change (2 ^ 104) with (2 ^ 52 * 2 ^ 52).
    change (2 ^ 106) with (2 ^ 53 * 2 ^ 53). nia. }
  assert (Hd : 105 <= Zdigits2 N <= 106).
  { pose proof (Zdigits2_bounds N ltac:(lia)) as [Hl Hh]. split.
    - destruct (Z.lt_ge_cases (Zdigits2 N) 105) as [Hlt|]; [|lia].
      assert (2 ^ Zdigits2 N <= 2 ^ 104) by (apply Z.pow_le_mono_r; lia). lia.
    - destruct (Z.lt_ge_cases 106 (Zdigits2 N)) as [Hgt|]; [|lia].
      assert (2 ^ 106 <= 2 ^ (Zdigits2 N - 1)) by (apply Z.pow_le_mono_r; lia). lia. }
  rewrite <- (locOf_integer N).
  destruct (binary_round_aux_normal false N (ex + ey) N 1) as [Heq HM];
    [lia|lia|by rewrite Z.div_1_r|lia|lia|lia|].
  rewrite Heq. set (k := Zdigits2 N - 53) in *. rewrite Z.mul_1_l in *.
  pose proof (pow2_pos k ltac:(lia)) as Hpk.
  apply roundedFloat_below; [done|lia|lia|].
  apply rne_le; [done|].
  replace (- ex) with ((- ex - 52) + 52) in Hx by lia.
  rewrite pow2_split in Hx by lia.
  assert (Ek : 2 ^ (- (ex + ey + k)) * 2 ^ k = 2 ^ (- ex - 52) * (2 ^ 52 * 2 ^ (- ey))).
  { rewrite <- !pow2_split by lia. f_equal. lia. }
  pose proof (pow2_pos (- ex - 52) ltac:(lia)).
  pose proof (pow2_pos (- ey) ltac:(lia)).
  assert (HC : 0 < C) by nia.
  unfold N. rewrite Hy.
  transitivity (C * (2 ^ (- ex - 52) * (2 ^ 52 * 2 ^ (- ey)))); [nia|].
  rewrite <- Ek. lia.
Qed.

Lemma int_below (lo B : Z) (x : float64) :
  below lo B x -> 0 <= B < 2 ^ 63 -> 0 <= int_of_f64 x <= B.
Proof.
  intros [->|(m & e & -> & Hd & He & Hm)] HB; [simpl; lia|].
  unfold int_of_f64.
  pose proof (pow2_pos (- e) ltac:(lia)) as Hp.
  assert (Ha : 0 <= (if 0 <=? e then Z.pos m * 2 ^ e else Z.pos m / 2 ^ (- e)) <= B).
  { destruct (Z.leb_spec 0 e) as [H0|H0].
    - assert (e = 0) as -> by lia. simpl in Hm |- *. lia.
    - split; [apply Z.div_pos; lia|].
      apply Z.div_le_upper_bound; lia. }
  set (a := if 0 <=? e then _ else _) in *.
  assert (((- 2 ^ 63 <=? a) && (a <? 2 ^ 63)) = true) as ->; [|done].
  apply andb_true_iff. split; [apply Z.leb_le|apply Z.ltb_lt]; lia.
Qed.

Lemma below_weaken (lo lo' B : Z) (x : float64) :
  lo' <= lo -> below lo B x -> below lo' B x.
Proof.
  intros Hlo [->|(m & e & -> & Hd & He & Hm)]; [by left|].
  right. exists m, e. repeat split; try done; lia.
Qed.

Lemma below_of_int (c B : Z) :
  0 <= c <= B -> B < 2 ^ 53 -> below (- 52) B (f64_of_int c).
Proof.
  intros Hc HB. destruct (decide (c = 0)) as [->|Hne]; [by left|].
  destruct (f64_of_int_exact c ltac:(lia)) as (m & a & -> & Ha & Hm & Hd).
  right. exists m, (- a). split; [done|]. split; [done|]. split; [lia|].
  rewrite Z.opp_involutive, Hm. pose proof (pow2_pos a ltac:(lia)). nia.
Qed.

Lemma f64_100_eq : f64_100 = S754_finite false 7036874417766400 (- 46).
Proof. vm_compute. reflexivity. Qed.

Lemma f64_barWidth_eq : f64_of_int barWidth = S754_finite false 5629499534213120 (- 47).
Proof. vm_compute. reflexivity. Qed.

(** A value of at most one, times a constant. *)
Lemma mul_const_below (lo C : Z) (x : float64) (my : positive) (ey : Z) :
  below lo 1 x -> - 500 <= lo ->
  Zdigits2 (Z.pos my) = 53 -> - 60 <= ey <= - 2 -> Z.pos my = C * 2 ^ (- ey) ->
  below (lo + ey + 52) C (f64_mul x (S754_finite false my ey)).
Proof.
  intros [->|(m & e & -> & Hd & He & Hm)] Hlo Hdy Hey Hy; [by left|].
  rewrite Z.mul_1_l in Hm.
  eapply below_weaken; [|apply (mul_below m my e ey e C)]; try done; lia.
Qed.

(** A value of at most a hundred, divided by a hundred. *)
Lemma div_100_below (lo : Z) (p : float64) :
  below lo 100 p -> - 500 <= lo -> below (lo - 7) 1 (f64_div p f64_100).
Proof.
  intros [->|(m & e & -> & Hd & He & Hm)] Hlo; rewrite f64_100_eq; [by left|].
  pose proof (mantissa_bounds m Hd) as Hb.
  assert (Hex : e <= - 46).
  { destruct (Z.lt_ge_cases (- 46) e) as [Hgt|]; [|lia].
    assert (2 ^ (- e) <= 2 ^ 45) by (apply Z.pow_le_mono_r; lia).
    change (2 ^ 52) with (128 * 2 ^ 45) in Hb. lia. }
  eapply below_weaken; [|apply div_below_one]; try done; try lia.
  replace (- e) with (46 + (- 46 - e)) in Hm by lia.
  rewrite pow2_split in Hm by lia.
  change 7036874417766400 with (100 * 2 ^ 46). lia.
Qed.

Lemma barLenOf_range (lo : Z) (p : float64) :
  below lo 100 p -> - 400 <= lo -> 0 <= barLenOf p <= barWidth.
Proof.
  intros Hp Hlo. unfold barLenOf. rewrite f64_barWidth_eq.
  apply (int_below (lo - 7 + - 47 + 52)); [|done].
  apply (mul_const_below (lo - 7) 40); [by apply div_100_below; [|lia]|lia|done|lia|done].
Qed.

(** The share of a part in a whole, times a hundred. *)
Lemma percent_below (c t : Z) :
  0 <= c <= t -> t < 2 ^ 53 ->
  below (- 99) 100 (f64_mul (safeDivF (f64_of_int c) (f64_of_int t)) f64_100).
Proof.
  intros Hc Ht. rewrite f64_100_eq.
  destruct (decide (t = 0)) as [->|Ht0].
  { assert (c = 0) as -> by lia. by left. }
  destruct (f64_of_int_exact t ltac:(lia)) as (mt & b & Hft & Hb & Hmt & Hdt).
  rewrite Hft. unfold safeDivF.
  change (SFeqb (S754_finite false mt (- b)) f64_zero) with false. cbv iota.
  destruct (decide (c = 0)) as [->|Hc0]; [by left|].
  destruct (f64_of_int_exact c ltac:(lia)) as (mc & a & Hfc & Ha & Hmc & Hdc).
  rewrite Hfc.
  pose proof (mantissa_bounds mc Hdc) as Hbc.
  pose proof (mantissa_bounds mt Hdt) as Hbt.
  pose proof (pow2_pos a ltac:(lia)) as Hpa.
  pose proof (pow2_pos b ltac:(lia)) as Hpb.
  assert (Hab : b <= a).
  { destruct (Z.lt_ge_cases a b) as [Hlt|]; [|lia].
    assert (E : 2 ^ b = 2 ^ a * 2 ^ (b - a)).
    { rewrite <- pow2_split by lia. f_equal. lia. }
    assert (2 ^ 1 <= 2 ^ (b - a)) by (apply Z.pow_le_mono_r; lia).
    change (2 ^ 1) with 2 in *. change (2 ^ 53) with (2 * 2 ^ 52) in *. nia. }
  apply (mul_const_below (- 105) 100); [|lia|done|lia|done].
  eapply below_weaken; [|apply div_below_one]; try done; try lia.
  replace (- b - - a) with (a - b) by lia.
  assert (E : 2 ^ a = 2 ^ b * 2 ^ (a - b)).
  { rewrite <- pow2_split by lia. f_equal. lia. }
  pose proof (pow2_pos (a - b) ltac:(lia)).
  rewrite Hmc, Hmt, E. nia.
Qed.

Lemma shl_align_value (mx : positive) (ex ex' : Z) :
  ex' <= ex -> Z.pos (fst (shl_align mx ex ex')) = Z.pos mx * 2 ^ (ex - ex').
Proof.
  intros Hle. unfold shl_align.
  destruct (ex' - ex) as [|d|d] eqn:Hd; cbn [fst]; try lia.
  - replace (ex - ex') with 0 by lia. lia.
  - rewrite pos_iter_xO. f_equal. f_equal. lia.
Qed.

(** [binary_normalize] of an integer with at least 53 digits. *)
Lemma binary_normalize_big (S e : Z) :
  2 ^ 52 <= S -> - 1074 <= e -> e + (Zdigits2 S - 53) < 971 ->
  binary_normalize 53 1024 S e false
  = roundedFloat false (rne S (2 ^ (Zdigits2 S - 53))) (e + (Zdigits2 S - 53))
  /\ 2 ^ 52 <= rne S (2 ^ (Zdigits2 S - 53)) <= 2 ^ 53.
Proof.
  intros HS He Hhi.
  destruct (shifted_mantissa S HS) as [Hk _].
  destruct (binary_round_aux_normal false S e S 1) as [Heq HM];
    [lia|lia|by rewrite Z.div_1_r|done|lia|done|].
  rewrite Z.mul_1_l in Heq, HM. split; [|done]. rewrite <- Heq, locOf_integer.
  destruct S as [|p|p]; try lia.
  unfold binary_normalize, binary_round, shl_align.
  change (Z.pos (digits2_pos p)) with (Zdigits2 (Z.pos p)).
  rewrite fexp_normal by lia.
  destruct (Zdigits2 (Z.pos p) + e - 53 - e) as [|d|d] eqn:Hd; try done. lia.
Qed.

Lemma int_below_strict (m : positive) (e B : Z) :
  e <= - 1 -> Z.pos m < (B + 1) * 2 ^ (- e) -> 0 <= B < 2 ^ 63 ->
  0 <= int_of_f64 (S754_finite false m e) <= B.
Proof.
  intros He Hm HB. unfold int_of_f64.
  pose proof (pow2_pos (- e) ltac:(lia)) as Hp.
  destruct (Z.leb_spec 0 e) as [|_]; [lia|].
  assert (Ha : 0 <= Z.pos m / 2 ^ (- e) <= B).
  { split; [apply Z.div_pos; lia|].
    assert (Z.pos m / 2 ^ (- e) < B + 1) by (apply Z.div_lt_upper_bound; lia). lia. }
  set (a := Z.pos m / 2 ^ (- e)) in *.
  assert (((- 2 ^ 63 <=? a) && (a <? 2 ^ 63)) = true) as ->; [|done].
  apply andb_true_iff. split; [apply Z.leb_le|apply Z.ltb_lt]; lia.
Qed.

(** [int(percent + 0.5)] for a percentage of at most a hundred. *)
Lemma int_add_half (lo : Z) (p : float64) :
  below lo 100 p -> - 400 <= lo ->
  0 <= int_of_f64 (f64_add p f64_0_5) <= 100.
Proof.
  intros [->|(m & e & -> & Hd & He & Hm)] Hlo; [by vm_compute|].
  pose proof (mantissa_bounds m Hd) as Hb.
  assert (Hex : e <= - 46).
  { destruct (Z.lt_ge_cases (- 46) e) as [Hgt|]; [|lia].
    assert (2 ^ (- e) <= 2 ^ 45) by (apply Z.pow_le_mono_r; lia).
    change (2 ^ 52) with (128 * 2 ^ 45) in Hb. lia. }
  unfold f64_add, f64_0_5, SFadd. cbv zeta. cbn [cond_Zopp].
  set (ez := Z.min e (- 53)).
  rewrite !shl_align_value by (unfold ez; lia).
  set (T := - ez).
  assert (HT : 53 <= T <= 400) by (unfold T, ez; lia).
  set (S := Z.pos m * 2 ^ (e - ez) + 4503599627370496 * 2 ^ (- 53 - ez)).
  pose proof (pow2_pos (e - ez) ltac:(unfold ez; lia)) as Hp1.
  pose proof (pow2_pos (T - 53) ltac:(lia)) as Hp2.
  pose proof (pow2_pos (- e) ltac:(lia)) as Hp3.
  assert (E1 : 2 ^ T = 2 ^ (- e) * 2 ^ (e - ez)).
  { rewrite <- pow2_split by (unfold ez; lia). f_equal. unfold T. lia. }
  assert (E2 : 4503599627370496 * 2 ^ (- 53 - ez) = 2 ^ (T - 1)).
  { change 4503599627370496 with (2 ^ 52). rewrite <- pow2_split by (unfold ez; lia).
    f_equal. unfold T. lia. }
  assert (E3 : 2 ^ T = 2 * 2 ^ (T - 1)).
  { change 2 with (2 ^ 1) at 2. rewrite <- pow2_split by lia. f_equal. lia. }
  pose proof (pow2_pos (T - 1) ltac:(lia)) as Hp4.
  assert (HS : 2 ^ (T - 1) <= S /\ S <= 201 * 2 ^ (T - 1)).
  { unfold S. rewrite E2. split; [nia|].
    assert (Z.pos m * 2 ^ (e - ez) <= 100 * 2 ^ T) by (rewrite E1; nia). lia. }
  assert (HS52 : 2 ^ 52 <= S).
  { assert (2 ^ 52 <= 2 ^ (T - 1)) by (apply Z.pow_le_mono_r; lia). lia. }
  pose proof (Zdigits2_bounds S ltac:(lia)) as [Hdl Hdh].
  set (dS := Zdigits2 S) in *.
  assert (HdS : T <= dS <= T + 7).
  { split.
    - destruct (Z.lt_ge_cases dS T) as [Hlt|]; [|lia].
      assert (2 ^ dS <= 2 ^ (T - 1)) by (apply Z.pow_le_mono_r; lia). lia.
    - destruct (Z.lt_ge_cases (T + 7) dS) as [Hgt|]; [|lia].
      assert (2 ^ (T + 7) <= 2 ^ (dS - 1)) by (apply Z.pow_le_mono_r; lia).
      assert (E7 : 2 ^ (T + 7) = 256 * 2 ^ (T - 1)).
      { change 256 with (2 ^ 8). rewrite <- pow2_split by lia. f_equal. lia. }
      lia. }
  destruct (binary_normalize_big S ez HS52) as [Heq HM]; [unfold ez; lia|fold dS; unfold ez; lia|].
  fold dS in Heq, HM. rewrite Heq.
  set (k := dS - 53) in *. set (M := rne S (2 ^ k)) in *.
  pose proof (pow2_pos k ltac:(lia)) as Hpk.
  assert (HMle : M <= 201 * 2 ^ (T - 1 - k)).
  { apply rne_le; [done|]. rewrite <- Z.mul_assoc, <- pow2_split by lia.
    replace (T - 1 - k + k) with (T - 1) by lia. lia. }
  assert (EE : 2 ^ (- (ez + k)) = 2 * 2 ^ (T - 1 - k)).
  { change 2 with (2 ^ 1) at 2. rewrite <- pow2_split by lia. f_equal. unfold T. lia. }
  pose proof (pow2_pos (T - 1 - k) ltac:(lia)) as Hpe.
  unfold roundedFloat. destruct (Z.ltb_spec M (2 ^ 53)) as [Hlt|Hge].
  - apply int_below_strict; [unfold T in *; lia| |lia].
    rewrite Z2Pos.id by lia. rewrite EE. lia.
  - apply int_below_strict; [unfold T in *; lia| |lia].
    change (Z.pos (Z.to_pos (2 ^ 52))) with (2 ^ 52).
    replace (- (ez + k + 1)) with (T - 1 - k) by (unfold T; lia).
    change (2 ^ 53) with (2 * 2 ^ 52) in Hge. lia.
Qed.

Lemma humanRound_below (lo : Z) (p : float64) :
  below lo 100 p -> - 400 <= lo -> below (- 52) 100 (humanRound p).
Proof.
  intros Hp Hlo. unfold humanRound.
  apply below_of_int; [by apply (int_add_half lo)|done].
Qed.

Lemma entryPercent_below (cfg : Config) (s : FileStat) (total totalBytes : Z) :
  0 <= metric cfg s <= chosenTotal cfg total totalBytes ->
  chosenTotal cfg total totalBytes < 2 ^ 53 ->
  below (- 99) 100 (entryPercent cfg s total totalBytes).
Proof.
  intros Hm Ht. unfold entryPercent.
  assert (Hraw : below (- 99) 100 (rawPercent cfg s total totalBytes)).
  { unfold rawPercent, metric, chosenTotal in *.
    destruct (BySize cfg); by apply percent_below. }
  destruct (Human cfg); [|done].
  eapply below_weaken; [|by apply (humanRound_below (- 99))]. lia.
Qed.

Lemma Repeat_some (s : string) (n : Z) : 0 <= n -> is_Some (Repeat s n).
Proof.
  intros Hn. unfold Repeat. destruct (Z.ltb_spec n 0); [lia|]. by eexists.
Qed.

Lemma entryLine_some (cfg : Config) (s : FileStat) (total totalBytes : Z) :
  0 <= metric cfg s <= chosenTotal cfg total totalBytes ->
  chosenTotal cfg total totalBytes < 2 ^ 53 ->
  is_Some (entryLine cfg s total totalBytes).
Proof.
  intros Hm Ht. unfold entryLine. destruct (NoBar cfg); [by eexists|].
  pose proof (barLenOf_range (- 99) _ (entryPercent_below cfg s total totalBytes Hm Ht)
                ltac:(lia)) as Hbar.
  destruct (Repeat_some barCell _ (proj1 Hbar)) as [filled ->].
  destruct (Repeat_some "-" (barWidth - barLenOf (entryPercent cfg s total totalBytes)))
    as [rest ->]; [lia|]. by eexists.
Qed.

Lemma printEntries_complete (cfg : Config) (stats : list FileStat) (total totalBytes : Z) :
  chosenTotal cfg total totalBytes < 2 ^ 53 ->
  Forall (fun s => 0 <= metric cfg s <= chosenTotal cfg total totalBytes) stats ->
  snd (printEntries cfg stats total totalBytes) = true
  /\ length (fst (printEntries cfg stats total totalBytes)) = length stats.
Proof.
  intros Ht. induction 1 as [|s stats Hs _ [IH1 IH2]]; [done|].
  cbn [printEntries].
  destruct (entryLine_some cfg s total totalBytes Hs Ht) as [line ->].
  destruct (printEntries cfg stats total totalBytes) as [ls ok].
  simpl in *. by rewrite IH2.
Qed.

(** X16.  [printStats] runs to its end, without the panic of a negative
    count in [strings.Repeat], whenever the value of every entry lies between
    zero and the total of the mode and that total is below [2^53]: the filled
    part of the bar then has between 0 and 40 cells, with [--human] or
    without.  It prints one line for every entry, after the heading when the
    bars are drawn. *)
Theorem printStats_completes (cfg : Config) (stats : list FileStat) (total totalBytes : Z) :
  chosenTotal cfg total totalBytes < 2 ^ 53 ->
  Forall (fun s => 0 <= metric cfg s <= chosenTotal cfg total totalBytes) stats ->
  snd (printStats cfg stats total totalBytes) = true
  /\ length (fst (printStats cfg stats total totalBytes))
     = ((if NoBar cfg then 0 else 1) + length stats)%nat
  /\ Forall (fun s =>
               0 <= barLenOf (entryPercent cfg s total totalBytes) <= barWidth) stats.
Proof.
  intros Ht Hall.
  destruct (printEntries_complete cfg stats total totalBytes Ht Hall) as [Hok Hlen].
  unfold printStats. destruct (printEntries cfg stats total totalBytes) as [ls ok].
  simpl in *. split; [done|]. split.
  - rewrite length_app, Hlen. by destruct (NoBar cfg).
  - eapply Forall_impl; [exact Hall|]. intros s Hs. simpl.
    apply (barLenOf_range (- 99)); [by apply entryPercent_below|lia].
Qed.

Lemma printStats_completes_witness :
  snd (printStats defaultConfig [byCountEntry "go" 2; byCountEntry "md" 1] 3 0) = true
  /\ length (fst (printStats defaultConfig [byCountEntry "go" 2; byCountEntry "md" 1] 3 0))
     = ((if NoBar defaultConfig then 0 else 1)
        + length [byCountEntry "go" 2; byCountEntry "md" 1])%nat
  /\ Forall (fun s => 0 <= barLenOf (entryPercent defaultConfig s 3 0) <= barWidth)
            [byCountEntry "go" 2; byCountEntry "md" 1].
Proof.
  refine (printStats_completes defaultConfig [byCountEntry "go" 2; byCountEntry "md" 1]
            3 0 _ _).
  - reflexivity.
  - repeat constructor; discriminate.
Defined.

(** An entry above the total overruns the bar, and [strings.Repeat] panics
    on the negative count that is left for the dashes. *)
Example printStats_panic :
  barLenOf (entryPercent defaultConfig (byCountEntry "go" 3) 1 0) = 120
  /\ printStats defaultConfig [byCountEntry "go" 3] 1 0
     = (["File type breakdown:"%string], false).
Proof. split; vm_compute; reflexivity. Qed.

Lemma aggregate_entries_bounded (R : RangeOrder) (S : SliceSorter) (cfg : Config)
    (counts sizeCounts : gmap string Z) (total totalBytes : Z) :
  map_Forall (fun _ v => 0 <= v) (chosenMap cfg counts sizeCounts) ->
  chosenTotal cfg total totalBytes = mapTotal (chosenMap cfg counts sizeCounts) ->
  chosenTotal cfg total totalBytes < 2 ^ 63 ->
  Forall (fun s => 0 <= metric cfg s <= chosenTotal cfg total totalBytes)
         (aggregateStats R S cfg counts sizeCounts total totalBytes).
Proof.
  intros Hpos Htot Hlt.
  pose proof (aggregate_metric_sum R S cfg counts sizeCounts total totalBytes
                Hpos Htot Hlt) as Hsum.
  set (stats := aggregateStats R S cfg counts sizeCounts total totalBytes) in *.
  assert (Hnn : Forall (fun v => 0 <= v) (map (metric cfg) stats)).
  { apply Forall_forall. intros v Hv.
    apply list_elem_of_fmap in Hv as (s & -> & Hs).
    unfold stats in Hs. rewrite aggregateStats_unfold, sortSlice_perm in Hs.
    apply preSort_elem in Hs as [(k & w & -> & Hk & _)|(w & -> & Hw)];
      rewrite metric_chosenEntry; [|lia].
    exact (Hpos k w Hk). }
  apply Forall_forall. intros s Hs.
  assert (Hin : metric cfg s ∈ map (metric cfg) stats) by by apply list_elem_of_fmap_2.
  pose proof (sumZ_elem_le _ _ Hnn Hin) as Hle.
  rewrite Forall_forall in Hnn. specialize (Hnn _ Hin). lia.
Qed.

(** The matching files of a tree have sizes that are not negative, and
    there are fewer than [2^53] of them, with fewer than [2^53] bytes. *)
Definition modest (cfg : Config) (d : fsnode) : Prop :=
  Forall (fun kv => 0 <= snd kv) (countedFiles cfg d)
  /\ Z.of_nat (length (countedFiles cfg d)) < 2 ^ 53
  /\ sumZ (map snd (countedFiles cfg d)) < 2 ^ 53.

(** X17.  Once the arguments are read, a run cannot fail: whether the root
    can be opened or not, and whatever the entries that cannot be read, it
    exits with status 0, and the error stream holds the warnings of the walk
    and nothing else; no panic stops the display.  (The tree is assumed to
    have fewer than [2^53] matching files and bytes.) *)
Theorem run_exits_zero (R : RangeOrder) (S : SliceSorter) (cfg : Config) (fs : FileSystem) :
  (forall d, fs (Dir cfg) = LstatOk d -> modest cfg d) ->
  exitCode (runConfig R S cfg fs) = 0
  /\ stderr (runConfig R S cfg fs) = warnings (fst (walkDir cfg fs)).
Proof.
  intros Hmodest. destruct (fs (Dir cfg)) as [d|e] eqn:Hfs.
  - destruct (Hmodest d eq_refl) as (Hnn & Hlen & Hsum).
    assert (Hacc : accounted (fst (walkDir cfg fs)) (countedFiles cfg d)).
    { eapply accounted_data; [symmetry; by apply walkDir_counted|].
      apply tally_accounted; [done|lia|lia]. }
    pose proof (walkDir_no_error cfg fs) as Herr.
    unfold runConfig. destruct (walkDir cfg fs) as [st err].
    simpl in Hacc, Herr |- *. subst err.
    destruct (SizeOnly cfg); [done|].
    destruct ((total st =? 0) && (totalBytes st =? 0)); [done|].
    destruct Hacc as (Ht & Hb & Hc & Hz & Hmc & Hmz).
    assert (Hbound : Forall (fun s => 0 <= metric cfg s
                                      <= chosenTotal cfg (total st) (totalBytes st))
              (aggregateStats R S cfg (counts st) (sizeCounts st) (total st) (totalBytes st))).
    { apply aggregate_entries_bounded.
      - unfold chosenMap. destruct (BySize cfg); intros k v Hk.
        + rewrite Hz in Hk. destruct (decide _); [done|]. injection Hk as <-.
          by apply keySize_bounds.
        + rewrite Hc in Hk. destruct (decide _); [done|]. injection Hk as <-.
          apply keyCount_bounds.
      - unfold chosenMap, chosenTotal. by destruct (BySize cfg).
      - unfold chosenTotal. destruct (BySize cfg); lia. }
    assert (Ht53 : chosenTotal cfg (total st) (totalBytes st) < 2 ^ 53).
    { unfold chosenTotal. destruct (BySize cfg); lia. }
    destruct (printEntries_complete cfg _ (total st) (totalBytes st) Ht53 Hbound)
      as [Hok _].
    unfold printStats.
    destruct (printEntries cfg _ (total st) (totalBytes st)) as [ls ok].
    simpl in Hok. subst ok. done.
  - unfold runConfig. rewrite (walkDir_lstat_error cfg fs e Hfs). cbn.
    by destruct (SizeOnly cfg).
Qed.

Lemma run_exits_zero_witness :
  exitCode (runConfig forwardOrder insertionSorter mixedConfig (fun _ => LstatOk mixedTree)) = 0
  /\ stderr (runConfig forwardOrder insertionSorter mixedConfig (fun _ => LstatOk mixedTree))
     = warnings (fst (walkDir mixedConfig (fun _ => LstatOk mixedTree))).
Proof.
  refine (run_exits_zero forwardOrder insertionSorter mixedConfig
            (fun _ => LstatOk mixedTree) _).
  intros d [= <-]. unfold modest. split; [|split; reflexivity].
  vm_compute. repeat constructor; discriminate.
Defined.

(** ** Whole percentages *)

Lemma append_empty_r (s : string) : s +:+ "" = s.
Proof.
  induction s as [|c s IH]; [done|].
  change (String c s +:+ "") with (String c (s +:+ "")). by rewrite IH.
Qed.

(** An integer below [2^53], printed with [%.0f] and with [%.2f]. *)
Lemma fmtFixed_of_int (n : Z) :
  0 <= n < 2 ^ 53 ->
  fmtFixed 0 (f64_of_int n) = showZ n
  /\ fmtFixed 2 (f64_of_int n) = showZ n +:+ ".00".
Proof.
  intros Hn. destruct (decide (n = 0)) as [->|Hne]; [done|].
  destruct (f64_of_int_exact n ltac:(lia)) as (m & a & -> & Ha & Hm & Hd).
  assert (Hsc : forall prec, scaledDecimal prec m (- a) = n * 10 ^ Z.of_nat prec).
  { intros prec. unfold scaledDecimal.
    destruct (Z.leb_spec 0 (- a)) as [H0|H0].
    - assert (a = 0) as -> by lia. rewrite Hm. simpl. lia.
    - rewrite Z.opp_involutive, Hm.
      replace (n * 2 ^ a * 10 ^ Z.of_nat prec) with (n * 10 ^ Z.of_nat prec * 2 ^ a) by lia.
      apply rne_exact. apply pow2_pos. lia. }
  unfold fmtFixed. rewrite !Hsc. split.
  - change (10 ^ Z.of_nat 0) with 1. rewrite Z.mul_1_r, Z.div_1_r.
    cbn [String.append]. apply append_empty_r.
  - change (10 ^ Z.of_nat 2) with 100. rewrite Z.div_mul by lia.
    cbn [String.append fixedDigits].
    replace (n * 100 mod 10) with 0 by (Z.div_mod_to_equations; lia).
    replace (n * 100 / 10) with (n * 10) by (Z.div_mod_to_equations; lia).
    replace (n * 10 mod 10) with 0 by (Z.div_mod_to_equations; lia).
    reflexivity.
Qed.

(** What [strings.Repeat] returns for a count that is not negative. *)
Definition repeated (s : string) (k : Z) : string :=
  Nat.iter (Z.to_nat k) (String.append s) EmptyString.

(** [int(percent + 0.5)]: the whole percentage of an entry under [--human]. *)
Definition wholePercent (cfg : Config) (s : FileStat) (total totalBytes : Z) : Z :=
  int_of_f64 (f64_add (rawPercent cfg s total totalBytes) f64_0_5).

(** The line of an entry named [ext] whose percentage is the whole number
    [n]: without bars the name and [n]; with bars the name, a bar with
    [n * 40 / 100] filled cells of 40, and [n] with two zero decimals. *)
Definition wholeLine (cfg : Config) (ext : string) (n : Z) : string :=
  if NoBar cfg then
    padRight 10 ext +:+ " " +:+ padLeft 5 (showZ n) +:+ "%"
  else
    padRight 10 ext +:+ " |" +:+ repeated barCell (n * 40 / 100)
      +:+ repeated "-" (barWidth - n * 40 / 100) +:+ "| "
      +:+ padLeft 5 (showZ n +:+ ".00") +:+ "%".

Lemma barLenOf_whole (n : Z) :
  0 <= n <= 100 -> barLenOf (f64_of_int n) = n * 40 / 100.
Proof.
  intros Hn.
  assert (Hall : forallb (fun k => barLenOf (f64_of_int k) =? k * 40 / 100) (seqZ 0 101)
                 = true) by (vm_compute; reflexivity).
  rewrite forallb_forall in Hall. apply Z.eqb_eq, Hall.
  apply list_elem_of_In, elem_of_seqZ. lia.
Qed.

Lemma Repeat_repeated (s : string) (k : Z) : 0 <= k -> Repeat s k = Some (repeated s k).
Proof. intros Hk. unfold Repeat. by destruct (Z.ltb_spec k 0); [lia|]. Qed.

Lemma entryLine_human (cfg : Config) (s : FileStat) (total totalBytes : Z) :
  Human cfg = true ->
  0 <= metric cfg s <= chosenTotal cfg total totalBytes ->
  chosenTotal cfg total totalBytes < 2 ^ 53 ->
  let n := wholePercent cfg s total totalBytes in
  0 <= n <= 100
  /\ entryPercent cfg s total totalBytes = f64_of_int n
  /\ fmtFixed 0 (entryPercent cfg s total totalBytes) = showZ n
  /\ fmtFixed 2 (entryPercent cfg s total totalBytes) = showZ n +:+ ".00"
  /\ barLenOf (entryPercent cfg s total totalBytes) = n * 40 / 100
  /\ entryLine cfg s total totalBytes = Some (wholeLine cfg (fsExt s) n).
Proof.
  intros Hh Hm Ht n.
  assert (Hraw : below (- 99) 100 (rawPercent cfg s total totalBytes)).
  { unfold rawPercent, metric, chosenTotal in *.
    destruct (BySize cfg); by apply percent_below. }
  pose proof (int_add_half (- 99) _ Hraw ltac:(lia)) as Hn. fold (wholePercent cfg s total totalBytes) in Hn. fold n in Hn.
  assert (Hp : entryPercent cfg s total totalBytes = f64_of_int n).
  { unfold entryPercent. by rewrite Hh. }
  destruct (fmtFixed_of_int n ltac:(lia)) as [H0 H2].
  pose proof (barLenOf_whole n Hn) as Hbar.
  split; [done|]. split; [done|]. rewrite Hp. split; [done|]. split; [done|].
  split; [done|].
  unfold entryLine, wholeLine. cbv zeta. rewrite Hp, H0, H2, Hbar.
  destruct (NoBar cfg); [done|].
  assert (Hk : 0 <= n * 40 / 100 <= barWidth) by (unfold barWidth; Z.div_mod_to_equations; lia).
  by rewrite !Repeat_repeated by lia.
Qed.

(** X18.  With [--human] the percentage of an entry is replaced, before the
    two modes of display part, by [float64(int(percent + 0.5))]: a whole
    number [n] between 0 and 100.  Both modes print their line from it: the
    mode without bars prints [n] ([%5.0f]), the mode with bars prints [n]
    followed by two zero decimals ([%5.2f]) beside a bar of [n * 40 / 100]
    filled cells; and [printStats] prints these lines, one for every entry,
    after the heading when the bars are drawn.  (Entries between zero and
    the total, a total below [2^53].) *)
Theorem human_percent_is_whole (cfg : Config) (stats : list FileStat)
    (total totalBytes : Z) :
  Human cfg = true ->
  chosenTotal cfg total totalBytes < 2 ^ 53 ->
  Forall (fun s => 0 <= metric cfg s <= chosenTotal cfg total totalBytes) stats ->
  Forall (fun s =>
            exists n : Z,
              0 <= n <= 100
              /\ n = int_of_f64 (f64_add (rawPercent cfg s total totalBytes) f64_0_5)
              /\ entryPercent cfg s total totalBytes = f64_of_int n
              /\ fmtFixed 0 (entryPercent cfg s total totalBytes) = showZ n
              /\ fmtFixed 2 (entryPercent cfg s total totalBytes) = showZ n +:+ ".00"
              /\ barLenOf (entryPercent cfg s total totalBytes) = n * 40 / 100
              /\ entryLine cfg s total totalBytes = Some (wholeLine cfg (fsExt s) n))
         stats
  /\ printStats cfg stats total totalBytes
     = ((if NoBar cfg then [] else ["File type breakdown:"%string])
        ++ map (fun s => wholeLine cfg (fsExt s) (wholePercent cfg s total totalBytes)) stats,
        true).
Proof.
  intros Hh Ht Hall. split.
  - eapply Forall_impl; [exact Hall|]. intros s Hs. simpl.
    exists (wholePercent cfg s total totalBytes).
    destruct (entryLine_human cfg s total totalBytes Hh Hs Ht) as (H1 & H2 & H3 & H4 & H5 & H6).
    done.
  - unfold printStats.
    assert (Hpe : printEntries cfg stats total totalBytes
                  = (map (fun s => wholeLine cfg (fsExt s)
                                     (wholePercent cfg s total totalBytes)) stats, true)).
    { induction Hall as [|s stats Hs _ IH]; [done|].
      cbn [printEntries map].
      destruct (entryLine_human cfg s total totalBytes Hh Hs Ht) as (_ & _ & _ & _ & _ & ->).
      by rewrite IH. }
    by rewrite Hpe.
Qed.

Lemma human_percent_is_whole_witness :
  Forall (fun s =>
            exists n : Z,
              0 <= n <= 100
              /\ n = int_of_f64 (f64_add (rawPercent (setHuman defaultConfig) s 7 0) f64_0_5)
              /\ entryPercent (setHuman defaultConfig) s 7 0 = f64_of_int n
              /\ fmtFixed 0 (entryPercent (setHuman defaultConfig) s 7 0) = showZ n
              /\ fmtFixed 2 (entryPercent (setHuman defaultConfig) s 7 0) = showZ n +:+ ".00"
              /\ barLenOf (entryPercent (setHuman defaultConfig) s 7 0) = n * 40 / 100
              /\ entryLine (setHuman defaultConfig) s 7 0
                 = Some (wholeLine (setHuman defaultConfig) (fsExt s) n))
         [byCountEntry "md" 4; byCountEntry "go" 3]
  /\ printStats (setHuman defaultConfig) [byCountEntry "md" 4; byCountEntry "go" 3] 7 0
     = ((if NoBar (setHuman defaultConfig) then [] else ["File type breakdown:"%string])
        ++ map (fun s => wholeLine (setHuman defaultConfig) (fsExt s)
                           (wholePercent (setHuman defaultConfig) s 7 0))
               [byCountEntry "md" 4; byCountEntry "go" 3],
        true).
Proof.
  refine (human_percent_is_whole (setHuman defaultConfig)
            [byCountEntry "md" 4; byCountEntry "go" 3] 7 0 eq_refl _ _).
  - reflexivity.
  - repeat constructor; discriminate.
Defined.

(** Three files of seven, with and without [--human]. *)
Example human_lines :
  entryLine (setHuman defaultConfig) (byCountEntry "go" 3) 7 0
  = Some ("go         |" +:+ default "" (Repeat barCell 17) +:+ default "" (Repeat "-" 23)
          +:+ "| 43.00%")
  /\ entryLine defaultConfig (byCountEntry "go" 3) 7 0
     = Some ("go         |" +:+ default "" (Repeat barCell 17) +:+ default "" (Repeat "-" 23)
             +:+ "| 42.86%")
  /\ entryLine (setNoBar (setHuman defaultConfig)) (byCountEntry "go" 3) 7 0
     = Some "go            43%"%string.
Proof. repeat split; vm_compute; reflexivity. Qed.

(** ** The number of entries *)

Lemma share_count (tot : Z) (l : list Z) :
  Forall (fun v => tot <= 100 * v) l -> Z.of_nat (length l) * tot <= 100 * sumZ l.
Proof. induction 1 as [|v l Hv _ IH]; simpl length; simpl sumZ; lia. Qed.

(** X19.  With verbose off, over a non-negative accumulator whose total is
    the sum of its values and is below [2^53], [aggregateStats] returns at
    most 101 entries: at most a hundred categories can each hold one percent
    of the total, and [other] is the only entry besides. *)
Theorem default_entries_are_few (R : RangeOrder) (S : SliceSorter) (cfg : Config)
    (counts sizeCounts : gmap string Z) (total totalBytes : Z) :
  Verbose cfg = false ->
  map_Forall (fun _ v => 0 <= v) (chosenMap cfg counts sizeCounts) ->
  chosenTotal cfg total totalBytes = mapTotal (chosenMap cfg counts sizeCounts) ->
  chosenTotal cfg total totalBytes < 2 ^ 53 ->
  (length (aggregateStats R S cfg counts sizeCounts total totalBytes) <= 101)%nat.
Proof.
  intros Hverb Hpos Htot Hlt.
  rewrite aggregateStats_unfold, sortSlice_perm. unfold preSort.
  set (m := chosenMap cfg counts sizeCounts) in *.
  set (tot := chosenTotal cfg total totalBytes) in *.
  rewrite Hverb.
  set (kvs := rangeOf R m).
  assert (Hnn : Forall (fun v => 0 <= v) (map snd kvs)).
  { apply Forall_forall. intros v Hv.
    apply list_elem_of_fmap in Hv as ([k v'] & -> & Hkv).
    unfold kvs in Hkv. rewrite (rangeOf_perm R) in Hkv.
    apply elem_of_map_to_list in Hkv. by apply (Hpos k v'). }
  assert (Hsum : sumZ (map snd kvs) = tot).
  { rewrite Htot. unfold mapTotal, kvs.
    apply sumZ_perm, Permutation_map, rangeOf_perm. }
  assert (Hsub : forall P `{forall kv : string * Z, Decision (P kv)},
            Forall (fun v => 0 <= v) (map snd (filter P kvs))).
  { intros P ?. apply Forall_forall. intros v Hv.
    apply list_elem_of_fmap in Hv as (kv & -> & Hkv).
    apply list_elem_of_filter in Hkv as [_ Hkv].
    rewrite Forall_forall in Hnn. apply Hnn. by apply list_elem_of_fmap_2. }
  pose proof (kept_folded_sum false tot kvs) as Hsplit.
  pose proof (sumZ_nonneg _ (Hsub _ _ : Forall _ (map snd (foldedOf false tot kvs)))) as Hf0.
  assert (Hshare : Forall (fun v => tot <= 100 * v) (map snd (keptOf false tot kvs))).
  { apply Forall_forall. intros v Hv.
    apply list_elem_of_fmap in Hv as (kv & -> & Hkv).
    apply list_elem_of_filter in Hkv as [Hcol Hkv].
    assert (Hin : snd kv ∈ map snd kvs) by by apply list_elem_of_fmap_2.
    pose proof (sumZ_elem_le _ _ Hnn Hin) as Hle.
    rewrite Forall_forall in Hnn. specialize (Hnn _ Hin).
    rewrite collapsed_exact in Hcol by lia. simpl in Hcol.
    apply orb_false_iff in Hcol as [_ Hcol]. apply Z.ltb_ge in Hcol. done. }
  pose proof (share_count _ _ Hshare) as Hcount.
  rewrite length_map in Hcount.
  rewrite length_app, length_map.
  assert (Hkept : (length (keptOf false tot kvs) <= 100)%nat).
  { destruct (keptOf false tot kvs) as [|kv0 rest] eqn:Hk; [simpl; lia|].
    assert (Htpos : 0 < tot).
    { apply Forall_cons in Hshare as [H0 _].
      assert (Hkv0 : kv0 ∈ keptOf false tot kvs) by (rewrite Hk; left).
      apply list_elem_of_filter in Hkv0 as [Hcol Hkv0].
      assert (Hin : snd kv0 ∈ map snd kvs) by by apply list_elem_of_fmap_2.
      pose proof (sumZ_elem_le _ _ Hnn Hin) as Hle.
      rewrite Forall_forall in Hnn. specialize (Hnn _ Hin).
      rewrite collapsed_exact in Hcol by lia. simpl in Hcol.
      apply orb_false_iff in Hcol as [Hz _]. apply Z.eqb_neq in Hz. lia. }
    nia. }
  match goal with |- context [if ?b then _ else _] => destruct b end; simpl length; lia.
Qed.

Lemma default_entries_are_few_witness :
  (length (aggregateStats forwardOrder insertionSorter defaultConfig
             {[ "go"%string := 2%Z; "md"%string := 1%Z ]} ∅ 3%Z 0%Z) <= 101)%nat.
Proof.
  apply default_entries_are_few; [reflexivity| |reflexivity|reflexivity].
  intros k v. cbn [chosenMap defaultConfig BySize].
  intros Hk. apply lookup_insert_Some in Hk as [[_ <-]|[_ Hk]]; [done|].
  apply lookup_singleton_Some in Hk as [_ <-]. done.
Defined.
